(** * node-fs-methods: the retry queue, the metadata fixes and the copy engine

    A shallow embedding of
      - [src/lib/fs/gracefull-fs.mjs]: the EMFILE/ENFILE retry queue
        ([enqueue], [scheduleRetry], [resetQueue], [retryQueue],
        [wrapWithRetry]), the chown/chmod/stat fixes of [patchFs] and
        its retries of [read], [readSync] and [rename];
      - the synchronous copy engine ([copySync], [getStats], [onFile],
        [mayCopyFile], [copyFile], [onDir], [copyDir], [copyDirItem],
        [onLink], [copyLink]);
      - the adapters [fromCallback] and [fromPromise].

    Layout: the JavaScript values the code computes with, then one module
    per source component (definitions first, results after them). *)

From Stdlib Require Import ZArith QArith Qminmax Lqa List Ascii String Bool Lia Arith.
Import ListNotations.

(* ===================================================================== *)
(** * JavaScript values and numbers *)
(* ===================================================================== *)

Module Js.

(** The values that reach the retry queue: [undefined], integral numbers
    (file descriptors, [Date.now()] readings), strings (paths) and
    functions (completion callbacks, identified by a number). *)
Inductive value : Type :=
| VUndef
| VNum (z : Z)
| VStr (s : string)
| VFun (f : nat).

(** A JavaScript number as the arithmetic of [retryQueue] sees it: a
    rational, or [None] for [NaN].  All the numbers involved are
    integral millisecond counts and their products with [1.2]; on those
    the comparisons of the double-precision results agree with the
    comparisons of the exact rationals. *)
Definition number : Type := option Q.

Definition num (z : Z) : number := Some (inject_Z z).
Definition NaN : number := None.

Definition js_sub (a b : number) : number :=
  match a, b with
  | Some x, Some y => Some (x - y)%Q
  | _, _ => None
  end.

Definition js_mul (a b : number) : number :=
  match a, b with
  | Some x, Some y => Some (x * y)%Q
  | _, _ => None
  end.

(** [Math.max] and [Math.min]: [NaN] as soon as one argument is. *)
Definition Math_max (a b : number) : number :=
  match a, b with
  | Some x, Some y => Some (Qmax x y)
  | _, _ => None
  end.

Definition Math_min (a b : number) : number :=
  match a, b with
  | Some x, Some y => Some (Qmin x y)
  | _, _ => None
  end.

(** [a >= b]: false as soon as one side is [NaN]. *)
Definition js_ge (a b : number) : bool :=
  match a, b with
  | Some x, Some y => Qle_bool y x
  | _, _ => false
  end.

(** [a <= b] as a proposition, for statements about sequences of
    numbers; it fails as soon as one side is [NaN], like the operator. *)
Definition js_le (a b : number) : Prop := js_ge b a = true.

Section Coercion.
(** ECMAScript's StringToNumber, a parameter of the model: the retry
    queue never parses a string on purpose. *)
Variable StringToNumber : string -> number.

(** ToNumber, as applied by the binary [-]. *)
Definition ToNumber (v : value) : number :=
  match v with
  | VUndef => NaN
  | VNum z => num z
  | VStr s => StringToNumber s
  | VFun _ => NaN
  end.
End Coercion.

(** [typeof v === 'function'] *)
Definition is_function (v : value) : bool :=
  match v with VFun _ => true | _ => false end.

(** An error object: its [code] and an identity that tells two error
    objects with the same code apart. *)
Record error : Type := mkError { code : string; ident : nat }.

(** ** Integral Numbers

    The identifiers and the permission bits of a [fs.Stats] object are
    integral Numbers; such a Number is held as the integer it is. *)

Local Open Scope Z_scope.

(** The Number nearest to an integer.  Every integer up to 2^53 in
    magnitude is a Number; beyond, a Number keeps 53 significant bits,
    the rest is rounded to nearest, ties to the even significand. *)
Definition nearest_double (z : Z) : Z :=
  let a := Z.abs z in
  if a <=? 2 ^ 53 then z
  else
    let e := Z.log2 a - 52 in
    let q := a / 2 ^ e in
    let r := a mod 2 ^ e in
    let half := 2 ^ (e - 1) in
    let q' := if r <? half then q
              else if half <? r then q + 1
              else if Z.even q then q else q + 1 in
    Z.sgn z * (q' * 2 ^ e).

(** [a + b] on integral Numbers whose sum stays below the largest
    Number. *)
Definition js_add_int (a b : Z) : Z := nearest_double (a + b).

(** ToInt32 on an integral Number. *)
Definition ToInt32 (z : Z) : Z :=
  let m := z mod 2 ^ 32 in
  if m <? 2 ^ 31 then m else m - 2 ^ 32.

(** [a | b] and [a & b]: both operands go through ToInt32 and the
    result is a signed 32-bit integer. *)
Definition js_bitor (a b : Z) : Z := ToInt32 (Z.lor (ToInt32 a) (ToInt32 b)).
Definition js_bitand (a b : Z) : Z := ToInt32 (Z.land (ToInt32 a) (ToInt32 b)).

End Js.

(* ===================================================================== *)
(** * The retry queue (gracefull-fs.mjs, lines 14-100) *)
(* ===================================================================== *)

Module RetryQueue.
Import Js.
Local Open Scope list_scope.
Local Open Scope Z_scope.

(** A queue entry, the array [[fn, args, err, startTime, lastTime]].
    [fn] is always an [attempt] closure; it is named by the number of
    the wrapped call that created it. *)
Record entry : Type := mkEntry {
  fn : nat;
  args : list value;
  err : error;
  startTime : value;
  lastTime : value
}.

(** What an [attempt] closure captures: the arguments of the wrapped
    call with the callback taken off, and that callback (or
    [undefined]). *)
Record closure : Type := mkClosure { c_args : list value; c_cb : value }.

(** An underlying operation that was started and has not completed yet.
    Its completion callback closes over the [startTime] parameter of the
    [attempt] invocation that started it. *)
Record pending : Type := mkPending { p_call : nat; p_startTime : value }.

(** One invocation of an original completion callback: the function
    [o_cb] applied to [(o_err, ...o_results)].  [o_call] records for
    which wrapped call it happened. *)
Record output : Type := mkOutput {
  o_call : nat;
  o_cb : nat;
  o_err : option error;
  o_results : list value
}.

(** The module state ([queue], [retryTimer]), the closures and
    operations alive, the callback invocations so far and the number of
    [Date.now()] readings taken. *)
Record world : Type := mkWorld {
  queue : list entry;
  retryTimer : bool;
  closures : list closure;
  inflight : list pending;
  outputs : list output;
  ticks : nat
}.

Definition init : world := mkWorld [] false [] [] [] 0.

Definition set_queue (q : list entry) (w : world) : world :=
  mkWorld q (retryTimer w) (closures w) (inflight w) (outputs w) (ticks w).
Definition set_retryTimer (b : bool) (w : world) : world :=
  mkWorld (queue w) b (closures w) (inflight w) (outputs w) (ticks w).
Definition set_closures (c : list closure) (w : world) : world :=
  mkWorld (queue w) (retryTimer w) c (inflight w) (outputs w) (ticks w).
Definition set_inflight (p : list pending) (w : world) : world :=
  mkWorld (queue w) (retryTimer w) (closures w) p (outputs w) (ticks w).
Definition set_outputs (o : list output) (w : world) : world :=
  mkWorld (queue w) (retryTimer w) (closures w) (inflight w) o (ticks w).
Definition set_ticks (n : nat) (w : world) : world :=
  mkWorld (queue w) (retryTimer w) (closures w) (inflight w) (outputs w) n.

(** [err.code === 'EMFILE' || err.code === 'ENFILE'] *)
Definition is_exhaustion (e : error) : bool :=
  String.eqb (code e) "EMFILE" || String.eqb (code e) "ENFILE".

(** The events of the environment: a call of a wrapped function, the
    completion of the [i]-th operation in flight with [(err, ...results)],
    the firing of the retry timer (with a bound on the iterations of the
    drain loop that are followed) and a call of [resetQueue].

    The underlying operations follow the convention of the wrapper: each
    one invokes its completion callback once, and does so later, from the
    event loop (as the operations of node:fs do), never from within the
    call that starts it.  The timer callback only gives way to the
    microtasks of its own [for await], so a drain pass runs to its end
    before any other event. *)
Inductive event : Type :=
| Call (arguments : list value)
| Complete (i : nat) (e : option error) (results : list value)
| Timer (fuel : nat)
| Reset.

Section Model.
(** [clock k] is the value of the [k]-th call of [Date.now()]. *)
Variable clock : nat -> Z.
Variable StringToNumber : string -> number.

Definition Date_now (w : world) : Z * world :=
  (clock (ticks w), set_ticks (S (ticks w)) w).

(** A parameter or destructuring default [x = Date.now()]. *)
Definition default_now (v : value) (w : world) : value * world :=
  match v with
  | VUndef => let (t, w') := Date_now w in (VNum t, w')
  | _ => (v, w)
  end.

Definition scheduleRetry (w : world) : world :=
  if retryTimer w then w else set_retryTimer true w.

Definition enqueue (e : entry) (w : world) : world :=
  scheduleRetry (set_queue (queue w ++ [e]) w).

(** Invoking [cb] when it is a function ([cb?.(err, ...results)] and
    [if (typeof cb === 'function') cb.call(null, err)]). *)
Definition call_cb (call : nat) (cb : value) (e : option error)
    (results : list value) (w : world) : world :=
  match cb with
  | VFun f => set_outputs (outputs w ++ [mkOutput call f e results]) w
  | _ => w
  end.

(** [attempt(...arglist)]: the single parameter [startTime] takes the
    first argument, the underlying operation is started with the
    captured arguments and a fresh completion callback. *)
Definition attempt (call : nat) (arglist : list value) (w : world) : world :=
  let (st, w1) := default_now (hd VUndef arglist) w in
  set_inflight (inflight w1 ++ [mkPending call st]) w1.

(** [wrapWithRetry(fn)(...args)] *)
Definition wrapWithRetry (arguments : list value) (w : world) : world :=
  let cb := if is_function (last arguments VUndef)
            then last arguments VUndef else VUndef in
  let args' := if is_function (last arguments VUndef)
               then removelast arguments else arguments in
  let call := List.length (closures w) in
  attempt call [] (set_closures (closures w ++ [mkClosure args' cb]) w).

(** The completion callback that [attempt] hands to the operation. *)
Definition on_complete (p : pending) (e : option error)
    (results : list value) (w : world) : world :=
  match nth_error (closures w) (p_call p) with
  | None => w
  | Some c =>
      match e with
      | Some x =>
          if is_exhaustion x then
            let (t, w1) := Date_now w in
            enqueue (mkEntry (p_call p) (c_args c ++ [c_cb c]) x
                             (p_startTime p) (VNum t)) w1
          else call_cb (p_call p) (c_cb c) e results w
      | None => call_cb (p_call p) (c_cb c) e results w
      end
  end.

(** [delay] of [retryQueue], from the two time stamps of an entry. *)
Definition delay_of (st lt : value) : number :=
  let sinceStart :=
    Math_max (js_sub (ToNumber StringToNumber lt) (ToNumber StringToNumber st))
             (num 1) in
  Math_min (js_mul sinceStart (Some (12 # 10))) (num 100).

(** [now - startTime >= 60_000] *)
Definition timed_out (now : Z) (st : value) : bool :=
  js_ge (js_sub (num now) (ToNumber StringToNumber st)) (num 60000).

(** [sinceAttempt >= delay] *)
Definition is_due (now : Z) (st lt : value) : bool :=
  js_ge (js_sub (num now) (ToNumber StringToNumber lt)) (delay_of st lt).

(** One iteration of the [while] loop of [retryQueue], for the entry
    [e] that [queue.shift()] returned. *)
Definition retryQueue_body (e : entry) (w : world) : world :=
  let (st, w1) := default_now (startTime e) w in
  let (lt, w2) := default_now (lastTime e) w1 in
  let (now, w3) := Date_now w2 in
  if timed_out now st then
    call_cb (fn e) (last (args e) VUndef) (Some (err e)) [] w3
  else if is_due now st lt then
    attempt (fn e) (args e ++ [st]) w3
  else
    set_queue (queue w3 ++ [mkEntry (fn e) (args e) (err e) st (VNum now)]) w3.

(** [retryQueue], run to its end by the [for await] of the timer
    callback: [None] when the loop is still running after [fuel]
    iterations. *)
Fixpoint retryQueue (fuel : nat) (w : world) : option world :=
  match queue w with
  | [] => Some w
  | e :: q =>
      match fuel with
      | O => None
      | S fuel' => retryQueue fuel' (retryQueue_body e (set_queue q w))
      end
  end.

(** The drain pass as the glossary words it, for comparison with
    [retryQueue]: one scan of the queue, each entry queued when the
    pass starts handled once. *)
Fixpoint scan (n : nat) (w : world) : world :=
  match n with
  | O => w
  | S n' =>
      match queue w with
      | [] => w
      | e :: q => scan n' (retryQueue_body e (set_queue q w))
      end
  end.

Definition drain_pass_spec (w : world) : world :=
  scan (List.length (queue w)) w.

(** The callback given to [setTimeout] by [scheduleRetry]. *)
Definition timer (fuel : nat) (w : world) : option world :=
  match retryQueue fuel (set_retryTimer false w) with
  | None => None
  | Some w' =>
      Some (match queue w' with [] => w' | _ :: _ => scheduleRetry w' end)
  end.

Definition resetQueue (w : world) : world :=
  let (now, w1) := Date_now w in
  scheduleRetry
    (set_queue
       (map (fun job =>
               mkEntry (fn job) (args job) (err job) (VNum now) (VNum now))
            (queue w1))
       w1).

(** Removing the [i]-th element of a list. *)
Fixpoint remove_nth {A : Type} (i : nat) (l : list A) : list A :=
  match l, i with
  | [], _ => []
  | _ :: l', O => l'
  | x :: l', S i' => x :: remove_nth i' l'
  end.

(** One event; [None] when the event cannot happen in [w] (no such
    operation in flight, no timer pending) or when the drain loop
    outlives the fuel. *)
Definition step (ev : event) (w : world) : option world :=
  match ev with
  | Call arguments => Some (wrapWithRetry arguments w)
  | Complete i e results =>
      match nth_error (inflight w) i with
      | None => None
      | Some p =>
          Some (on_complete p e results
                  (set_inflight (remove_nth i (inflight w)) w))
      end
  | Timer fuel => if retryTimer w then timer fuel w else None
  | Reset => Some (resetQueue w)
  end.

Fixpoint run (evs : list event) (w : world) : option world :=
  match evs with
  | [] => Some w
  | ev :: evs' =>
      match step ev w with
      | None => None
      | Some w' => run evs' w'
      end
  end.

End Model.


(** ** Where a wrapped call is: queued, in flight, or completed *)

Definition queued (c : nat) (w : world) : nat :=
  List.length (filter (fun e => Nat.eqb (fn e) c) (queue w)).
Definition flying (c : nat) (w : world) : nat :=
  List.length (filter (fun p => Nat.eqb (p_call p) c) (inflight w)).
Definition outputs_of (c : nat) (w : world) : list output :=
  filter (fun o => Nat.eqb (o_call o) c) (outputs w).
Definition tokens (c : nat) (w : world) : nat :=
  (queued c w + flying c w + List.length (outputs_of c w))%nat.

(** Every wrapped call is in at most one place, and only calls that
    were made are anywhere. *)
Record wf (w : world) : Prop := mkWf {
  wf_once : forall c, (tokens c w <= 1)%nat;
  wf_made : forall c, (List.length (closures w) <= c)%nat -> tokens c w = 0%nat
}.

(** [w'] differs from [w] at most in the call [k], which gained at most
    one place. *)
Record only_touches (k : nat) (w w' : world) : Prop := mkTouches {
  ot_closures : closures w' = closures w;
  ot_other : forall c, c <> k ->
    queued c w' = queued c w /\ flying c w' = flying c w /\
    outputs_of c w' = outputs_of c w;
  ot_self : (tokens k w' <= tokens k w + 1)%nat
}.

(** [w'] is [w] up to the clock readings taken. *)
Definition same_but_ticks (w w' : world) : Prop :=
  queue w' = queue w /\ retryTimer w' = retryTimer w /\
  closures w' = closures w /\ inflight w' = inflight w /\
  outputs w' = outputs w.

(** The callback of a wrapped call. *)
Definition callback_of (c : nat) (w : world) : option value :=
  option_map c_cb (nth_error (closures w) c).

(** A call that was made and is neither queued nor in flight. *)
Definition settled (c : nat) (w : world) : Prop :=
  queued c w = 0%nat /\ flying c w = 0%nat /\
  (c < List.length (closures w))%nat.

(** What every event but a new call guarantees for a call [c]: it
    gains no place, and once it is neither queued nor in flight it
    stays so and its callback is not invoked again. *)
Record keeps (c : nat) (w w' : world) : Prop := mkKeeps {
  k_tokens : (tokens c w' <= tokens c w)%nat;
  k_quiet : queued c w = 0%nat -> flying c w = 0%nat ->
    queued c w' = 0%nat /\ flying c w' = 0%nat /\
    outputs_of c w' = outputs_of c w
}.

(** The completions that [attempt]'s callback hands to the original
    callback: a success, or an error that is not a resource exhaustion. *)
Definition forwards (e : option error) : bool :=
  match e with
  | Some x => negb (is_exhaustion x)
  | None => true
  end.

(** ** Concrete runs *)

Definition emfile (n : nat) : error := mkError "EMFILE" n.

(** [readFile(5, cb)] on a file descriptor: the first attempt and the
    retry both fail with EMFILE. *)
Definition fd_clock (k : nat) : Z :=
  match k with
  | 0%nat => 1000000
  | 1%nat => 1000000
  | 2%nat => 1000002
  | 3%nat => 1000003
  | _ => 1000004
  end.

Definition fd_events : list event :=
  [Call [VNum 5; VFun 7]; Complete 0 (Some (emfile 0)) []; Timer 10;
   Complete 0 (Some (emfile 1)) []].

(** The same readings, then one second more at every reading. *)
Definition late_clock (k : nat) : Z :=
  match k with
  | 0%nat => 1000000
  | 1%nat => 1000000
  | 2%nat => 1000002
  | 3%nat => 1000003
  | S (S (S (S n))) => 1000003 + 1000 * Z.of_nat n
  end.

(** [open('/tmp/x', cb)], same scenario. *)
Definition path_events : list event :=
  [Call [VStr "/tmp/x"; VFun 7]; Complete 0 (Some (emfile 0)) []; Timer 10;
   Complete 0 (Some (emfile 1)) []].

(** The state of a run after the events [evs], or [w] when it has none. *)
Definition world_after (clock : nat -> Z) (evs : list event) (w : world) : world :=
  match run clock (fun _ => NaN) evs w with
  | Some w' => w'
  | None => w
  end.

(** A call whose first attempt fails at once; the queued entry is not
    due at the first reading of the clock in the drain pass and due at
    the second. *)
Definition two_step_clock (k : nat) : Z :=
  match k with
  | 0%nat => 1000000
  | 1%nat => 1000000
  | 2%nat => 1000001
  | _ => 1000003
  end.

(** A clock read in a tight loop: it gains 1 ms every 1000 readings. *)
Definition ms_clock (k : nat) : Z := 1000000 + Z.of_nat k / 1000.

Definition not_due_events : list event :=
  [Call [VStr "/tmp/x"; VFun 7]; Complete 0 (Some (emfile 0)) []].

Definition not_due_world : world :=
  Eval vm_compute in world_after two_step_clock not_due_events init.

(** A retry that succeeds after one EMFILE failure, followed by a reset
    and one more call. *)
Definition success_prefix : list event :=
  [Call [VStr "/tmp/x"; VFun 7]; Complete 0 (Some (emfile 0)) []; Timer 10].

Definition success_suffix : list event :=
  [Reset; Call [VStr "/tmp/y"; VFun 8]; Timer 10].

(** A first attempt that fails with EACCES, followed by one more call. *)
Definition eacces : error := mkError "EACCES" 3.

Definition eacces_prefix : list event := [Call [VStr "/tmp/x"; VFun 7]].

Definition eacces_suffix : list event :=
  [Call [VStr "/tmp/y"; VFun 8]; Complete 0 (Some (emfile 0)) []; Reset].

(** The states these two runs go through. *)

Definition success_w1 : world :=
  Eval vm_compute in world_after fd_clock success_prefix init.
Definition success_w1' : world :=
  Eval vm_compute in world_after fd_clock [Complete 0 None [VNum 3]] success_w1.
Definition success_w2 : world :=
  Eval vm_compute in world_after fd_clock success_suffix success_w1'.

Definition eacces_w1 : world :=
  Eval vm_compute in world_after fd_clock eacces_prefix init.
Definition eacces_w1' : world :=
  Eval vm_compute in
    world_after fd_clock [Complete 0 (Some eacces) []] eacces_w1.
Definition eacces_w2 : world :=
  Eval vm_compute in world_after fd_clock eacces_suffix eacces_w1'.

End RetryQueue.

(* ===================================================================== *)
(** * The chown, chmod and stat fixes of [patchFs]
      (gracefull-fs.mjs, lines 156-243) *)
(* ===================================================================== *)

Module MetadataFix.
Import Js.
Local Open Scope Z_scope.

(** A [fs.Stats] object: the two identifiers that the fix may touch and
    every other field, by name. *)
Record IdStats : Type := mkIdStats {
  uid : Z;
  gid : Z;
  others : list (string * Z)
}.

(** [isIgnorableChownErr].  [getuid] is [None] when [process.getuid] is
    missing, and the value of [process.getuid()] otherwise. *)
Definition isIgnorableChownErr (getuid : option Z) (err : option error) : bool :=
  match err with
  | None => true
  | Some e =>
      if String.eqb (code e) "ENOSYS" then true
      else if match getuid with
              | None => true
              | Some u => negb (Z.eqb u 0)
              end
      then String.eqb (code e) "EPERM" || String.eqb (code e) "EINVAL"
      else false
  end.

(** The two statements of [statFix] and [statFixSync] on a stats object:
    [if (stats?.uid < 0) stats.uid += 2 ** 32] and the same for [gid].
    The sum is a Number: the nearest one to the exact sum (which, for a
    negative identifier, is no larger in magnitude than the identifier
    or than 2^32). *)
Definition fix_ids (stats : option IdStats) : option IdStats :=
  match stats with
  | None => None
  | Some s =>
      let s1 := if uid s <? 0
                then mkIdStats (js_add_int (uid s) (2 ^ 32)) (gid s) (others s)
                else s in
      let s2 := if gid s1 <? 0
                then mkIdStats (uid s1) (js_add_int (gid s1) (2 ^ 32)) (others s1)
                else s1 in
      Some s2
  end.

(** The operations, by the property name they have on the [fs] object. *)
Inductive chown_name : Type := chown | fchown | lchown.
Inductive chmod_name : Type := chmod | fchmod | lchmod.
Inductive stat_name : Type := stat | fstat | lstat.

Section Fixes.
(** What a callback-style call amounts to, and the result of a call
    that invokes nothing ([cb?.()] with no [cb]). *)
Variable R : Type.
Variable nothing : R.
Variable getuid : option Z.

(** Completion callbacks: [(err, ...rest)] and [(err, stats)]. *)
Definition callback : Type := option error -> list value -> R.
Definition stat_callback : Type := option error -> option IdStats -> R.

Definition async_chown : Type :=
  value -> value -> value -> option callback -> R.
Definition async_chmod : Type := value -> value -> option callback -> R.
Definition sync_chown : Type := value -> value -> value -> error + value.
Definition sync_chmod : Type := value -> value -> error + value.

(** The second argument of [stat]: an options value, or the callback. *)
Inductive stat_arg : Type :=
| Options (o : value)
| Callback (k : stat_callback).

Definition async_stat : Type := value -> stat_arg -> option stat_callback -> R.
Definition sync_stat : Type := value -> value -> error + option IdStats.

(** [cb?.(err, ...rest)] *)
Definition call_opt {A B : Type} (cb : option (A -> B -> R)) (a : A) (b : B) : R :=
  match cb with
  | Some k => k a b
  | None => nothing
  end.

Definition chownFix (orig : option async_chown) : option async_chown :=
  match orig with
  | None => None
  | Some o =>
      Some (fun target u g cb =>
              o target u g
                (Some (fun err rest =>
                         let err := if isIgnorableChownErr getuid err
                                    then None else err in
                         call_opt cb err rest)))
  end.

Definition chmodFix (orig : option async_chmod) : option async_chmod :=
  match orig with
  | None => None
  | Some o =>
      Some (fun target mode cb =>
              o target mode
                (Some (fun err rest =>
                         let err := if isIgnorableChownErr getuid err
                                    then None else err in
                         call_opt cb err rest)))
  end.

(** [try { return orig(...) } catch (err) { if (!isIgnorable(err)) throw err }] *)
Definition chownFixSync (orig : option sync_chown) : option sync_chown :=
  match orig with
  | None => None
  | Some o =>
      Some (fun target u g =>
              match o target u g with
              | inr v => inr v
              | inl err =>
                  if isIgnorableChownErr getuid (Some err)
                  then inr VUndef else inl err
              end)
  end.

Definition chmodFixSync (orig : option sync_chmod) : option sync_chmod :=
  match orig with
  | None => None
  | Some o =>
      Some (fun target mode =>
              match o target mode with
              | inr v => inr v
              | inl err =>
                  if isIgnorableChownErr getuid (Some err)
                  then inr VUndef else inl err
              end)
  end.

Definition statFix (orig : option async_stat) : option async_stat :=
  match orig with
  | None => None
  | Some o =>
      Some (fun target options cb =>
              let cb' := match options with
                         | Callback k => Some k
                         | Options _ => cb
                         end in
              let options' := match options with
                              | Callback _ => Options VUndef
                              | Options _ => options
                              end in
              o target options'
                (Some (fun err stats => call_opt cb' err (fix_ids stats))))
  end.

Definition statFixSync (orig : option sync_stat) : option sync_stat :=
  match orig with
  | None => None
  | Some o =>
      Some (fun target options =>
              match o target options with
              | inr stats => inr (fix_ids stats)
              | inl err => inl err
              end)
  end.

(** The part of the [fs] object that these fixes read and write. *)
Record fsmodule : Type := mkFs {
  fs_chown : chown_name -> option async_chown;
  fs_chmod : chmod_name -> option async_chmod;
  fs_chownSync : chown_name -> option sync_chown;
  fs_chmodSync : chmod_name -> option sync_chmod;
  fs_stat : stat_name -> option async_stat;
  fs_statSync : stat_name -> option sync_stat
}.

Definition is_some {A : Type} (o : option A) : bool :=
  match o with Some _ => true | None => false end.

(** Lines 214-243 of [patchFs]: every operation gets its fix; a
    missing [lchmod] or [lchown] (and its Sync variant) becomes a
    no-op where [chmod] or [chown] exists. *)
Definition patchFs (fs : fsmodule) : fsmodule :=
  let chown' := fun n => chownFix (fs_chown fs n) in
  let chmod' := fun n => chmodFix (fs_chmod fs n) in
  let chownSync' := fun n => chownFixSync (fs_chownSync fs n) in
  let chmodSync' := fun n => chmodFixSync (fs_chmodSync fs n) in
  let no_lchmod := is_some (chmod' chmod) && negb (is_some (chmod' lchmod)) in
  let no_lchown := is_some (chown' chown) && negb (is_some (chown' lchown)) in
  mkFs
    (fun n =>
       match n with
       | lchown =>
           if no_lchown
           then Some (fun _ _ _ cb => call_opt cb None [])
           else chown' lchown
       | _ => chown' n
       end)
    (fun n =>
       match n with
       | lchmod =>
           if no_lchmod
           then Some (fun _ _ cb => call_opt cb None [])
           else chmod' lchmod
       | _ => chmod' n
       end)
    (fun n =>
       match n with
       | lchown =>
           if no_lchown then Some (fun _ _ _ => inr VUndef)
           else chownSync' lchown
       | _ => chownSync' n
       end)
    (fun n =>
       match n with
       | lchmod =>
           if no_lchmod then Some (fun _ _ => inr VUndef)
           else chmodSync' lchmod
       | _ => chmodSync' n
       end)
    (fun n => statFix (fs_stat fs n))
    (fun n => statFixSync (fs_statSync fs n)).

End Fixes.

Arguments Options {R} o.
Arguments Callback {R} k.
Arguments call_opt {R} nothing {A B} cb a b.
Arguments chownFix {R} nothing getuid orig.
Arguments chmodFix {R} nothing getuid orig.
Arguments statFix {R} nothing orig.
Arguments patchFs {R} nothing getuid fs.
Arguments mkFs {R}.
Arguments fs_chown {R} f n.
Arguments fs_chmod {R} f n.
Arguments fs_chownSync {R} f n.
Arguments fs_chmodSync {R} f n.
Arguments fs_stat {R} f n.
Arguments fs_statSync {R} f n.

(** An expected permission artifact, in the words of the specification:
    the code is ENOSYS, or it is EPERM or EINVAL while the process is not
    running as root. *)
Definition expected_artifact (getuid : option Z) (e : error) : Prop :=
  code e = "ENOSYS"%string \/
  ((code e = "EPERM"%string \/ code e = "EINVAL"%string) /\ getuid <> Some 0).

(** ** A sample [fs] object: chown and chmod fail with EPERM, stat
    returns identifiers that came out negative. *)

Inductive seen : Type :=
| NoCall
| Done (e : option error) (rest : list value)
| StatDone (e : option error) (s : option IdStats).

Definition eperm : error := mkError "EPERM" 1.

Definition raw_stats : IdStats :=
  mkIdStats (-1) (-2) [("mode"%string, 420); ("size"%string, 3)].

Definition sample_chown : async_chown seen :=
  fun _ _ _ cb => call_opt NoCall cb (Some eperm) [].
Definition sample_chmod : async_chmod seen :=
  fun _ _ cb => call_opt NoCall cb (Some eperm) [].
Definition sample_chownSync : sync_chown := fun _ _ _ => inl eperm.
Definition sample_chmodSync : sync_chmod := fun _ _ => inl eperm.
Definition sample_stat : async_stat seen :=
  fun _ _ cb => call_opt NoCall cb None (Some raw_stats).
Definition sample_statSync : sync_stat := fun _ _ => inr (Some raw_stats).

Definition sample_fs : fsmodule seen :=
  mkFs (fun _ => Some sample_chown) (fun _ => Some sample_chmod)
       (fun _ => Some sample_chownSync) (fun _ => Some sample_chmodSync)
       (fun _ => Some sample_stat) (fun _ => Some sample_statSync).

End MetadataFix.

(* ===================================================================== *)
(** * The synchronous copy engine *)
(* ===================================================================== *)

Module CopySync.
Local Open Scope string_scope.
Local Open Scope Z_scope.

(** The entry type that the predicates of a [fs.Stats] object report
    ([isDirectory()], [isFile()], ...); [Unknown] when none holds. *)
Inductive kind : Type :=
| Directory | File | CharacterDevice | BlockDevice
| SymbolicLink | Socket | FIFO | Unknown.

Record Stats : Type := mkStats {
  st_kind : kind;
  mode : Z;
  atime : Z;
  mtime : Z
}.

Definition isDirectory (s : Stats) : bool :=
  match st_kind s with Directory => true | _ => false end.
Definition isFile (s : Stats) : bool :=
  match st_kind s with File => true | _ => false end.
Definition isCharacterDevice (s : Stats) : bool :=
  match st_kind s with CharacterDevice => true | _ => false end.
Definition isBlockDevice (s : Stats) : bool :=
  match st_kind s with BlockDevice => true | _ => false end.
Definition isSymbolicLink (s : Stats) : bool :=
  match st_kind s with SymbolicLink => true | _ => false end.
Definition isSocket (s : Stats) : bool :=
  match st_kind s with Socket => true | _ => false end.
Definition isFIFO (s : Stats) : bool :=
  match st_kind s with FIFO => true | _ => false end.

(** What the engine and its collaborators throw.  The engine's own
    errors are plain [Error] objects told apart by their message; they
    are named after the error taxonomy of the specification. *)
Inductive exn : Type :=
| HostError (code : string)
    (* thrown by node:fs or by a helper, with its [code] *)
| AlreadyExists (dest : string)
    (* '${dest}' already exists *)
| SelfCopy (resolvedSrc resolvedDest : string)
    (* Cannot copy '${resolvedSrc}' to a subdirectory of itself, '${resolvedDest}'. *)
| OverwriteConflict (resolvedDest resolvedSrc : string)
    (* Cannot overwrite '${resolvedDest}' with '${resolvedSrc}'. *)
| CannotCopySocket (src : string)
| CannotCopyFIFO (src : string)
| UnknownFile (src : string).

(** [err.code]: the engine's own errors have none. *)
Definition exn_code (e : exn) : option string :=
  match e with
  | HostError c => Some c
  | _ => None
  end.

(** The options object.  [clobber] and [overwrite] are [None] when the
    key is absent ([!('clobber' in opts)]); the other flags are only
    tested for truthiness. *)
Record CopyOptions : Type := mkOptions {
  clobber : option bool;
  overwrite : option bool;
  errorOnExist : bool;
  preserveTimestamps : bool;
  dereference : bool;
  filter : option (string -> string -> bool)
}.

Definition truthy (b : option bool) : bool :=
  match b with Some true => true | _ => false end.

(** The third argument of [copySync]: nothing, an options object or a
    filter function. *)
Inductive opts_arg : Type :=
| NoOptions
| OptionsObject (o : CopyOptions)
| FilterFunction (f : string -> string -> bool).

(** The first lines of [copySync]: [opts] after the defaults. *)
Definition normalize (a : opts_arg) : CopyOptions :=
  let o := match a with
           | NoOptions => mkOptions None None false false false None
           | OptionsObject o => o
           | FilterFunction f => mkOptions None None false false false (Some f)
           end in
  let c := match clobber o with Some b => b | None => true end in
  let w := match overwrite o with Some b => b | None => c end in
  mkOptions (Some c) (Some w) (errorOnExist o) (preserveTimestamps o)
            (dereference o) (filter o).

(** [opts.filter && !opts.filter(src, dest)] *)
Definition filtered_out (opts : CopyOptions) (src dest : string) : bool :=
  match filter opts with
  | Some f => negb (f src dest)
  | None => false
  end.

(** ** The host: node:fs, node:path, [process.cwd()] and the helpers of
    this repository that the engine imports ([../util/stat.js],
    [../mkdirs.js], [../util/utimes.js]).  Reading operations return a
    value or throw; writing operations give the new state of the file
    system, or throw and say in which state. *)

Inductive res (FS A : Type) : Type :=
| Ret (a : A) (fs : FS)
| Throw (e : exn) (fs : FS)
| OutOfFuel.
Arguments Ret {FS A} a fs.
Arguments Throw {FS A} e fs.
Arguments OutOfFuel {FS A}.

Class Host (FS : Type) : Type := mkHost {
  statSync : string -> FS -> exn + Stats;
  lstatSync : string -> FS -> exn + Stats;
  existsSync : string -> FS -> bool;
  readlinkSync : string -> FS -> exn + string;
  (* [opendirSync] and the names that [readSync] gives until [null] *)
  opendirSync : string -> FS -> exn + list string;
  unlinkSync : string -> FS -> res FS unit;
  copyFileSync : string -> string -> FS -> res FS unit;
  chmodSync : string -> Z -> FS -> res FS unit;
  mkdirSync : string -> FS -> res FS unit;
  symlinkSync : string -> string -> FS -> res FS unit;
  path_join : string -> string -> string;
  path_dirname : string -> string;
  path_resolve : string -> string -> string;
  cwd : string;
  (* helpers of this repository that are not among the sources *)
  checkPathsSync : string -> string -> CopyOptions -> FS -> exn + (Stats * option Stats);
  checkParentPathsSync : string -> Stats -> string -> FS -> exn + unit;
  isSrcSubdir : string -> string -> bool;
  mkdirsSync : string -> FS -> res FS unit;
  utimesMillisSync : string -> Z -> Z -> FS -> res FS unit
}.

Section Engine.
Context {FS : Type} {H : Host FS}.

(** Computations of the engine: state passing with exceptions. *)
Definition M (A : Type) : Type := FS -> res FS A.

Definition ret {A : Type} (a : A) : M A := fun fs => Ret a fs.
Definition throw {A : Type} (e : exn) : M A := fun fs => Throw e fs.
Definition bind {A B : Type} (m : M A) (k : A -> M B) : M B :=
  fun fs =>
    match m fs with
    | Ret a fs' => k a fs'
    | Throw e fs' => Throw e fs'
    | OutOfFuel => OutOfFuel
    end.
Definition read {A : Type} (r : FS -> exn + A) : M A :=
  fun fs =>
    match r fs with
    | inr a => Ret a fs
    | inl e => Throw e fs
    end.

Notation "x <- m ;; k" := (bind m (fun x => k))
  (at level 61, m at next level, right associativity).
Notation "m ;;; k" := (bind m (fun _ => k))
  (at level 61, right associativity).

Definition setDestMode (dest : string) (srcMode : Z) : M unit :=
  chmodSync dest srcMode.

(** [(srcMode & 0o200) === 0] *)
Definition fileIsNotWritable (srcMode : Z) : bool :=
  Z.eqb (Js.js_bitand srcMode 128) 0.

(** [setDestMode(dest, srcMode | 0o200)] *)
Definition makeFileWritable (dest : string) (srcMode : Z) : M unit :=
  setDestMode dest (Js.js_bitor srcMode 128).

Definition setDestTimestamps (src dest : string) : M unit :=
  updatedSrcStat <- read (statSync src) ;;
  utimesMillisSync dest (atime updatedSrcStat) (mtime updatedSrcStat).

Definition handleTimestamps (srcMode : Z) (src dest : string) : M unit :=
  (if fileIsNotWritable srcMode then makeFileWritable dest srcMode else ret tt) ;;;
  setDestTimestamps src dest.

Definition copyFile (srcStat : Stats) (src dest : string) (opts : CopyOptions) : M unit :=
  copyFileSync src dest ;;;
  (if preserveTimestamps opts
   then handleTimestamps (mode srcStat) src dest else ret tt) ;;;
  setDestMode dest (mode srcStat).

Definition mayCopyFile (srcStat : Stats) (src dest : string) (opts : CopyOptions) : M unit :=
  if truthy (overwrite opts) then
    unlinkSync dest ;;; copyFile srcStat src dest opts
  else if errorOnExist opts then
    throw (AlreadyExists dest)
  else ret tt.

Definition onFile (srcStat : Stats) (destStat : option Stats)
    (src dest : string) (opts : CopyOptions) : M unit :=
  match destStat with
  | None => copyFile srcStat src dest opts
  | Some _ => mayCopyFile srcStat src dest opts
  end.

Definition copyLink (resolvedSrc dest : string) : M unit :=
  unlinkSync dest ;;; symlinkSync resolvedSrc dest.

Definition onLink (destStat : option Stats) (src dest : string)
    (opts : CopyOptions) : M unit :=
  target <- read (readlinkSync src) ;;
  let resolvedSrc :=
    if dereference opts then path_resolve cwd target else target in
  match destStat with
  | None => symlinkSync resolvedSrc dest
  | Some _ =>
      fun fs =>
        match readlinkSync dest fs with
        | inl err =>
            match exn_code err with
            | Some c =>
                if String.eqb c "EINVAL" || String.eqb c "UNKNOWN"
                then symlinkSync resolvedSrc dest fs
                else Throw err fs
            | None => Throw err fs
            end
        | inr target' =>
            let resolvedDest :=
              if dereference opts then path_resolve cwd target' else target' in
            if isSrcSubdir resolvedSrc resolvedDest then
              Throw (SelfCopy resolvedSrc resolvedDest) fs
            else if isSrcSubdir resolvedDest resolvedSrc then
              Throw (OverwriteConflict resolvedDest resolvedSrc) fs
            else copyLink resolvedSrc dest fs
        end
  end.

Section Recursion.
(** The [getStats] that [copyDirItem] calls back. *)
Variable getStats_rec :
  option Stats -> string -> string -> CopyOptions -> M unit.

Definition copyDirItem (item src dest : string) (opts : CopyOptions) : M unit :=
  let srcItem := path_join src item in
  let destItem := path_join dest item in
  if filtered_out opts srcItem destItem then ret tt
  else
    stats <- read (checkPathsSync srcItem destItem opts) ;;
    getStats_rec (snd stats) srcItem destItem opts.

(** The [while] loop of [copyDir] over the names that [readSync]
    returns. *)
Fixpoint copyDirItems (items : list string) (src dest : string)
    (opts : CopyOptions) : M unit :=
  match items with
  | nil => ret tt
  | item :: items' =>
      copyDirItem item src dest opts ;;;
      copyDirItems items' src dest opts
  end.

(** [dir.closeSync()] in the [finally] releases the handle and
    leaves the file system as it is. *)
Definition copyDir (src dest : string) (opts : CopyOptions) : M unit :=
  items <- read (opendirSync src) ;;
  copyDirItems items src dest opts.

Definition mkDirAndCopy (srcMode : Z) (src dest : string)
    (opts : CopyOptions) : M unit :=
  mkdirSync dest ;;;
  copyDir src dest opts ;;;
  setDestMode dest srcMode.

Definition onDir (srcStat : Stats) (destStat : option Stats)
    (src dest : string) (opts : CopyOptions) : M unit :=
  match destStat with
  | None => mkDirAndCopy (mode srcStat) src dest opts
  | Some _ => copyDir src dest opts
  end.

(** The body of [getStats]. *)
Definition getStats_body (destStat : option Stats) (src dest : string)
    (opts : CopyOptions) : M unit :=
  srcStat <- read ((if dereference opts then statSync else lstatSync) src) ;;
  if isDirectory srcStat then onDir srcStat destStat src dest opts
  else if isFile srcStat || isCharacterDevice srcStat || isBlockDevice srcStat
  then onFile srcStat destStat src dest opts
  else if isSymbolicLink srcStat then onLink destStat src dest opts
  else if isSocket srcStat then throw (CannotCopySocket src)
  else if isFIFO srcStat then throw (CannotCopyFIFO src)
  else throw (UnknownFile src).
End Recursion.

(** [getStats], with a bound on the depth of the calls from
    [copyDirItem]. *)
Fixpoint getStats (fuel : nat) (destStat : option Stats) (src dest : string)
    (opts : CopyOptions) : M unit :=
  match fuel with
  | O => fun _ => OutOfFuel
  | S fuel' => getStats_body (getStats fuel') destStat src dest opts
  end.

(** [copySync].  The warning about [preserveTimestamps] on ia32 goes
    to the process, not to the file system, and is left out. *)
Definition copySync (fuel : nat) (src dest : string) (a : opts_arg) : M unit :=
  let opts := normalize a in
  stats <- read (checkPathsSync src dest opts) ;;
  read (checkParentPathsSync src (fst stats) dest) ;;;
  if filtered_out opts src dest then ret tt
  else
    let destParent := path_dirname dest in
    (fun fs => if existsSync destParent fs then Ret tt fs
               else mkdirsSync destParent fs) ;;;
    getStats fuel (snd stats) src dest opts.

End Engine.

End CopySync.

(* ===================================================================== *)
(** * A file system in memory, to run the copy engine on *)
(* ===================================================================== *)

Module MemFs.
Import CopySync.
Local Open Scope string_scope.
Local Open Scope Z_scope.

(** An entry: its type, permission bits, bytes (for a file), target (for
    a link) and times. *)
Record node : Type := mkNode {
  n_kind : kind;
  n_mode : Z;
  n_data : string;
  n_target : string;
  n_atime : Z;
  n_mtime : Z
}.

(** The entries by absolute path, in directory-listing order. *)
Definition memfs : Type := list (string * node).

Fixpoint lookup (p : string) (fs : memfs) : option node :=
  match fs with
  | nil => None
  | (q, n) :: fs' => if String.eqb p q then Some n else lookup p fs'
  end.

Fixpoint remove (p : string) (fs : memfs) : memfs :=
  match fs with
  | nil => nil
  | (q, n) :: fs' => if String.eqb p q then remove p fs' else (q, n) :: remove p fs'
  end.

(** Replacing the entry at [p] where it stands, or adding it last. *)
Fixpoint update (p : string) (n : node) (fs : memfs) : memfs :=
  match fs with
  | nil => [(p, n)]
  | (q, m) :: fs' =>
      if String.eqb p q then (q, n) :: fs' else (q, m) :: update p n fs'
  end.

Definition stats_of (n : node) : Stats :=
  mkStats (n_kind n) (n_mode n) (n_atime n) (n_mtime n).

Definition enoent {A : Type} : exn + A := inl (HostError "ENOENT").

Definition mem_lstat (p : string) (fs : memfs) : exn + Stats :=
  match lookup p fs with
  | Some n => inr (stats_of n)
  | None => enoent
  end.

(** [statSync] follows a link once. *)
Definition mem_stat (p : string) (fs : memfs) : exn + Stats :=
  match lookup p fs with
  | Some n =>
      match n_kind n with
      | SymbolicLink => mem_lstat (n_target n) fs
      | _ => inr (stats_of n)
      end
  | None => enoent
  end.

Definition mem_exists (p : string) (fs : memfs) : bool :=
  match lookup p fs with Some _ => true | None => false end.

Definition mem_readlink (p : string) (fs : memfs) : exn + string :=
  match lookup p fs with
  | Some n =>
      match n_kind n with
      | SymbolicLink => inr (n_target n)
      | _ => inl (HostError "EINVAL")
      end
  | None => enoent
  end.

(** The components of a path, empty ones dropped. *)
Fixpoint components_from (cur : string) (p : string) : list string :=
  match p with
  | EmptyString => if String.eqb cur "" then nil else [cur]
  | String c p' =>
      if Ascii.eqb c "/"%char
      then (if String.eqb cur "" then nil else [cur]) ++ components_from "" p'
      else components_from (cur ++ String c EmptyString) p'
  end.

Definition components (p : string) : list string := components_from "" p.

Fixpoint is_prefix (l1 l2 : list string) : bool :=
  match l1, l2 with
  | nil, _ => true
  | x :: l1', y :: l2' => String.eqb x y && is_prefix l1' l2'
  | _ :: _, nil => false
  end.

Definition mem_join (a b : string) : string := a ++ "/" ++ b.

Definition absolute (l : list string) : string :=
  fold_left (fun acc c => acc ++ "/" ++ c) l "".

Definition mem_dirname (p : string) : string :=
  match removelast (components p) with
  | nil => "/"
  | l => absolute l
  end.

Definition mem_resolve (base p : string) : string :=
  match p with
  | String c _ =>
      if Ascii.eqb c "/"%char then absolute (components p)
      else absolute (components base ++ components p)
  | EmptyString => absolute (components base)
  end.

(** The name of [q] when it is an entry of the directory [p]. *)
Definition child_name (p q : string) : option string :=
  match rev (components q) with
  | name :: parent =>
      if list_eq_dec string_dec (rev parent) (components p)
      then Some name else None
  | nil => None
  end.

Definition mem_opendir (p : string) (fs : memfs) : exn + list string :=
  match lookup p fs with
  | Some n =>
      match n_kind n with
      | Directory =>
          inr (flat_map (fun e => match child_name p (fst e) with
                                  | Some name => [name]
                                  | None => nil
                                  end) fs)
      | _ => inl (HostError "ENOTDIR")
      end
  | None => enoent
  end.

Definition mem_unlink (p : string) (fs : memfs) : res memfs unit :=
  match lookup p fs with
  | Some n =>
      match n_kind n with
      | Directory => Throw (HostError "EISDIR") fs
      | _ => Ret tt (remove p fs)
      end
  | None => Throw (HostError "ENOENT") fs
  end.

Definition mem_copyFile (src dest : string) (fs : memfs) : res memfs unit :=
  match lookup src fs with
  | Some n =>
      match n_kind n with
      | Directory => Throw (HostError "EISDIR") fs
      | _ => Ret tt (update dest (mkNode File (n_mode n) (n_data n) "" 0 0) fs)
      end
  | None => Throw (HostError "ENOENT") fs
  end.

Definition mem_chmod (p : string) (m : Z) (fs : memfs) : res memfs unit :=
  match lookup p fs with
  | Some n =>
      Ret tt (update p (mkNode (n_kind n) m (n_data n) (n_target n)
                               (n_atime n) (n_mtime n)) fs)
  | None => Throw (HostError "ENOENT") fs
  end.

Definition mem_utimes (p : string) (a m : Z) (fs : memfs) : res memfs unit :=
  match lookup p fs with
  | Some n =>
      Ret tt (update p (mkNode (n_kind n) (n_mode n) (n_data n) (n_target n) a m) fs)
  | None => Throw (HostError "ENOENT") fs
  end.

Definition directory : node := mkNode Directory 493 "" "" 0 0.

Definition mem_mkdir (p : string) (fs : memfs) : res memfs unit :=
  match lookup p fs with
  | Some _ => Throw (HostError "EEXIST") fs
  | None => Ret tt (update p directory fs)
  end.

Definition mem_symlink (target p : string) (fs : memfs) : res memfs unit :=
  match lookup p fs with
  | Some _ => Throw (HostError "EEXIST") fs
  | None => Ret tt (update p (mkNode SymbolicLink 511 "" target 0 0) fs)
  end.

(** Modelled from the spec: [isSrcSubdir] of [../util/stat.js], the
    path-containment collaborator: the second path is the first one or
    lies beneath it. *)
Definition mem_isSrcSubdir (src dest : string) : bool :=
  is_prefix (components src) (components dest).

(** Modelled from the spec: [checkPathsSync] of [../util/stat.js]:
    both paths are stat'ed (the destination may be absent), and the
    copy is refused when they are the same path or when the destination
    lies inside the source directory. *)
Definition mem_checkPaths (src dest : string) (opts : CopyOptions)
    (fs : memfs) : exn + (Stats * option Stats) :=
  let statFn := if dereference opts then mem_stat else mem_lstat in
  match statFn src fs with
  | inl e => inl e
  | inr srcStat =>
      let destStat := match statFn dest fs with
                      | inr d => Some d
                      | inl _ => None
                      end in
      if String.eqb src dest then inl (HostError "ERR_FS_CP_EINVAL")
      else if isDirectory srcStat && mem_isSrcSubdir src dest
      then inl (HostError "ERR_FS_CP_EINVAL")
      else inr (srcStat, destStat)
  end.

(** Modelled from the spec: [checkParentPathsSync] of
    [../util/stat.js]; with paths as the only identity of an entry the
    check made by [mem_checkPaths] leaves it nothing to refuse. *)
Definition mem_checkParentPaths (src : string) (srcStat : Stats)
    (dest : string) (fs : memfs) : exn + unit :=
  inr tt.

(** Modelled from the spec: [mkdirsSync] of [../mkdirs.js], the
    "ensure path exists" helper: the directory and its missing
    ancestors are created. *)
Definition mem_mkdirs (p : string) (fs : memfs) : res memfs unit :=
  Ret tt
    (snd (fold_left
            (fun (acc : string * memfs) c =>
               let q := fst acc ++ "/" ++ c in
               (q, if mem_exists q (snd acc) then snd acc
                   else update q directory (snd acc)))
            (components p) ("", fs))).

#[export] Instance mem_host : Host memfs :=
  @mkHost memfs mem_stat mem_lstat mem_exists mem_readlink mem_opendir
         mem_unlink mem_copyFile mem_chmod mem_mkdir mem_symlink
         mem_join mem_dirname mem_resolve "/"
         mem_checkPaths mem_checkParentPaths mem_isSrcSubdir
         mem_mkdirs mem_utimes.

(** ** Sample trees *)

Definition file (m : Z) (data : string) : node := mkNode File m data "" 7 9.
Definition link (target : string) : node := mkNode SymbolicLink 511 "" target 0 0.

(** [a/{f1.txt, sub/f2.txt}] next to an empty [b]. *)
Definition tree : memfs :=
  [("/a", directory); ("/a/f1.txt", file 420 "one");
   ("/a/sub", directory); ("/a/sub/f2.txt", file 384 "two");
   ("/b", directory)].

(** A source file and a destination file that exists already. *)
Definition two_files : memfs :=
  [("/src.txt", file 420 "new"); ("/dest.txt", file 384 "old")].

(** A source link and a destination link that exists already. *)
Definition two_links : memfs :=
  [("/l1", link "/data/x"); ("/l2", link "/other/y")].

Definition no_overwrite : CopyOptions :=
  mkOptions (Some false) (Some false) true false false None.

Definition defaults : CopyOptions := normalize NoOptions.

Definition skip_sub (src dest : string) : bool :=
  negb (String.eqb src "/a/sub").

End MemFs.

(* ===================================================================== *)
(** * The retry queue: what every reachable state satisfies *)
(* ===================================================================== *)

Module RetryQueueInv.
Import Js RetryQueue.
Local Open Scope nat_scope.
Local Open Scope list_scope.

(** A queued entry belongs to a call that was made, carries the captured
    arguments of that call followed by its callback, and an EMFILE or
    ENFILE error. *)
Definition entry_ok (cls : list closure) (e : entry) : Prop :=
  exists cl, nth_error cls (fn e) = Some cl /\
    args e = c_args cl ++ [c_cb cl] /\
    is_exhaustion (err e) = true.

(** An operation in flight belongs to a call that was made. *)
Definition pending_ok (cls : list closure) (p : pending) : Prop :=
  p_call p < List.length cls.

(** A callback invocation is one of the callback that the call was made
    with. *)
Definition output_ok (cls : list closure) (o : output) : Prop :=
  option_map c_cb (nth_error cls (o_call o)) = Some (VFun (o_cb o)).

Record consistent (w : world) : Prop := mkConsistent {
  co_queue : Forall (entry_ok (closures w)) (queue w);
  co_inflight : Forall (pending_ok (closures w)) (inflight w);
  co_outputs : Forall (output_ok (closures w)) (outputs w)
}.

(** A call made with a callback is in exactly one place. *)
Definition none_lost (w : world) : Prop :=
  forall c f, callback_of c w = Some (VFun f) -> tokens c w = 1.

(** The invariant of the reachable states. *)
Definition inv (w : world) : Prop :=
  wf w /\ consistent w /\ none_lost w /\ (queue w <> [] -> retryTimer w = true).

(** The invocation that abandoning the entry [e] makes, if its last
    argument is a function. *)
Definition abandon_output (e : entry) : list output :=
  match last (args e) VUndef with
  | VFun f => [mkOutput (fn e) f (Some (err e)) []]
  | _ => []
  end.

(** The entry that the run [not_due_events] leaves in the queue. *)
Definition not_due_entry : entry :=
  mkEntry 0 [VStr "/tmp/x"; VFun 7] (emfile 0) (VNum 1000000) (VNum 1000000).

(** A backlog of two entries that are past their deadline at every
    reading of the clock. *)
Definition stale_world : world :=
  mkWorld
    [mkEntry 0 [VStr "/tmp/x"; VFun 7] (emfile 0) (VNum 0) (VNum 10);
     mkEntry 1 [VStr "/tmp/y"; VUndef] (emfile 1) (VNum 5) (VNum 20)]
    false
    [mkClosure [VStr "/tmp/x"] (VFun 7); mkClosure [VStr "/tmp/y"] VUndef]
    [] [] 0.

Definition stale_clock (k : nat) : Z := (70000 + Z.of_nat k)%Z.

End RetryQueueInv.

(* ===================================================================== *)
(** * The retries of [read], [readSync] and [rename] in [patchFs]
      (gracefull-fs.mjs, lines 245-296) *)
(* ===================================================================== *)

Module IoRetry.
Import Js.
Local Open Scope nat_scope.

(** [err?.code === 'EAGAIN'] *)
Definition is_eagain (e : option error) : bool :=
  match e with
  | Some x => String.eqb (code x) "EAGAIN"
  | None => false
  end.

(** [statErr?.code === 'ENOENT'] *)
Definition is_enoent (e : option error) : bool :=
  match e with
  | Some x => String.eqb (code x) "ENOENT"
  | None => false
  end.

(** What the caller's callback receives, and how many calls of the
    underlying operation were made. *)
Record completion : Type := mkCompletion {
  c_err : option error;
  c_res : list value;
  c_calls : nat
}.

Section Read.
(** [origRead k] is what the [k]-th call of the underlying [read]
    (counted from 0) completes with: [(err, ...res)]. *)
Variable origRead : nat -> option error * list value.

(** [retryingCb], invoked with the completion of the call number [k]
    while the counter [attempts] has the given value;
    [attempts++ < 10] compares the value before the increment.  [None]
    when more than [fuel] further calls would be needed. *)
Fixpoint retryingCb (fuel k attempts : nat) : option completion :=
  if is_eagain (fst (origRead k)) then
    if attempts <? 10 then
      match fuel with
      | O => None
      | S fuel' => retryingCb fuel' (S k) (S attempts)
      end
    else Some (mkCompletion (fst (origRead k)) (snd (origRead k)) (S k))
  else Some (mkCompletion (fst (origRead k)) (snd (origRead k)) (S k)).

(** The patched [fs.read]. *)
Definition read (fuel : nat) : option completion := retryingCb fuel 0 0.
End Read.

(** What the patched [readSync] returns or throws, and how many calls of
    the underlying operation were made. *)
Record sync_result : Type := mkSync {
  s_result : error + value;
  s_calls : nat
}.

Section ReadSync.
(** [origReadSync k] is what the [k]-th call of the underlying
    [readSync] returns ([inr]) or throws ([inl]). *)
Variable origReadSync : nat -> error + value.

(** The [while (true)] loop of the patched [readSync], entered for the
    call number [k]. *)
Fixpoint readSync_loop (fuel k attempts : nat) : option sync_result :=
  match origReadSync k with
  | inr v => Some (mkSync (inr v) (S k))
  | inl err =>
      if String.eqb (code err) "EAGAIN" then
        if attempts <? 10 then
          match fuel with
          | O => None
          | S fuel' => readSync_loop fuel' (S k) (S attempts)
          end
        else Some (mkSync (inl err) (S k))
      else Some (mkSync (inl err) (S k))
  end.

Definition readSync (fuel : nat) : option sync_result := readSync_loop fuel 0 0.
End ReadSync.

(** What the callback of the patched [rename] receives, the delays of
    the timers that were set, in order, and the number of calls of the
    underlying [rename]. *)
Record rename_result : Type := mkRename {
  r_err : option error;
  r_delays : list Z;
  r_renames : nat
}.

Section Rename.
Local Open Scope Z_scope.
(** [clock k] is the [k]-th reading of [Date.now()] (the first one is
    [start]); [origRename k] is the error, if any, of the [k]-th call of
    the underlying [rename]; [stat_to k] is the error, if any, of the
    [k]-th [fs.stat(to)]. *)
Variable clock : nat -> Z.
Variable origRename : nat -> option error.
Variable stat_to : nat -> option error.

(** [retry], invoked with the completion of the rename number [k] while
    [backoff] has the given value.  Every earlier invocation had an
    error and read the clock once, so this one reads [clock (S k)]. *)
Fixpoint retry (fuel : nat) (k : nat) (backoff : Z) (delays : list Z)
    : option rename_result :=
  match origRename k with
  | None => Some (mkRename None delays (S k))
  | Some err =>
      if clock (S k) - clock 0 >=? 60000 then
        Some (mkRename (Some err) delays (S k))
      else
        (* setTimeout(..., backoff); backoff = Math.min(backoff + 10, 100) *)
        if is_enoent (stat_to k) then
          match fuel with
          | O => None
          | S fuel' =>
              retry fuel' (S k) (Z.min (backoff + 10) 100) (delays ++ [backoff])
          end
        else Some (mkRename (Some err) (delays ++ [backoff]) (S k))
  end.

(** The [fs.rename] installed when [platform === 'win32']. *)
Definition rename (fuel : nat) : option rename_result := retry fuel 0 0 [].
End Rename.

(** ** Sample operations *)

Definition eagain : error := mkError "EAGAIN" 0.
Definition ebusy : error := mkError "EBUSY" 1.
Definition enoent_error : error := mkError "ENOENT" 2.

(** A read that is interrupted three times. *)
Definition flaky_read (k : nat) : option error * list value :=
  if k <? 3 then (Some eagain, []) else (None, [VNum 42]).

Definition flaky_readSync (k : nat) : error + value :=
  if k <? 3 then inl eagain else inr (VNum 42).

(** A rename that fails with EBUSY at every call, a destination that
    never exists, and a clock that advances by 20 s per reading. *)
Definition busy_rename (k : nat) : option error := Some ebusy.
Definition absent_to (k : nat) : option error := Some enoent_error.
Definition slow_clock (k : nat) : Z := (20000 * Z.of_nat k)%Z.

End IoRetry.

(* ===================================================================== *)
(** * The adapters between the callback and the promise conventions *)
(* ===================================================================== *)

Module Adapter.
Import Js.

Section Conventions.
(** What running a call amounts to. *)
Variable R : Type.

(** A completion callback [(err, done) => ...]. *)
Definition node_callback : Type := option error -> value -> R.

(** An argument: a value that is not a function, or a function, which in
    the last position is the completion callback. *)
Inductive arg : Type :=
| Val (v : value)
| Fun (k : node_callback).

(** A promise, by what [.then(onFulfilled, onRejected)] runs: the
    handler is given the value ([inr]) or the reason ([inl]). *)
Definition promise : Type := (error + value -> R) -> R.

(** What a call of an adapted function gives: nothing (the call ran and
    returned [undefined]) or a promise. *)
Inductive outcome : Type :=
| Returned (r : R)
| Promised (p : promise).

(** [typeof args.at(-1) === 'function'] *)
Definition trailing_callback (args : list arg) : option node_callback :=
  match last args (Val VUndef) with
  | Fun k => Some k
  | Val _ => None
  end.

(** [fromCallback(fn)]: [fn] takes its arguments with the callback
    last. *)
Definition fromCallback (fn : list arg -> R) (args : list arg) : outcome :=
  match trailing_callback args with
  | Some _ => Returned (fn args)
  | None =>
      Promised (fun settle =>
        fn (args ++ [Fun (fun err done =>
                            match err with
                            | Some e => settle (inl e)
                            | None => settle (inr done)
                            end)]))
  end.

(** [fromPromise(fn)]: [fn] takes its arguments and returns a promise. *)
Definition fromPromise (fn : list arg -> promise) (args : list arg) : outcome :=
  match trailing_callback args with
  | None => Promised (fn args)
  | Some cb =>
      Returned (fn (removelast args)
                  (fun o =>
                     match o with
                     | inr r => cb None r
                     | inl e => cb (Some e) VUndef
                     end))
  end.
(** Calling an adapted function for what it does, dropping what it
    returns; [nothing] is a call that runs nothing. *)
Definition run_call (nothing : R) (f : list arg -> outcome) (args : list arg) : R :=
  match f args with
  | Returned r => r
  | Promised _ => nothing
  end.
End Conventions.

Arguments run_call {R} nothing f args.
Arguments Val {R} v.
Arguments Fun {R} k.
Arguments Returned {R} r.
Arguments Promised {R} p.
Arguments trailing_callback {R} args.
Arguments fromCallback {R} fn args.
Arguments fromPromise {R} fn args.

(** ** A sample callback-style function: it completes with the length of
    its argument list, or with an error when it has no argument. *)
Definition observed : Type := option (option error * value).

Definition einval : error := mkError "EINVAL" 4.

Definition count_args (args : list (arg observed)) : observed :=
  match trailing_callback args with
  | Some k =>
      match removelast args with
      | [] => k (Some einval) VUndef
      | l => k None (VNum (Z.of_nat (List.length l)))
      end
  | None => None
  end.

End Adapter.

(* ===================================================================== *)
(** * More sample inputs for the fixes and the copy engine *)
(* ===================================================================== *)

Module Samples.
Import Js.
Local Open Scope string_scope.
Local Open Scope Z_scope.

(** An [fs] object like [MetadataFix.sample_fs] but without [lchmod] and
    with an [lchmodSync] that throws. *)
Definition no_lchmod_fs : MetadataFix.fsmodule MetadataFix.seen :=
  MetadataFix.mkFs
    (fun _ => Some MetadataFix.sample_chown)
    (fun n => match n with
              | MetadataFix.lchmod => None
              | _ => Some MetadataFix.sample_chmod
              end)
    (fun _ => Some MetadataFix.sample_chownSync)
    (fun _ => Some MetadataFix.sample_chmodSync)
    (fun _ => Some MetadataFix.sample_stat)
    (fun _ => Some MetadataFix.sample_statSync).

(** An [fs] object whose stat operations report identifiers far beyond
    2^53 in magnitude. *)
Definition huge_stats : MetadataFix.IdStats :=
  MetadataFix.mkIdStats (- 2 ^ 90) (- 2 ^ 90) [("mode"%string, 420)].

Definition huge_fs : MetadataFix.fsmodule MetadataFix.seen :=
  MetadataFix.mkFs
    (fun _ => Some MetadataFix.sample_chown)
    (fun _ => Some MetadataFix.sample_chmod)
    (fun _ => Some MetadataFix.sample_chownSync)
    (fun _ => Some MetadataFix.sample_chmodSync)
    (fun _ => Some (fun _ _ cb =>
                      MetadataFix.call_opt MetadataFix.NoCall cb None
                        (Some huge_stats)))
    (fun _ => Some (fun _ _ => inr (Some huge_stats))).

(** A socket, a pipe and a link whose copy runs into a destination that
    is a regular file. *)
Definition odd_entries : MemFs.memfs :=
  [("/sock", MemFs.mkNode CopySync.Socket 420 "" "" 0 0);
   ("/pipe", MemFs.mkNode CopySync.FIFO 420 "" "" 0 0);
   ("/l1", MemFs.link "/data/x");
   ("/plain", MemFs.file 420 "text")].

(** A filter that rejects everything. *)
Definition reject_all (src dest : string) : bool := false.

Definition reject_all_options : CopySync.CopyOptions :=
  CopySync.normalize (CopySync.FilterFunction reject_all).

End Samples.

(* ===================================================================== *)
(** * Results on integral Numbers *)
(* ===================================================================== *)

Module JsFacts.
Import Js.
Local Open Scope Z_scope.

(** Sums of magnitude up to 2^53 are exact. *)
Lemma js_add_int_exact a b :
  Z.abs (a + b) <= 2 ^ 53 -> js_add_int a b = a + b.
Proof.
  intros H. unfold js_add_int, nearest_double.
  apply Z.leb_le in H. now rewrite H.
Qed.

(** Adding 2^32 to [-2^90] gives [-2^90] again. *)
Example js_add_int_absorbs : js_add_int (- 2 ^ 90) (2 ^ 32) = - 2 ^ 90.
Proof. vm_compute. reflexivity. Qed.

(** Just above 2^53 only the even integers are Numbers; an odd one goes
    to the neighbour with the even significand. *)
Example nearest_double_ties :
  nearest_double (2 ^ 53 + 1) = 2 ^ 53 /\
  nearest_double (2 ^ 53 + 2) = 2 ^ 53 + 2 /\
  nearest_double (2 ^ 53 + 3) = 2 ^ 53 + 4.
Proof. vm_compute. auto. Qed.

Lemma ToInt32_range z : - 2 ^ 31 <= ToInt32 z < 2 ^ 31.
Proof.
  unfold ToInt32.
  pose proof (Z.mod_pos_bound z (2 ^ 32) eq_refl) as Hm.
  change (2 ^ 32) with 4294967296 in *. change (2 ^ 31) with 2147483648 in *.
  destruct (Z.ltb_spec (z mod 4294967296) 2147483648); lia.
Qed.

Lemma ToInt32_small z : - 2 ^ 31 <= z < 2 ^ 31 -> ToInt32 z = z.
Proof.
  intros H. unfold ToInt32.
  change (2 ^ 32) with 4294967296 in *. change (2 ^ 31) with 2147483648 in *.
  destruct (Z.ltb_spec z 0).
  - assert (E : z mod 4294967296 = z + 4294967296)
      by (symmetry; apply (Z.mod_unique_pos _ _ (-1)); lia).
    rewrite E. destruct (Z.ltb_spec (z + 4294967296) 2147483648); lia.
  - rewrite Z.mod_small by lia.
    destruct (Z.ltb_spec z 2147483648); lia.
Qed.

(** ToInt32 keeps the 32 low bits. *)
Lemma ToInt32_testbit z i :
  0 <= i < 32 -> Z.testbit (ToInt32 z) i = Z.testbit z i.
Proof.
  intros Hi.
  assert (Hlow : forall x, Z.testbit (x mod 2 ^ 32) i = Z.testbit x i)
    by (intros x; apply Z.mod_pow2_bits_low; lia).
  unfold ToInt32. destruct (z mod 2 ^ 32 <? 2 ^ 31); [apply Hlow|].
  rewrite <- (Hlow (z mod 2 ^ 32 - 2 ^ 32)).
  replace (z mod 2 ^ 32 - 2 ^ 32) with (z mod 2 ^ 32 + (-1) * 2 ^ 32) by ring.
  rewrite Z.mod_add by discriminate.
  rewrite Z.mod_mod by discriminate. apply Hlow.
Qed.

Lemma js_bitor_testbit a b i :
  0 <= i < 32 ->
  Z.testbit (js_bitor a b) i = Z.testbit a i || Z.testbit b i.
Proof.
  intros Hi. unfold js_bitor.
  now rewrite ToInt32_testbit, Z.lor_spec, !ToInt32_testbit.
Qed.

Lemma js_bitand_testbit a b i :
  0 <= i < 32 ->
  Z.testbit (js_bitand a b) i = Z.testbit a i && Z.testbit b i.
Proof.
  intros Hi. unfold js_bitand.
  now rewrite ToInt32_testbit, Z.land_spec, !ToInt32_testbit.
Qed.

Lemma testbit_128 i : Z.testbit 128 i = Z.eqb i 7.
Proof.
  change 128 with (2 ^ 7). destruct (Z.eqb_spec i 7) as [->|Hne].
  - apply Z.pow2_bits_true. lia.
  - destruct (Z.ltb_spec i 0).
    + now apply Z.testbit_neg_r.
    + apply Z.pow2_bits_false. lia.
Qed.

(** [(m & 0o200) === 0] exactly when bit 7 of [m] is clear. *)
Lemma js_bitand_128 m :
  (js_bitand m 128 =? 0) = negb (Z.testbit m 7).
Proof.
  destruct (Z.testbit m 7) eqn:E; cbn [negb].
  - apply Z.eqb_neq. intros H0.
    assert (Hb : Z.testbit (js_bitand m 128) 7 = true)
      by (rewrite js_bitand_testbit, E by lia; reflexivity).
    rewrite H0 in Hb. now rewrite Z.bits_0 in Hb.
  - apply Z.eqb_eq. unfold js_bitand.
    assert (Hl : Z.land (ToInt32 m) (ToInt32 128) = 0).
    { apply Z.bits_inj'. intros i Hi. rewrite Z.land_spec, Z.bits_0.
      change (ToInt32 128) with 128. rewrite testbit_128.
      destruct (Z.eqb_spec i 7) as [->|]; [|apply andb_false_r].
      rewrite ToInt32_testbit, E by lia. reflexivity. }
    rewrite Hl. reflexivity.
Qed.

End JsFacts.

(* ===================================================================== *)
(** * Results on the retry queue *)
(* ===================================================================== *)

Module RetryQueueFacts.
Import Js RetryQueue.
Local Open Scope list_scope.
Local Open Scope nat_scope.

Lemma count_app {A : Type} (f : A -> bool) (l1 l2 : list A) :
  List.length (filter f (l1 ++ l2)) =
  List.length (filter f l1) + List.length (filter f l2).
Proof. now rewrite filter_app, length_app. Qed.

Lemma count_one {A : Type} (f : A -> bool) (x : A) :
  List.length (filter f [x]) = if f x then 1 else 0.
Proof. cbn. now destruct (f x). Qed.

Lemma count_remove_nth {A : Type} (f : A -> bool) (l : list A) :
  forall i x, nth_error l i = Some x ->
    List.length (filter f (remove_nth i l)) + (if f x then 1 else 0) =
    List.length (filter f l).
Proof.
  induction l as [|y l IH]; intros [|i] x H; cbn in H; try discriminate.
  - injection H as ->. cbn. destruct (f x); cbn; lia.
  - specialize (IH _ _ H). cbn. destruct (f y); cbn; lia.
Qed.

Ltac fields := unfold tokens, queued, flying, outputs_of in *; cbn in *.

Section Steps.
Variable clock : nat -> Z.
Variable StringToNumber : string -> number.

Lemma default_now_ticks v w :
  same_but_ticks w (snd (default_now clock v w)).
Proof. destruct v; cbn; repeat split. Qed.

Lemma same_but_ticks_trans w1 w2 w3 :
  same_but_ticks w1 w2 -> same_but_ticks w2 w3 -> same_but_ticks w1 w3.
Proof.
  unfold same_but_ticks. intros (a & b & c & d & e) (a' & b' & c' & d' & e').
  repeat split; congruence.
Qed.

Lemma same_but_ticks_touches k w w' :
  same_but_ticks w w' -> only_touches k w w'.
Proof.
  intros (a & b & c & d & e). split; fields; rewrite ?a, ?d, ?e; auto; lia.
Qed.

Lemma only_touches_trans k w1 w2 w3 :
  same_but_ticks w1 w2 -> only_touches k w2 w3 -> only_touches k w1 w3.
Proof.
  intros (a & b & c & d & e) [H1 H2 H3]. split.
  - congruence.
  - intros c0 Hc. destruct (H2 c0 Hc) as (x & y & z).
    fields. rewrite x, y, z, a, d, e. auto.
  - fields. rewrite a, d, e in H3. exact H3.
Qed.

Lemma call_cb_touches k cb e r w :
  only_touches k w (call_cb k cb e r w).
Proof.
  destruct cb; cbn; try solve [apply same_but_ticks_touches; repeat split].
  split; fields; auto.
  - intros c Hc. repeat split. rewrite filter_app. cbn.
    destruct (Nat.eqb_spec k c); [congruence|]. now rewrite app_nil_r.
  - rewrite filter_app, length_app. cbn. rewrite Nat.eqb_refl. cbn. lia.
Qed.

Lemma attempt_touches k l w :
  only_touches k w (attempt clock k l w).
Proof.
  unfold attempt.
  pose proof (default_now_ticks (hd VUndef l) w) as Hs.
  destruct (default_now clock (hd VUndef l) w) as [st w1]. cbn in Hs.
  eapply only_touches_trans; [exact Hs|].
  split; fields; auto.
  - intros c Hc. rewrite count_app, count_one. cbn.
    destruct (Nat.eqb_spec k c); [congruence|]. repeat split; lia.
  - rewrite count_app, count_one. cbn. rewrite Nat.eqb_refl. lia.
Qed.

Lemma push_touches e w :
  only_touches (fn e) w (set_queue (queue w ++ [e]) w).
Proof.
  split; fields; auto.
  - intros c Hc. rewrite count_app, count_one.
    destruct (Nat.eqb_spec (fn e) c); [congruence|]. repeat split; lia.
  - rewrite count_app, count_one. rewrite Nat.eqb_refl. lia.
Qed.

Lemma retryQueue_body_touches e w :
  only_touches (fn e) w (retryQueue_body clock StringToNumber e w).
Proof.
  unfold retryQueue_body.
  pose proof (default_now_ticks (startTime e) w) as H1.
  destruct (default_now clock (startTime e) w) as [st w1]. cbn in H1.
  pose proof (default_now_ticks (lastTime e) w1) as H2.
  destruct (default_now clock (lastTime e) w1) as [lt w2]. cbn in H2.
  unfold Date_now.
  set (w3 := set_ticks (S (ticks w2)) w2). set (now := clock (ticks w2)).
  assert (H3 : same_but_ticks w w3).
  { eapply same_but_ticks_trans; [exact H1|].
    eapply same_but_ticks_trans; [exact H2|]. repeat split. }
  clearbody w3 now.
  eapply only_touches_trans; [exact H3|].
  destruct (timed_out _ _ _); [apply call_cb_touches|].
  destruct (is_due _ _ _ _); [apply attempt_touches|].
  apply (push_touches (mkEntry (fn e) (args e) (err e) st (VNum now))).
Qed.


Lemma keeps_refl c w : keeps c w w.
Proof. split; auto. Qed.

Lemma keeps_trans c w1 w2 w3 : keeps c w1 w2 -> keeps c w2 w3 -> keeps c w1 w3.
Proof.
  intros [a b] [a' b']. split; [lia|].
  intros q f. destruct (b q f) as (x & y & z).
  destruct (b' x y) as (x' & y' & z'). repeat split; congruence.
Qed.

Lemma keeps_same_but_ticks c w w' : same_but_ticks w w' -> keeps c w w'.
Proof.
  intros (a & b & d & e & f). split; fields; rewrite ?a, ?e, ?f; auto.
Qed.

Lemma shift_keeps c e q w w' :
  queue w = e :: q ->
  only_touches (fn e) (set_queue q w) w' ->
  keeps c w w'.
Proof.
  intros Hq [H1 H2 H3]. destruct (Nat.eq_dec c (fn e)) as [->|Hne].
  - split.
    + fields. rewrite Hq. cbn. rewrite Nat.eqb_refl. cbn. lia.
    + fields. rewrite Hq. cbn. rewrite Nat.eqb_refl. cbn. discriminate.
  - destruct (H2 c Hne) as (x & y & z).
    assert (Hf : queued c (set_queue q w) = queued c w).
    { fields. rewrite Hq. cbn.
      destruct (Nat.eqb_spec (fn e) c); [congruence|reflexivity]. }
    split.
    + unfold tokens. rewrite x, y, z, Hf. fields. lia.
    + intros a b. rewrite x, y, z, Hf. auto.
Qed.

Lemma land_keeps c i p w w' :
  nth_error (inflight w) i = Some p ->
  only_touches (p_call p) (set_inflight (remove_nth i (inflight w)) w) w' ->
  keeps c w w'.
Proof.
  intros Hp [H1 H2 H3].
  pose proof (count_remove_nth (fun p0 => Nat.eqb (p_call p0) c) _ _ _ Hp) as Hr.
  destruct (Nat.eq_dec c (p_call p)) as [->|Hne].
  - rewrite Nat.eqb_refl in Hr. split.
    + fields. lia.
    + fields. intros _ Hz. rewrite Hz in Hr. lia.
  - destruct (Nat.eqb_spec (p_call p) c); [congruence|].
    destruct (H2 c Hne) as (x & y & z). split.
    + unfold tokens. rewrite x, y, z. fields. lia.
    + intros a b. rewrite x, y, z. fields. repeat split; auto; lia.
Qed.

Lemma retryQueue_keeps fuel :
  forall w w', retryQueue clock StringToNumber fuel w = Some w' ->
    closures w' = closures w /\ forall c, keeps c w w'.
Proof.
  induction fuel as [|fuel IH]; intros w w' H; cbn in H;
    destruct (queue w) as [|e q] eqn:Hq; try discriminate.
  - injection H as <-. split; auto using keeps_refl.
  - injection H as <-. split; auto using keeps_refl.
  - pose proof (retryQueue_body_touches e (set_queue q w)) as Ht.
    destruct (IH _ _ H) as [Hc Hk]. split.
    + rewrite Hc. now destruct Ht as [-> _ _].
    + intros c. eapply keeps_trans; [|apply Hk].
      eapply shift_keeps; eauto.
Qed.



Lemma scheduleRetry_same c w : keeps c w (scheduleRetry w).
Proof.
  unfold scheduleRetry. destruct (retryTimer w); split; fields; auto.
Qed.

Lemma timer_keeps fuel w w' :
  timer clock StringToNumber fuel w = Some w' ->
  closures w' = closures w /\ forall c, keeps c w w'.
Proof.
  unfold timer. intros H.
  destruct (retryQueue _ _ _ _) as [w1|] eqn:Hr; [|discriminate].
  injection H as <-. destruct (retryQueue_keeps _ _ _ Hr) as [Hc Hk].
  assert (Hs : forall c, keeps c w w1).
  { intros c. eapply keeps_trans; [|apply Hk]. split; fields; auto. }
  destruct (queue w1) eqn:Hq; [now split|]. split.
  - unfold scheduleRetry. now destruct (retryTimer w1).
  - intros c. eapply keeps_trans; [apply Hs|apply scheduleRetry_same].
Qed.

Lemma count_map {A B : Type} (f : B -> bool) (g : A -> B) (l : list A) :
  List.length (filter f (map g l)) = List.length (filter (fun x => f (g x)) l).
Proof.
  induction l as [|x l IH]; cbn; [reflexivity|].
  destruct (f (g x)); cbn; now rewrite IH.
Qed.

Lemma resetQueue_keeps w :
  closures (resetQueue clock w) = closures w /\
  forall c, keeps c w (resetQueue clock w).
Proof.
  unfold resetQueue, Date_now. split.
  - unfold scheduleRetry. cbn. now destruct (retryTimer w).
  - intros c. eapply keeps_trans; [|apply scheduleRetry_same].
    split; fields; rewrite count_map; cbn; auto.
Qed.

Lemma on_complete_touches p e r w :
  only_touches (p_call p) w (on_complete clock p e r w).
Proof.
  unfold on_complete. destruct (nth_error _ _) as [c|].
  2:{ apply same_but_ticks_touches. repeat split. }
  assert (Hcb : only_touches (p_call p) w (call_cb (p_call p) (c_cb c) e r w))
    by apply call_cb_touches.
  destruct e as [x|]; [|exact Hcb].
  destruct (is_exhaustion x); [|exact Hcb].
  unfold Date_now, enqueue.
  set (w1 := set_ticks (S (ticks w)) w). set (t := clock (ticks w)).
  assert (Hs : same_but_ticks w w1) by (repeat split). clearbody w1 t.
  eapply only_touches_trans; [exact Hs|].
  set (en := mkEntry _ _ _ _ _).
  pose proof (push_touches en w1) as [H1 H2 H3].
  unfold scheduleRetry. destruct (retryTimer _); split; auto.
Qed.

Lemma complete_keeps c i p e r w :
  nth_error (inflight w) i = Some p ->
  keeps c w (on_complete clock p e r (set_inflight (remove_nth i (inflight w)) w)).
Proof.
  intros Hp. eapply land_keeps; [exact Hp|apply on_complete_touches].
Qed.

Lemma on_complete_closures p e r w :
  closures (on_complete clock p e r w) = closures w.
Proof. now destruct (on_complete_touches p e r w) as [-> _ _]. Qed.

Lemma wrapWithRetry_touches l w :
  exists cl, closures (wrapWithRetry clock l w) = closures w ++ [cl] /\
    (forall c, c <> List.length (closures w) ->
       queued c (wrapWithRetry clock l w) = queued c w /\
       flying c (wrapWithRetry clock l w) = flying c w /\
       outputs_of c (wrapWithRetry clock l w) = outputs_of c w) /\
    tokens (List.length (closures w)) (wrapWithRetry clock l w)
      <= tokens (List.length (closures w)) w + 1.
Proof.
  unfold wrapWithRetry. eexists.
  match goal with |- context [attempt _ ?k ?a ?x] =>
    destruct (attempt_touches k a x) as [H1 H2 H3] end.
  split; [rewrite H1; reflexivity|]. split; [exact H2|exact H3].
Qed.

(** Every event keeps the invariant. *)
Lemma step_wf ev w w' :
  step clock StringToNumber ev w = Some w' -> wf w -> wf w'.
Proof.
  intros H [Ho Hm].
  assert (Hgen : closures w' = closures w -> (forall c, keeps c w w') -> wf w').
  { intros Hc Hk. split; intros c.
    - destruct (Hk c) as [Ht _]. specialize (Ho c). lia.
    - rewrite Hc. intros Hl. destruct (Hk c) as [Ht _].
      specialize (Hm c Hl). lia. }
  destruct ev as [l|i e r|fuel|]; cbv beta iota delta [step] in H.
  - injection H as <-.
    destruct (wrapWithRetry_touches l w) as (cl & Hc & Hother & Hself).
    split; intros c.
    + destruct (Nat.eq_dec c (List.length (closures w))) as [->|Hne].
      * rewrite (Hm _ (Nat.le_refl _)) in Hself. lia.
      * destruct (Hother c Hne) as (x & y & z). unfold tokens.
        rewrite x, y, z. apply Ho.
    + rewrite Hc, length_app. change (List.length [cl]) with 1. intros Hl.
      assert (Hne : c <> List.length (closures w)) by lia.
      destruct (Hother c Hne) as (x & y & z). unfold tokens.
      rewrite x, y, z. apply Hm. lia.
  - destruct (nth_error (inflight w) i) as [p|] eqn:Hp; [|discriminate].
    injection H as <-. apply Hgen.
    + now rewrite on_complete_closures.
    + intros c. now apply complete_keeps.
  - destruct (retryTimer w); [|discriminate].
    destruct (timer_keeps _ _ _ H). now apply Hgen.
  - injection H as <-. destruct (resetQueue_keeps w). now apply Hgen.
Qed.

Lemma init_wf : wf init.
Proof. split; intros; cbn; lia. Qed.

Lemma run_wf evs : forall w w',
  run clock StringToNumber evs w = Some w' -> wf w -> wf w'.
Proof.
  induction evs as [|ev evs IH]; intros w w' H Hw; cbn in H.
  - now injection H as <-.
  - destruct (step _ _ ev w) as [w1|] eqn:Hs; [|discriminate].
    eapply IH; [exact H|]. eapply step_wf; eauto.
Qed.

Lemma step_settled c ev w w' :
  step clock StringToNumber ev w = Some w' -> settled c w ->
  settled c w' /\ outputs_of c w' = outputs_of c w.
Proof.
  intros H (Hq & Hf & Hl).
  assert (Hgen : closures w' = closures w -> (forall c, keeps c w w') ->
                 settled c w' /\ outputs_of c w' = outputs_of c w).
  { intros Hc Hk. destruct (Hk c) as [_ Hquiet].
    destruct (Hquiet Hq Hf) as (x & y & z).
    unfold settled. rewrite Hc. auto. }
  destruct ev as [l|i e r|fuel|]; cbv beta iota delta [step] in H.
  - injection H as <-.
    destruct (wrapWithRetry_touches l w) as (cl & Hc & Hother & Hself).
    assert (Hne : c <> List.length (closures w)) by lia.
    destruct (Hother c Hne) as (x & y & z). unfold settled.
    rewrite x, y, z, Hc, length_app. change (List.length [cl]) with 1.
    repeat split; auto; lia.
  - destruct (nth_error (inflight w) i) as [p|] eqn:Hp; [|discriminate].
    injection H as <-. apply Hgen.
    + now rewrite on_complete_closures.
    + intros c0. now apply complete_keeps.
  - destruct (retryTimer w); [|discriminate].
    destruct (timer_keeps _ _ _ H). now apply Hgen.
  - injection H as <-. destruct (resetQueue_keeps w). now apply Hgen.
Qed.

Lemma run_settled c evs : forall w w',
  run clock StringToNumber evs w = Some w' -> settled c w ->
  settled c w' /\ outputs_of c w' = outputs_of c w.
Proof.
  induction evs as [|ev evs IH]; intros w w' H Hw; cbn in H.
  - injection H as <-. auto.
  - destruct (step _ _ ev w) as [w1|] eqn:Hs; [|discriminate].
    destruct (step_settled c _ _ _ Hs Hw) as [Hw1 Ho].
    destruct (IH _ _ H Hw1) as [Hw' Ho']. split; congruence.
Qed.


(** A completion that is forwarded reaches the original callback at
    once and leaves the call settled. *)
Lemma complete_forwarded i p f e r w w' :
  wf w ->
  nth_error (inflight w) i = Some p ->
  callback_of (p_call p) w = Some (VFun f) ->
  forwards e = true ->
  step clock StringToNumber (Complete i e r) w = Some w' ->
  queue w' = queue w /\ retryTimer w' = retryTimer w /\
  outputs w' = outputs w ++ [mkOutput (p_call p) f e r] /\
  settled (p_call p) w' /\
  outputs_of (p_call p) w' = [mkOutput (p_call p) f e r].
Proof.
  intros [Ho Hm] Hp Hcb He H.
  cbv beta iota delta [step] in H. rewrite Hp in H. injection H as <-.
  unfold callback_of in Hcb.
  destruct (nth_error (closures w) (p_call p)) as [c|] eqn:Hc; [|discriminate].
  cbn in Hcb. injection Hcb as Hcb.
  assert (Hw' : on_complete clock p e r
                  (set_inflight (remove_nth i (inflight w)) w) =
                set_outputs (outputs w ++ [mkOutput (p_call p) f e r])
                  (set_inflight (remove_nth i (inflight w)) w)).
  { unfold on_complete. cbn [closures set_inflight]. rewrite Hc.
    destruct e as [x|]; cbn in He.
    - destruct (is_exhaustion x); [discriminate|].
      unfold call_cb. now rewrite Hcb.
    - unfold call_cb. now rewrite Hcb. }
  rewrite Hw'. cbn [queue retryTimer outputs set_outputs set_inflight].
  pose proof (count_remove_nth (fun p0 => Nat.eqb (p_call p0) (p_call p))
                _ _ _ Hp) as Hr.
  cbv beta in Hr. rewrite Nat.eqb_refl in Hr. specialize (Ho (p_call p)).
  assert (Hlt : p_call p < List.length (closures w)).
  { apply nth_error_Some. congruence. }
  unfold tokens, queued, flying, outputs_of in Ho.
  assert (Hnone : filter (fun o => Nat.eqb (o_call o) (p_call p)) (outputs w) = []).
  { destruct (filter _ (outputs w)); [reflexivity|cbn in Ho; lia]. }
  repeat split; auto.
  - unfold queued. cbn. lia.
  - unfold flying. cbn. lia.
  - unfold outputs_of. cbn. rewrite filter_app, Hnone. cbn.
    now rewrite Nat.eqb_refl.
Qed.

(** C3. For every run of the retry queue: when an underlying attempt
    of a wrapped call completes successfully (in particular a retry
    that follows resource-exhaustion failures), that completion hands the
    results to the original callback, and in every later state of the run
    this is the only invocation of the callback of that call: once, with
    no error and with the results of that attempt. *)
Theorem successful_retry_completes_once evs1 i p f r w1 :
  run clock StringToNumber evs1 init = Some w1 ->
  nth_error (inflight w1) i = Some p ->
  callback_of (p_call p) w1 = Some (VFun f) ->
  exists w1',
    step clock StringToNumber (Complete i None r) w1 = Some w1' /\
    outputs w1' = outputs w1 ++ [mkOutput (p_call p) f None r] /\
    forall evs2 w2,
      run clock StringToNumber evs2 w1' = Some w2 ->
      outputs_of (p_call p) w2 = [mkOutput (p_call p) f None r].
Proof.
  intros H1 Hp Hcb.
  pose proof (run_wf _ _ _ H1 init_wf) as Hw.
  assert (Hs : exists w1', step clock StringToNumber (Complete i None r) w1 = Some w1').
  { cbv beta iota delta [step]. rewrite Hp. eauto. }
  destruct Hs as [w1' Hs]. exists w1'. split; [exact Hs|].
  destruct (complete_forwarded i p f None r w1 w1' Hw Hp Hcb eq_refl Hs)
    as (_ & _ & Ho1 & Hset & Hout).
  split; [exact Ho1|]. intros evs2 w2 H2.
  destruct (run_settled _ _ _ _ H2 Hset) as [_ Ho]. congruence.
Qed.

(** C5. When an underlying completion reports an error whose code is
    neither EMFILE nor ENFILE, the same error and results are handed to
    the original callback at that step, nothing is put on the queue,
    and in every later state of the run the call is neither queued nor
    in flight and that invocation is the only one of its callback. *)
Theorem other_error_forwarded_once evs1 i p f x r w1 :
  run clock StringToNumber evs1 init = Some w1 ->
  nth_error (inflight w1) i = Some p ->
  callback_of (p_call p) w1 = Some (VFun f) ->
  is_exhaustion x = false ->
  exists w1',
    step clock StringToNumber (Complete i (Some x) r) w1 = Some w1' /\
    queue w1' = queue w1 /\
    outputs w1' = outputs w1 ++ [mkOutput (p_call p) f (Some x) r] /\
    forall evs2 w2,
      run clock StringToNumber evs2 w1' = Some w2 ->
      queued (p_call p) w2 = 0 /\ flying (p_call p) w2 = 0 /\
      outputs_of (p_call p) w2 = [mkOutput (p_call p) f (Some x) r].
Proof.
  intros H1 Hp Hcb Hx.
  pose proof (run_wf _ _ _ H1 init_wf) as Hw.
  assert (He : forwards (Some x) = true) by (cbn; now rewrite Hx).
  assert (Hs : exists w1',
             step clock StringToNumber (Complete i (Some x) r) w1 = Some w1').
  { cbv beta iota delta [step]. rewrite Hp. eauto. }
  destruct Hs as [w1' Hs]. exists w1'. split; [exact Hs|].
  destruct (complete_forwarded i p f (Some x) r w1 w1' Hw Hp Hcb He Hs)
    as (Hq & _ & Hout1 & Hset & Hout).
  split; [exact Hq|]. split; [exact Hout1|]. intros evs2 w2 H2.
  destruct (run_settled _ _ _ _ H2 Hset) as [(a & b & _) Ho].
  repeat split; auto. congruence.
Qed.

(** The drain loop is the head-handling step iterated until the queue
    is empty. *)
Lemma retryQueue_scan fuel : forall w w',
  retryQueue clock StringToNumber fuel w = Some w' ->
  exists n, n <= fuel /\ w' = scan clock StringToNumber n w /\
    (forall m, m < n -> queue (scan clock StringToNumber m w) <> []) /\
    queue w' = [].
Proof.
  induction fuel as [|fuel IH]; intros w w' H; cbn in H;
    destruct (queue w) as [|e q] eqn:Hq; try discriminate.
  - injection H as <-. exists 0.
    split; [lia|]. split; [reflexivity|]. split; [intros m Hm; lia|assumption].
  - injection H as <-. exists 0.
    split; [lia|]. split; [reflexivity|]. split; [intros m Hm; lia|assumption].
  - destruct (IH _ _ H) as (n & Hn & Hw & Hlt & He).
    exists (S n). split; [lia|]. split; [cbn; now rewrite Hq|].
    split; [|assumption].
    intros [|m] Hm; cbn; [rewrite Hq; discriminate|].
    rewrite Hq. apply Hlt. lia.
Qed.

Lemma call_cb_timer k cb e r w :
  retryTimer (call_cb k cb e r w) = retryTimer w.
Proof. now destruct cb. Qed.

Lemma attempt_timer k l w :
  retryTimer (attempt clock k l w) = retryTimer w.
Proof.
  unfold attempt.
  pose proof (default_now_ticks (hd VUndef l) w) as (_ & H & _).
  now destruct (default_now clock (hd VUndef l) w).
Qed.

Lemma retryQueue_body_timer e w :
  retryTimer (retryQueue_body clock StringToNumber e w) = retryTimer w.
Proof.
  unfold retryQueue_body.
  pose proof (default_now_ticks (startTime e) w) as (_ & H1 & _).
  destruct (default_now clock (startTime e) w) as [st w1]. cbn in H1.
  pose proof (default_now_ticks (lastTime e) w1) as (_ & H2 & _).
  destruct (default_now clock (lastTime e) w1) as [lt w2]. cbn in H2.
  unfold Date_now. rewrite <- H1, <- H2.
  destruct (timed_out StringToNumber (clock (ticks w2)) st);
    [now rewrite call_cb_timer|].
  destruct (is_due StringToNumber (clock (ticks w2)) st lt);
    [now rewrite attempt_timer|reflexivity].
Qed.

Lemma retryQueue_timer fuel : forall w w',
  retryQueue clock StringToNumber fuel w = Some w' ->
  retryTimer w' = retryTimer w.
Proof.
  induction fuel as [|fuel IH]; intros w w' H; cbn in H;
    destruct (queue w) as [|e q] eqn:Hq; try discriminate;
    try (now injection H as <-).
  rewrite (IH _ _ H). now rewrite retryQueue_body_timer.
Qed.

(** A drain pass (the timer callback) that completes has handled the
    head entry of the queue over and over, entries it deferred
    included, until the queue was empty: [if (queue.length)
    scheduleRetry()] after the loop finds nothing to schedule. *)
Lemma drain_pass_runs_until_queue_empty fuel w w' :
  timer clock StringToNumber fuel w = Some w' ->
  exists n, n <= fuel /\
    w' = scan clock StringToNumber n (set_retryTimer false w) /\
    (forall m, m < n ->
       queue (scan clock StringToNumber m (set_retryTimer false w)) <> []) /\
    queue w' = [] /\
    retryTimer w' = match queue w' with [] => false | _ :: _ => true end.
Proof.
  unfold timer. intros H.
  destruct (retryQueue _ _ _ _) as [w1|] eqn:Hr; [|discriminate].
  destruct (retryQueue_scan _ _ _ Hr) as (n & Hn & Hw & Hlt & He).
  pose proof (retryQueue_timer _ _ _ Hr) as Ht. cbn in Ht.
  rewrite He in H. injection H as <-.
  exists n. rewrite He. auto.
Qed.

(** The threshold of an entry with numeric time stamps. *)
Lemma delay_of_numeric st lt :
  delay_of StringToNumber (VNum st) (VNum lt) =
  Some (Qmin (Qmax (inject_Z lt - inject_Z st) (inject_Z 1) * (12 # 10))
             (inject_Z 100)).
Proof. reflexivity. Qed.

(** While [startTime] stays the same number, refreshing [lastTime] to
    a later reading does not lower the threshold. *)
Lemma delay_of_monotone st lt lt' :
  (lt <= lt')%Z ->
  js_le (delay_of StringToNumber (VNum st) (VNum lt))
     (delay_of StringToNumber (VNum st) (VNum lt')).
Proof.
  intros H. unfold js_le. rewrite !delay_of_numeric. cbn [js_ge].
  apply Qle_bool_iff.
  assert (Hq : (inject_Z lt <= inject_Z lt')%Q) by (now rewrite <- Zle_Qle).
  apply Q.min_le_compat_r.
  apply Qmult_le_compat_r; [|discriminate].
  apply Q.max_le_compat_r. lra.
Qed.

(** The two tests of [retryQueue] on numeric time stamps, in whole
    milliseconds. *)
Lemma timed_out_numeric now st :
  timed_out StringToNumber now (VNum st) = (60000 <=? now - st)%Z.
Proof.
  apply Bool.eq_iff_eq_true. rewrite Z.leb_le.
  unfold timed_out, js_ge, js_sub, ToNumber, num. rewrite Qle_bool_iff.
  unfold Qle, Qminus, Qplus, Qopp, inject_Z.
  cbn -[Z.mul Z.add Z.sub Z.opp]. lia.
Qed.

Lemma is_due_numeric now st lt :
  is_due StringToNumber now (VNum st) (VNum lt) =
  ((6 * Z.max (lt - st) 1 <=? 5 * (now - lt)) || (100 <=? now - lt))%Z.
Proof.
  apply Bool.eq_iff_eq_true. rewrite orb_true_iff, !Z.leb_le.
  unfold is_due, delay_of, js_ge, js_sub, js_mul, Math_max, Math_min,
    ToNumber, num.
  rewrite Qle_bool_iff, Q.min_le_iff.
  destruct (Q.max_spec (inject_Z lt - inject_Z st) (inject_Z 1))
    as [[h1 h2]|[h1 h2]]; rewrite h2;
    split; (intros [H|H]; [left|right];
      unfold Qle, Qlt, Qminus, Qplus, Qopp, Qmult, inject_Z in *;
      cbn -[Z.mul Z.add Z.sub Z.opp Z.max] in *; lia).
Qed.

(** One iteration of the drain loop on an entry with numeric time
    stamps. *)
Lemma retryQueue_body_numeric e w st lt :
  startTime e = VNum st -> lastTime e = VNum lt ->
  retryQueue_body clock StringToNumber e w =
  let now := clock (ticks w) in
  let w3 := set_ticks (S (ticks w)) w in
  if (60000 <=? now - st)%Z then
    call_cb (fn e) (last (args e) VUndef) (Some (err e)) [] w3
  else if ((6 * Z.max (lt - st) 1 <=? 5 * (now - lt)) || (100 <=? now - lt))%Z
  then attempt clock (fn e) (args e ++ [VNum st]) w3
  else
    set_queue (queue w3 ++ [mkEntry (fn e) (args e) (err e) (VNum st) (VNum now)])
              w3.
Proof.
  intros Hs Hl. unfold retryQueue_body. rewrite Hs, Hl.
  cbn [default_now]. unfold Date_now.
  now rewrite timed_out_numeric, is_due_numeric.
Qed.

Lemma clock_monotone :
  (forall k, clock k <= clock (S k))%Z ->
  forall n k, (clock k <= clock (k + n))%Z.
Proof.
  intros Hc n. induction n as [|n IH]; intros k.
  - rewrite Nat.add_0_r. lia.
  - rewrite Nat.add_succ_r. specialize (IH k). specialize (Hc (k + n)). lia.
Qed.

(** With a clock that gains at most 1 ms from one reading to the next,
    a pass that holds one entry examined within 1 ms of its last
    attempt defers it at every iteration until its deadline. *)
Lemma lone_entry_spins f a x st :
  (forall k, clock k <= clock (S k) <= clock k + 1)%Z ->
  forall n w lt,
    queue w = [mkEntry f a x (VNum st) (VNum lt)] ->
    (st <= lt)%Z -> (lt <= clock (ticks w) <= lt + 1)%Z ->
    (clock (ticks w + n) - st < 60000)%Z ->
    retryQueue clock StringToNumber n w = None /\
    exists lt',
      queue (scan clock StringToNumber n w) =
        [mkEntry f a x (VNum st) (VNum lt')] /\
      inflight (scan clock StringToNumber n w) = inflight w /\
      outputs (scan clock StringToNumber n w) = outputs w.
Proof.
  intros Hc n. induction n as [|n IH]; intros w lt Hq Hsl Hnow Hdead.
  - cbn [retryQueue scan]. rewrite Hq. split; [reflexivity|].
    exists lt. auto.
  - cbn [retryQueue scan]. rewrite Hq.
    rewrite (retryQueue_body_numeric (mkEntry f a x (VNum st) (VNum lt)) _
               st lt eq_refl eq_refl).
    cbn [fn args err ticks set_queue queue].
    assert (Hm : (clock (ticks w) <= clock (ticks w + S n))%Z)
      by (apply clock_monotone; intros k; apply Hc).
    destruct (Z.leb_spec 60000 (clock (ticks w) - st)) as [Hto|Hto]; [lia|].
    assert (Hmax : (1 <= Z.max (lt - st) 1)%Z) by apply Z.le_max_r.
    destruct (Z.leb_spec (6 * Z.max (lt - st) 1) (5 * (clock (ticks w) - lt)))
      as [Hd|Hd]; [lia|].
    destruct (Z.leb_spec 100 (clock (ticks w) - lt)) as [Hd'|Hd']; [lia|].
    cbn [orb app].
    match goal with
    | |- retryQueue _ _ _ ?w1 = None /\ _ =>
        destruct (IH w1 (clock (ticks w))) as (Hr & lt' & H1 & H2 & H3)
    end.
    + reflexivity.
    + lia.
    + cbn [ticks set_queue set_ticks]. specialize (Hc (ticks w)). lia.
    + cbn [ticks set_queue set_ticks]. now rewrite Nat.add_succ_r in Hdead.
    + split; [exact Hr|]. exists lt'. auto.
Qed.

(** A pass over such an entry ends in one way only: by abandoning
    it. *)
Lemma lone_entry_only_abandoned f a x st :
  (forall k, clock k <= clock (S k) <= clock k + 1)%Z ->
  forall n w lt w',
    queue w = [mkEntry f a x (VNum st) (VNum lt)] ->
    (st <= lt)%Z -> (lt <= clock (ticks w) <= lt + 1)%Z ->
    retryQueue clock StringToNumber n w = Some w' ->
    queue w' = [] /\ inflight w' = inflight w /\
    outputs w' =
      outputs w ++
      RetryQueueInv.abandon_output (mkEntry f a x (VNum st) (VNum lt)).
Proof.
  intros Hc n. induction n as [|n IH]; intros w lt w' Hq Hsl Hnow Hr.
  - cbn [retryQueue] in Hr. rewrite Hq in Hr. discriminate.
  - cbn [retryQueue] in Hr. rewrite Hq in Hr.
    rewrite (retryQueue_body_numeric (mkEntry f a x (VNum st) (VNum lt)) _
               st lt eq_refl eq_refl) in Hr.
    cbn [fn args err ticks set_queue queue] in Hr.
    destruct (Z.leb_spec 60000 (clock (ticks w) - st)) as [Hto|Hto].
    + unfold RetryQueueInv.abandon_output. cbn [fn args err].
      unfold call_cb in Hr.
      destruct (last a VUndef); destruct n; cbn in Hr;
        injection Hr as <-; cbn; rewrite ?app_nil_r; auto.
    + assert (Hmax : (1 <= Z.max (lt - st) 1)%Z) by apply Z.le_max_r.
      destruct (Z.leb_spec (6 * Z.max (lt - st) 1) (5 * (clock (ticks w) - lt)))
        as [Hd|Hd]; [lia|].
      destruct (Z.leb_spec 100 (clock (ticks w) - lt)) as [Hd'|Hd']; [lia|].
      cbn [orb app] in Hr.
      apply (IH _ (clock (ticks w))) in Hr.
      * exact Hr.
      * reflexivity.
      * lia.
      * cbn [ticks set_queue set_ticks]. specialize (Hc (ticks w)). lia.
Qed.

(** C2, at its failing inputs.  The clock gains at most 1 ms from one
    reading to the next, and the pass starts within 1 ms of the failed
    attempt of the one entry in the queue, so that the entry is not due.
    The pass does not complete with the entry left queued: it examines
    the entry again at every iteration, refreshing [lastTime], so the
    entry is never due; as long as the deadline of 60 s is not reached
    the loop is still running, with the entry queued and no attempt
    started, and when the pass ends it has abandoned the entry. *)
Theorem deferred_entry_blocks_the_pass e w st lt :
  (forall k, clock k <= clock (S k) <= clock k + 1)%Z ->
  queue w = [e] -> startTime e = VNum st -> lastTime e = VNum lt ->
  (st <= lt)%Z -> (lt <= clock (ticks w) <= lt + 1)%Z ->
  forall n,
    ((clock (ticks w + n) - st < 60000)%Z ->
       retryQueue clock StringToNumber n w = None /\
       exists lt',
         queue (scan clock StringToNumber n w) =
           [mkEntry (fn e) (args e) (err e) (VNum st) (VNum lt')] /\
         inflight (scan clock StringToNumber n w) = inflight w /\
         outputs (scan clock StringToNumber n w) = outputs w) /\
    (forall w',
       retryQueue clock StringToNumber n w = Some w' ->
       queue w' = [] /\ inflight w' = inflight w /\
       outputs w' = outputs w ++ RetryQueueInv.abandon_output e).
Proof.
  intros Hc Hq Hs Hl Hsl Hnow n.
  destruct e as [f a x st0 lt0]. cbn in Hs, Hl. subst st0 lt0.
  cbn [fn args err]. split.
  - intros Hdead. exact (lone_entry_spins f a x st Hc n w lt Hq Hsl Hnow Hdead).
  - intros w' Hr.
    exact (lone_entry_only_abandoned f a x st Hc n w lt w' Hq Hsl Hnow Hr).
Qed.

(** An entry whose [startTime] does not convert to a number is
    deferred at every step: never abandoned, never retried. *)
Lemma NaN_startTime_deferred e w :
  startTime e <> VUndef ->
  ToNumber StringToNumber (startTime e) = NaN ->
  exists now w3, same_but_ticks w w3 /\
    retryQueue_body clock StringToNumber e w =
    set_queue (queue w3 ++ [mkEntry (fn e) (args e) (err e) (startTime e) (VNum now)]) w3.
Proof.
  intros Hu Hn. unfold retryQueue_body.
  assert (Hd : default_now clock (startTime e) w = (startTime e, w))
    by (destruct (startTime e); [congruence|reflexivity..]).
  rewrite Hd.
  pose proof (default_now_ticks (lastTime e) w) as H2.
  destruct (default_now clock (lastTime e) w) as [lt w2]. cbn in H2.
  unfold Date_now, timed_out, is_due, delay_of. rewrite Hn.
  destruct (ToNumber StringToNumber lt); cbn;
    exists (clock (ticks w2)), (set_ticks (S (ticks w2)) w2);
    (split; [destruct H2 as (a & b & c & d & f); repeat split; auto|reflexivity]).
Qed.

End Steps.

(** With a clock that stands still, a pass over a queue that holds an
    entry not yet due does not complete, whatever the number of
    iterations followed. *)
Lemma frozen_clock_pass_never_completes S2N fuel : forall n,
  retryQueue (fun _ => 1000000%Z) S2N fuel
    (set_ticks n (set_retryTimer false not_due_world)) = None.
Proof.
  induction fuel as [|fuel IH]; intros n; [reflexivity|].
  exact (IH (S n)).
Qed.

(** A call fails at once with EMFILE; in the drain pass that follows,
    the queued entry is not due at the first reading of the clock and
    due at the second.  No number of iterations makes
    the drain loop return what one scan of the queue gives: the loop
    examines the deferred entry again in the same pass and retries it,
    the single scan leaves it queued. *)
Lemma drain_pass_rescans_deferred_entry :
  run two_step_clock (fun _ => NaN) not_due_events init = Some not_due_world /\
  queue (drain_pass_spec two_step_clock (fun _ => NaN)
           (set_retryTimer false not_due_world)) <> [] /\
  ~ exists fuel,
      retryQueue two_step_clock (fun _ => NaN) fuel
        (set_retryTimer false not_due_world) =
      Some (drain_pass_spec two_step_clock (fun _ => NaN)
              (set_retryTimer false not_due_world)).
Proof.
  split; [reflexivity|]. split; [discriminate|].
  intros [[|[|[|fuel]]] H]; vm_compute in H; discriminate.
Qed.

(** A witness for C2: [open('/tmp/x', cb)] has failed with EMFILE and
    the pass starts in the same millisecond; the clock gains 1 ms every
    1000 readings.  After five iterations the loop is still running on
    the same entry. *)
Lemma deferred_entry_blocks_the_pass_witness :
  retryQueue ms_clock (fun _ => NaN) 5 (set_retryTimer false not_due_world) =
    None /\
  exists lt',
    queue (scan ms_clock (fun _ => NaN) 5 (set_retryTimer false not_due_world)) =
      [mkEntry 0 [VStr "/tmp/x"; VFun 7] (emfile 0) (VNum 1000000) (VNum lt')] /\
    inflight (scan ms_clock (fun _ => NaN) 5 (set_retryTimer false not_due_world)) =
      [] /\
    outputs (scan ms_clock (fun _ => NaN) 5 (set_retryTimer false not_due_world)) =
      [].
Proof.
  assert (Hc : forall k, (ms_clock k <= ms_clock (S k) <= ms_clock k + 1)%Z).
  { intros k. unfold ms_clock. rewrite Nat2Z.inj_succ.
    Z.div_mod_to_equations. lia. }
  destruct (deferred_entry_blocks_the_pass ms_clock (fun _ => NaN)
              RetryQueueInv.not_due_entry
              (set_retryTimer false not_due_world) 1000000 1000000 Hc
              eq_refl eq_refl eq_refl) with (n := 5) as [Hspin _].
  - lia.
  - vm_compute. split; discriminate.
  - apply Hspin. vm_compute. reflexivity.
Defined.

(** The defect behind C1 and C4 on a file descriptor: [readFile(5, cb)]
    whose attempts all fail with EMFILE.  The retry calls
    [attempt(5, cb, startTime)], so the first argument [5] becomes the
    [startTime] of the entry that the second failure enqueues; the next
    drain step finds [now - 5 >= 60000] and hands the error to the
    callback, 4 ms after the entry was first enqueued. *)
Lemma fd_call_abandoned_early (S2N : string -> number) :
  exists w4 w5,
    run fd_clock S2N fd_events init = Some w4 /\
    queue w4 =
      [mkEntry 0 [VNum 5; VFun 7] (emfile 1) (VNum 5) (VNum 1000003)] /\
    step fd_clock S2N (Timer 10) w4 = Some w5 /\
    outputs w5 = [mkOutput 0 7 (Some (emfile 1)) []] /\
    (fd_clock (ticks w4) - fd_clock 1 = 4)%Z.
Proof.
  eexists. eexists.
  split; [vm_compute; reflexivity|].
  split; [reflexivity|].
  split; [vm_compute; reflexivity|].
  split; reflexivity.
Qed.

(** With a path: once the retry has failed, the entry carries the path
    as its [startTime]; it is deferred at every step and no drain pass
    completes any more, whatever the clock does. *)
Lemma path_entry_never_leaves clock S2N l e c fuel :
  S2N "/tmp/x"%string = NaN ->
  forall t n,
    retryQueue clock S2N fuel
      (mkWorld [mkEntry 0 l e (VStr "/tmp/x") (VNum t)] false c [] [] n) = None.
Proof.
  intros H. induction fuel as [|fuel IH]; intros t n; [reflexivity|].
  cbn [retryQueue queue].
  unfold retryQueue_body, default_now, Date_now, timed_out, is_due, delay_of.
  cbn. rewrite H. cbn. apply IH.
Qed.

Lemma path_entry_stays_queued clock S2N l e c m :
  S2N "/tmp/x"%string = NaN ->
  forall t n, exists t' n',
    scan clock S2N m
      (mkWorld [mkEntry 0 l e (VStr "/tmp/x") (VNum t)] false c [] [] n) =
    mkWorld [mkEntry 0 l e (VStr "/tmp/x") (VNum t')] false c [] [] n'.
Proof.
  intros H. induction m as [|m IH]; intros t n; [now exists t, n|].
  cbn [scan queue].
  unfold retryQueue_body, default_now, Date_now, timed_out, is_due, delay_of.
  cbn. rewrite H. cbn. apply IH.
Qed.

(** C1, at a failing input: [open('/tmp/x', cb)] whose attempts all fail
    with EMFILE.  The retry calls [attempt('/tmp/x', cb, startTime)], so
    the path becomes the [startTime] of the entry that the second failure
    enqueues.  From then on [now - startTime] is [NaN]: the callback has
    not been invoked, no drain pass completes, and after any number of
    drain steps the entry is still queued and the callback still not
    invoked, although the clock passes the 60 s mark after 61 readings. *)
Theorem path_call_never_completed (S2N : string -> number) :
  S2N "/tmp/x"%string = NaN ->
  exists w4,
    run late_clock S2N path_events init = Some w4 /\
    queue w4 =
      [mkEntry 0 [VStr "/tmp/x"; VFun 7] (emfile 1) (VStr "/tmp/x")
               (VNum 1000003)] /\
    outputs w4 = [] /\
    (forall fuel, step late_clock S2N (Timer fuel) w4 = None) /\
    (forall m, exists t n,
       scan late_clock S2N m (set_retryTimer false w4) =
       mkWorld [mkEntry 0 [VStr "/tmp/x"; VFun 7] (emfile 1) (VStr "/tmp/x")
                        (VNum t)]
               false (closures w4) [] [] n) /\
    (late_clock 64 - late_clock 1 >= 60000)%Z.
Proof.
  intros H. eexists.
  split; [vm_compute; reflexivity|].
  split; [reflexivity|]. split; [reflexivity|].
  split; [|split].
  - intros fuel. cbv beta iota delta [step]. cbn [retryTimer].
    unfold timer.
    change (set_retryTimer false _) with
      (mkWorld [mkEntry 0 [VStr "/tmp/x"; VFun 7] (emfile 1) (VStr "/tmp/x")
                        (VNum 1000003)]
               false [mkClosure [VStr "/tmp/x"] (VFun 7)] [] [] 4).
    now rewrite path_entry_never_leaves.
  - intros m.
    apply (path_entry_stays_queued late_clock S2N
             [VStr "/tmp/x"; VFun 7] (emfile 1)
             [mkClosure [VStr "/tmp/x"] (VFun 7)] m H 1000003%Z 4).
  - vm_compute. discriminate.
Qed.

Lemma path_call_never_completed_witness :
  (fun _ : string => NaN) "/tmp/x"%string = NaN /\
  exists w4,
    run late_clock (fun _ => NaN) path_events init = Some w4 /\
    queue w4 =
      [mkEntry 0 [VStr "/tmp/x"; VFun 7] (emfile 1) (VStr "/tmp/x")
               (VNum 1000003)] /\
    outputs w4 = [] /\
    (forall fuel, step late_clock (fun _ => NaN) (Timer fuel) w4 = None) /\
    (forall m, exists t n,
       scan late_clock (fun _ => NaN) m (set_retryTimer false w4) =
       mkWorld [mkEntry 0 [VStr "/tmp/x"; VFun 7] (emfile 1) (VStr "/tmp/x")
                        (VNum t)]
               false (closures w4) [] [] n) /\
    (late_clock 64 - late_clock 1 >= 60000)%Z.
Proof.
  split; [reflexivity|].
  apply (path_call_never_completed (fun _ => NaN)). reflexivity.
Defined.

(** C4, at a failing input: [open('/tmp/x', cb)] whose attempts all
    fail with EMFILE.  The threshold of the entry is 1.2 ms after the
    first failure; after the failure of the retry the entry carries the
    path as its [startTime] and the threshold is [NaN], which is not
    above 1.2. *)
Theorem path_call_threshold_not_monotone (S2N : string -> number) :
  S2N "/tmp/x"%string = NaN ->
  exists w2 w4 e2 e4,
    run fd_clock S2N (firstn 2 path_events) init = Some w2 /\
    queue w2 = [e2] /\
    run fd_clock S2N path_events init = Some w4 /\
    queue w4 = [e4] /\
    fn e2 = fn e4 /\
    delay_of S2N (startTime e2) (lastTime e2) = Some (12 # 10) /\
    delay_of S2N (startTime e4) (lastTime e4) = NaN /\
    ~ js_le (delay_of S2N (startTime e2) (lastTime e2))
         (delay_of S2N (startTime e4) (lastTime e4)).
Proof.
  intros H. do 4 eexists.
  split; [vm_compute; reflexivity|].
  split; [reflexivity|].
  split; [vm_compute; reflexivity|].
  split; [reflexivity|].
  split; [reflexivity|].
  split; [reflexivity|].
  assert (Hn : delay_of S2N (VStr "/tmp/x") (VNum 1000003) = NaN).
  { unfold delay_of. cbn. now rewrite H. }
  split; [exact Hn|].
  cbn [startTime lastTime]. rewrite Hn. unfold js_le. cbn. discriminate.
Qed.

Lemma path_call_threshold_not_monotone_witness :
  (fun _ : string => NaN) "/tmp/x"%string = NaN /\
  exists w2 w4 e2 e4,
    run fd_clock (fun _ => NaN) (firstn 2 path_events) init = Some w2 /\
    queue w2 = [e2] /\
    run fd_clock (fun _ => NaN) path_events init = Some w4 /\
    queue w4 = [e4] /\
    fn e2 = fn e4 /\
    delay_of (fun _ => NaN) (startTime e2) (lastTime e2) = Some (12 # 10) /\
    delay_of (fun _ => NaN) (startTime e4) (lastTime e4) = NaN /\
    ~ js_le (delay_of (fun _ => NaN) (startTime e2) (lastTime e2))
         (delay_of (fun _ => NaN) (startTime e4) (lastTime e4)).
Proof.
  split; [reflexivity|].
  apply (path_call_threshold_not_monotone (fun _ => NaN)). reflexivity.
Defined.

(** A witness for C3: a call fails with EMFILE, is retried and
    succeeds; a reset and another call follow. *)
Lemma successful_retry_completes_once_witness :
  run fd_clock (fun _ => NaN) success_prefix init = Some success_w1 /\
  nth_error (inflight success_w1) 0 = Some (mkPending 0 (VStr "/tmp/x")) /\
  callback_of 0 success_w1 = Some (VFun 7) /\
  exists w1',
    step fd_clock (fun _ => NaN) (Complete 0 None [VNum 3]) success_w1 =
      Some w1' /\
    outputs w1' = outputs success_w1 ++ [mkOutput 0 7 None [VNum 3]] /\
    forall evs2 w2,
      run fd_clock (fun _ => NaN) evs2 w1' = Some w2 ->
      outputs_of 0 w2 = [mkOutput 0 7 None [VNum 3]].
Proof.
  repeat (split; [reflexivity|]).
  apply (successful_retry_completes_once fd_clock (fun _ => NaN)
           success_prefix 0 (mkPending 0 (VStr "/tmp/x")) 7
           [VNum 3] success_w1); reflexivity.
Defined.

(** The run of that witness, carried on to its end. *)
Example successful_retry_run :
  run fd_clock (fun _ => NaN)
      (success_prefix ++ Complete 0 None [VNum 3] :: success_suffix) init =
    Some success_w2 /\
  outputs success_w2 = [mkOutput 0 7 None [VNum 3]].
Proof. split; reflexivity. Qed.

(** A witness for C5: a first attempt that fails with EACCES. *)
Lemma other_error_forwarded_once_witness :
  run fd_clock (fun _ => NaN) eacces_prefix init = Some eacces_w1 /\
  nth_error (inflight eacces_w1) 0 = Some (mkPending 0 (VNum 1000000)) /\
  callback_of 0 eacces_w1 = Some (VFun 7) /\
  is_exhaustion eacces = false /\
  exists w1',
    step fd_clock (fun _ => NaN) (Complete 0 (Some eacces) []) eacces_w1 =
      Some w1' /\
    queue w1' = queue eacces_w1 /\
    outputs w1' = outputs eacces_w1 ++ [mkOutput 0 7 (Some eacces) []] /\
    forall evs2 w2,
      run fd_clock (fun _ => NaN) evs2 w1' = Some w2 ->
      queued 0 w2 = 0 /\ flying 0 w2 = 0 /\
      outputs_of 0 w2 = [mkOutput 0 7 (Some eacces) []].
Proof.
  repeat (split; [reflexivity|]).
  apply (other_error_forwarded_once fd_clock (fun _ => NaN)
           eacces_prefix 0 (mkPending 0 (VNum 1000000)) 7
           eacces [] eacces_w1); reflexivity.
Defined.

(** The run of that witness, carried on to its end. *)
Example other_error_run :
  run fd_clock (fun _ => NaN)
      (eacces_prefix ++ Complete 0 (Some eacces) [] :: eacces_suffix) init =
    Some eacces_w2 /\
  outputs eacces_w2 = [mkOutput 0 7 (Some eacces) []].
Proof. split; reflexivity. Qed.

End RetryQueueFacts.

(* ===================================================================== *)
(** * Results on the chown, chmod and stat fixes *)
(* ===================================================================== *)

Module MetadataFixFacts.
Import Js MetadataFix.
Local Open Scope Z_scope.

Lemma isIgnorableChownErr_iff getuid e :
  isIgnorableChownErr getuid (Some e) = true <-> expected_artifact getuid e.
Proof.
  unfold isIgnorableChownErr, expected_artifact.
  destruct (String.eqb_spec (code e) "ENOSYS") as [Hs|Hs]; [tauto|].
  destruct getuid as [u|].
  - destruct (Z.eqb_spec u 0) as [->|Hu]; cbn [negb].
    + split; [discriminate|]. intros [?|[_ Hn]]; congruence.
    + rewrite orb_true_iff, !String.eqb_eq. split.
      * intros Hc. right. split; [exact Hc|congruence].
      * intros [?|[Hc _]]; [contradiction|exact Hc].
  - rewrite orb_true_iff, !String.eqb_eq. split.
    + intros Hc. right. split; [exact Hc|discriminate].
    + intros [?|[Hc _]]; [contradiction|exact Hc].
Qed.

Lemma fix_ids_fields s :
  exists s', fix_ids (Some s) = Some s' /\
    uid s' = (if uid s <? 0 then js_add_int (uid s) (2 ^ 32) else uid s) /\
    gid s' = (if gid s <? 0 then js_add_int (gid s) (2 ^ 32) else gid s) /\
    others s' = others s.
Proof.
  unfold fix_ids. eexists. split; [reflexivity|].
  destruct (uid s <? 0), (gid s <? 0) eqn:Hg; cbn; rewrite ?Hg; cbn; auto.
Qed.

Section Patched.
Variable R : Type.
Variable nothing : R.
Variable getuid : option Z.
Variable fs : fsmodule R.

Local Abbreviation fs' := (patchFs nothing getuid fs).

Lemma patched_chown n orig :
  fs_chown fs n = Some orig ->
  fs_chown fs' n = chownFix nothing getuid (Some orig).
Proof.
  intros Ho. destruct n; cbn; rewrite Ho; try reflexivity.
  now rewrite andb_false_r.
Qed.

Lemma patched_chmod n orig :
  fs_chmod fs n = Some orig ->
  fs_chmod fs' n = chmodFix nothing getuid (Some orig).
Proof.
  intros Ho. destruct n; cbn; rewrite Ho; try reflexivity.
  now rewrite andb_false_r.
Qed.

(** A missing [lchown] is the only way for a Sync variant to be
    replaced by a no-op. *)
Lemma patched_chownSync n orig :
  fs_chownSync fs n = Some orig ->
  (n = lchown -> fs_chown fs lchown <> None) ->
  fs_chownSync fs' n = chownFixSync getuid (Some orig).
Proof.
  intros Ho Hl. destruct n; cbn; rewrite Ho; try reflexivity.
  destruct (fs_chown fs lchown); [|now elim Hl].
  now rewrite andb_false_r.
Qed.

Lemma patched_chmodSync n orig :
  fs_chmodSync fs n = Some orig ->
  (n = lchmod -> fs_chmod fs lchmod <> None) ->
  fs_chmodSync fs' n = chmodFixSync getuid (Some orig).
Proof.
  intros Ho Hl. destruct n; cbn; rewrite Ho; try reflexivity.
  destruct (fs_chmod fs lchmod); [|now elim Hl].
  now rewrite andb_false_r.
Qed.

(** C10, as amended. A patched chown or chmod operation, callback style
    or Sync, reports an error of the underlying operation as a success
    exactly when the error is an expected permission artifact (its code
    is ENOSYS, or EPERM or EINVAL while the process is not root), and
    hands every other error to the caller as it is; for [lchownSync]
    and [lchmodSync] this holds where the [fs] object has [lchown] and
    [lchmod]. *)
Theorem chown_chmod_errors_swallowed :
  (forall e, isIgnorableChownErr getuid (Some e) = true <->
             expected_artifact getuid e) /\
  (forall n orig target u g k e rest,
     fs_chown fs n = Some orig ->
     (forall k', orig target u g (Some k') = k' (Some e) rest) ->
     exists patched, fs_chown fs' n = Some patched /\
       patched target u g (Some k) =
       k (if isIgnorableChownErr getuid (Some e) then None else Some e) rest) /\
  (forall n orig target m k e rest,
     fs_chmod fs n = Some orig ->
     (forall k', orig target m (Some k') = k' (Some e) rest) ->
     exists patched, fs_chmod fs' n = Some patched /\
       patched target m (Some k) =
       k (if isIgnorableChownErr getuid (Some e) then None else Some e) rest) /\
  (forall n orig target u g e,
     fs_chownSync fs n = Some orig ->
     (n = lchown -> fs_chown fs lchown <> None) ->
     orig target u g = inl e ->
     exists patched, fs_chownSync fs' n = Some patched /\
       patched target u g =
       if isIgnorableChownErr getuid (Some e) then inr VUndef else inl e) /\
  (forall n orig target m e,
     fs_chmodSync fs n = Some orig ->
     (n = lchmod -> fs_chmod fs lchmod <> None) ->
     orig target m = inl e ->
     exists patched, fs_chmodSync fs' n = Some patched /\
       patched target m =
       if isIgnorableChownErr getuid (Some e) then inr VUndef else inl e).
Proof.
  split; [apply isIgnorableChownErr_iff|].
  split; [|split; [|split]].
  - intros n orig target u g k e rest Ho Hcall.
    rewrite (patched_chown n orig Ho). cbn. eexists. split; [reflexivity|].
    cbv beta. now rewrite Hcall.
  - intros n orig target m k e rest Ho Hcall.
    rewrite (patched_chmod n orig Ho). cbn. eexists. split; [reflexivity|].
    cbv beta. now rewrite Hcall.
  - intros n orig target u g e Ho Hl He.
    rewrite (patched_chownSync n orig Ho Hl). cbn. eexists.
    split; [reflexivity|]. cbv beta. now rewrite He.
  - intros n orig target m e Ho Hl He.
    rewrite (patched_chmodSync n orig Ho Hl). cbn. eexists.
    split; [reflexivity|]. cbv beta. now rewrite He.
Qed.

(** C9, as amended. A patched stat operation, callback style (with or
    without an options argument) or Sync, returns the stats object of
    the underlying operation with a negative [uid] or [gid] of
    magnitude up to 2^53 raised by 2^32; a non-negative [uid] or [gid]
    and every other field are returned as they are. *)
Theorem stat_ids_normalized :
  (forall s, exists s', fix_ids (Some s) = Some s' /\
     (- 2 ^ 53 <= uid s < 0 -> uid s' = uid s + 2 ^ 32) /\
     (0 <= uid s -> uid s' = uid s) /\
     (- 2 ^ 53 <= gid s < 0 -> gid s' = gid s + 2 ^ 32) /\
     (0 <= gid s -> gid s' = gid s) /\
     others s' = others s) /\
  (forall n orig target o k err stats,
     fs_stat fs n = Some orig ->
     (forall k', orig target (Options o) (Some k') = k' err stats) ->
     exists patched, fs_stat fs' n = Some patched /\
       patched target (Options o) (Some k) = k err (fix_ids stats)) /\
  (forall n orig target k cb err stats,
     fs_stat fs n = Some orig ->
     (forall k', orig target (Options VUndef) (Some k') = k' err stats) ->
     exists patched, fs_stat fs' n = Some patched /\
       patched target (Callback k) cb = k err (fix_ids stats)) /\
  (forall n orig target o stats,
     fs_statSync fs n = Some orig ->
     orig target o = inr stats ->
     exists patched, fs_statSync fs' n = Some patched /\
       patched target o = inr (fix_ids stats)).
Proof.
  split; [|split; [|split]].
  - intros s. destruct (fix_ids_fields s) as (s' & Hf & Hu & Hg & Ho).
    exists s'. split; [exact Hf|].
    rewrite Hu, Hg. repeat split; auto.
    + intros [Hlo Hlt]. pose proof Hlt as Hb. apply Z.ltb_lt in Hb.
      rewrite Hb. apply JsFacts.js_add_int_exact.
      change (2 ^ 53) with 9007199254740992 in *.
      change (2 ^ 32) with 4294967296. lia.
    + intros Hlt. apply Z.ltb_ge in Hlt. now rewrite Hlt.
    + intros [Hlo Hlt]. pose proof Hlt as Hb. apply Z.ltb_lt in Hb.
      rewrite Hb. apply JsFacts.js_add_int_exact.
      change (2 ^ 53) with 9007199254740992 in *.
      change (2 ^ 32) with 4294967296. lia.
    + intros Hlt. apply Z.ltb_ge in Hlt. now rewrite Hlt.
  - intros n orig target o k err stats Ho Hcall. cbn. rewrite Ho. cbn.
    eexists. split; [reflexivity|]. cbv beta. now rewrite Hcall.
  - intros n orig target k cb err stats Ho Hcall. cbn. rewrite Ho. cbn.
    eexists. split; [reflexivity|]. cbv beta. now rewrite Hcall.
  - intros n orig target o stats Ho Hr. cbn. rewrite Ho. cbn.
    eexists. split; [reflexivity|]. cbv beta. now rewrite Hr.
Qed.

End Patched.

(** A witness for C10: the sample [chown] fails with EPERM while the
    process runs as user 1000, and the caller sees a success. *)
Lemma chown_chmod_errors_swallowed_witness :
  fs_chown sample_fs chown = Some sample_chown /\
  (forall k', sample_chown (VStr "/f") (VNum 0) (VNum 0) (Some k') =
              k' (Some eperm) []) /\
  exists patched,
    fs_chown (patchFs NoCall (Some 1000) sample_fs) chown = Some patched /\
    patched (VStr "/f") (VNum 0) (VNum 0) (Some Done) = Done None [].
Proof.
  split; [reflexivity|]. split; [reflexivity|].
  destruct (@chown_chmod_errors_swallowed seen NoCall (Some 1000) sample_fs)
    as (_ & Hc & _).
  apply (Hc chown sample_chown (VStr "/f") (VNum 0) (VNum 0) Done eperm []);
    reflexivity.
Defined.

(** A witness for C9: the sample [stat] returns uid -1 and gid -2, and
    the caller sees 2^32 - 1 and 2^32 - 2. *)
Lemma stat_ids_normalized_witness :
  fs_stat sample_fs stat = Some sample_stat /\
  (forall k', sample_stat (VStr "/f") (Options VUndef) (Some k') =
              k' None (Some raw_stats)) /\
  exists patched,
    fs_stat (patchFs NoCall (Some 1000) sample_fs) stat = Some patched /\
    patched (VStr "/f") (Options VUndef) (Some StatDone) =
    StatDone None
      (Some (mkIdStats 4294967295 4294967294
               [("mode"%string, 420); ("size"%string, 3)])).
Proof.
  split; [reflexivity|]. split; [reflexivity|].
  destruct (@stat_ids_normalized seen NoCall (Some 1000) sample_fs)
    as (_ & Hs & _).
  apply (Hs stat sample_stat (VStr "/f") VUndef StatDone None (Some raw_stats));
    reflexivity.
Defined.

(** C10, counterexample. An [fs] object with [chmod] and without
    [lchmod], whose [lchmodSync] throws EPERM, is patched in a process
    that runs as root, where EPERM is no expected artifact: the patched
    [lchmodSync] is the no-op installed for a missing [lchmod] and
    returns instead of throwing EPERM. *)
Lemma lchmodSync_noop_hides_error :
  fs_chmodSync Samples.no_lchmod_fs lchmod = Some sample_chmodSync /\
  sample_chmodSync (VStr "/l") (VNum 420) = inl eperm /\
  isIgnorableChownErr (Some 0) (Some eperm) = false /\
  exists patched,
    fs_chmodSync (patchFs NoCall (Some 0) Samples.no_lchmod_fs) lchmod =
      Some patched /\
    patched (VStr "/l") (VNum 420) = inr VUndef /\
    patched (VStr "/l") (VNum 420) <> inl eperm.
Proof.
  split; [reflexivity|]. split; [reflexivity|]. split; [reflexivity|].
  eexists. split; [reflexivity|]. split; [reflexivity|discriminate].
Qed.

(** C9, counterexample. The stat operations of the sample object report
    the negative identifier [-2^90]; the sum of that Number and 2^32 is
    the Number [-2^90] itself, so the patched [statSync] returns the
    identifier as it was, not raised by 2^32. *)
Lemma huge_negative_id_returned_unchanged :
  uid Samples.huge_stats < 0 /\
  exists patched s',
    fs_statSync (patchFs NoCall (Some 1000) Samples.huge_fs) stat =
      Some patched /\
    patched (VStr "/f") VUndef = inr (Some s') /\
    uid s' = uid Samples.huge_stats /\
    uid s' <> uid Samples.huge_stats + 2 ^ 32.
Proof.
  split; [reflexivity|].
  eexists. eexists. split; [reflexivity|].
  split; [vm_compute; reflexivity|].
  split; [reflexivity|]. vm_compute. discriminate.
Qed.

End MetadataFixFacts.

(* ===================================================================== *)
(** * Results on the copy engine *)
(* ===================================================================== *)

Module CopySyncFacts.
Import CopySync.
Local Open Scope string_scope.

Section AnyHost.
Context {FS : Type} {H : Host FS}.

Lemma bind_read {A B : Type} (r : FS -> exn + A) (k : A -> M B) fs a :
  r fs = inr a -> bind (read r) k fs = k a fs.
Proof. intros Hr. unfold bind, read. now rewrite Hr. Qed.

(** [getStats] hands a regular file or a device to [onFile]. *)
Lemma getStats_file fuel destStat src dest opts st fs :
  (if dereference opts then statSync else lstatSync) src fs = inr st ->
  st_kind st = File \/ st_kind st = CharacterDevice \/ st_kind st = BlockDevice ->
  getStats (S fuel) destStat src dest opts fs =
  onFile st destStat src dest opts fs.
Proof.
  intros Hs Hk. cbn [getStats]. unfold getStats_body.
  rewrite (bind_read _ _ _ _ Hs).
  unfold isDirectory, isFile, isCharacterDevice, isBlockDevice.
  destruct Hk as [-> | [-> | ->]]; reflexivity.
Qed.

(** C6. Copying a regular, character-device or block-device file onto
    a destination that exists: with [overwrite] the destination is
    removed with [unlinkSync] and the source copied to its path with
    [copyFileSync]; then, under [preserveTimestamps], the destination
    is made writable when the source mode lacks the owner-write bit
    and gets the times of a fresh [statSync] of the source; last, the
    destination gets the source mode.  A step that throws ends the
    copy with its error.  Without [overwrite] and with [errorOnExist]
    the engine throws AlreadyExists and the file system is as before;
    with neither the engine returns and the file system is as
    before. *)
Theorem existing_destination_policy fuel src dest opts destStat st fs :
  (if dereference opts then statSync else lstatSync) src fs = inr st ->
  st_kind st = File \/ st_kind st = CharacterDevice \/ st_kind st = BlockDevice ->
  (truthy (overwrite opts) = true ->
     getStats (S fuel) (Some destStat) src dest opts fs =
     bind (unlinkSync dest) (fun _ =>
     bind (copyFileSync src dest) (fun _ =>
     bind (if preserveTimestamps opts
           then
             bind (if Z.eqb (Js.js_bitand (mode st) 128) 0
                   then chmodSync dest (Js.js_bitor (mode st) 128)
                   else ret tt) (fun _ =>
             bind (read (statSync src)) (fun updatedSrcStat =>
             utimesMillisSync dest (atime updatedSrcStat)
                              (mtime updatedSrcStat)))
           else ret tt) (fun _ =>
     chmodSync dest (mode st)))) fs) /\
  (truthy (overwrite opts) = false -> errorOnExist opts = true ->
     getStats (S fuel) (Some destStat) src dest opts fs =
     Throw (AlreadyExists dest) fs) /\
  (truthy (overwrite opts) = false -> errorOnExist opts = false ->
     getStats (S fuel) (Some destStat) src dest opts fs = Ret tt fs).
Proof.
  intros Hs Hk. rewrite (getStats_file fuel _ src dest opts st fs Hs Hk).
  cbn [onFile]. unfold mayCopyFile.
  repeat split.
  - intros ->. reflexivity.
  - intros -> ->. reflexivity.
  - intros -> ->. reflexivity.
Qed.

(** C7. Copying a link onto a destination link that exists: both
    targets are read, and resolved against the working directory when
    [dereference] is set; the engine throws SelfCopy when the source
    target contains the destination target, OverwriteConflict when
    the destination target contains the source target, and otherwise
    unlinks the destination and links it to the resolved source
    target. *)
Theorem existing_link_policy src dest opts destStat target target' fs :
  readlinkSync src fs = inr target ->
  readlinkSync dest fs = inr target' ->
  let resolvedSrc :=
    if dereference opts then path_resolve cwd target else target in
  let resolvedDest :=
    if dereference opts then path_resolve cwd target' else target' in
  (isSrcSubdir resolvedSrc resolvedDest = true ->
     onLink (Some destStat) src dest opts fs =
     Throw (SelfCopy resolvedSrc resolvedDest) fs) /\
  (isSrcSubdir resolvedSrc resolvedDest = false ->
   isSrcSubdir resolvedDest resolvedSrc = true ->
     onLink (Some destStat) src dest opts fs =
     Throw (OverwriteConflict resolvedDest resolvedSrc) fs) /\
  (isSrcSubdir resolvedSrc resolvedDest = false ->
   isSrcSubdir resolvedDest resolvedSrc = false ->
     onLink (Some destStat) src dest opts fs =
     bind (unlinkSync dest) (fun _ => symlinkSync resolvedSrc dest) fs).
Proof.
  intros Hs Hd resolvedSrc resolvedDest.
  unfold onLink. rewrite (bind_read _ _ _ _ Hs). rewrite Hd.
  fold resolvedSrc. fold resolvedDest.
  repeat split.
  - intros ->. reflexivity.
  - intros -> ->. reflexivity.
  - intros -> ->. reflexivity.
Qed.

(** A directory whose entries are all filtered out is left alone. *)
Lemma copyDirItems_all_filtered rec items src dest opts fs :
  (forall item, In item items ->
     filtered_out opts (path_join src item) (path_join dest item) = true) ->
  copyDirItems rec items src dest opts fs = Ret tt fs.
Proof.
  induction items as [|item items IH]; intros Hf; [reflexivity|].
  cbn [copyDirItems]. unfold bind at 1. unfold copyDirItem.
  rewrite (Hf item (or_introl eq_refl)). cbn.
  apply IH. intros i Hi. apply Hf. now right.
Qed.

(** C8. An entry for which the configured filter returns false is
    skipped: [copyDirItem] returns with the file system as it was,
    whatever the [getStats] it would have called does, and [copySync]
    on such a root returns or throws with the file system as it
    was. *)
Theorem filtered_entry_untouched f :
  (forall rec item src dest opts fs,
     filter opts = Some f ->
     f (path_join src item) (path_join dest item) = false ->
     copyDirItem rec item src dest opts fs = Ret tt fs) /\
  (forall fuel src dest a fs,
     filter (normalize a) = Some f ->
     f src dest = false ->
     copySync fuel src dest a fs = Ret tt fs \/
     exists e, copySync fuel src dest a fs = Throw e fs).
Proof.
  split.
  - intros rec item src dest opts fs Hf Hn. unfold copyDirItem, filtered_out.
    now rewrite Hf, Hn.
  - intros fuel src dest a fs Hf Hn. unfold copySync, bind, read.
    destruct (checkPathsSync src dest (normalize a) fs) as [e|stats];
      [right; now exists e|].
    destruct (checkParentPathsSync src (fst stats) dest fs) as [e|[]];
      [right; now exists e|].
    left. unfold filtered_out. now rewrite Hf, Hn.
Qed.

End AnyHost.

Import MemFs.

(** A witness for C6: [/src.txt] over
    [/dest.txt] with the default options; the bytes and the mode of the
    destination become those of the source. *)
Lemma existing_destination_policy_witness :
  lstatSync "/src.txt" two_files = inr (mkStats File 420 7 9) /\
  truthy (overwrite defaults) = true /\
  getStats 1 (Some (mkStats File 384 7 9)) "/src.txt" "/dest.txt" defaults
    two_files =
  Ret tt [("/src.txt", file 420 "new");
          ("/dest.txt", mkNode File 420 "new" "" 0 0)].
Proof.
  split; [reflexivity|]. split; [reflexivity|].
  assert (Hs : (if dereference defaults then statSync else lstatSync)
                 "/src.txt" two_files = inr (mkStats File 420 7 9))
    by reflexivity.
  destruct (existing_destination_policy 0 "/src.txt" "/dest.txt" defaults
              (mkStats File 384 7 9) (mkStats File 420 7 9) two_files
              Hs (or_introl eq_refl)) as (Hw & _ & _).
  rewrite (Hw eq_refl). reflexivity.
Defined.

(** The scenario of the specification: [overwrite=false],
    [errorOnExist=true] on an existing destination. *)
Example errorOnExist_scenario :
  copySync 1 "/src.txt" "/dest.txt" (OptionsObject no_overwrite) two_files =
  Throw (AlreadyExists "/dest.txt") two_files.
Proof. reflexivity. Qed.

(** A witness for C7: [/l1 -> /data/x] over
    [/l2 -> /other/y]. *)
Lemma existing_link_policy_witness :
  readlinkSync "/l1" two_links = inr "/data/x" /\
  readlinkSync "/l2" two_links = inr "/other/y" /\
  isSrcSubdir (Host := mem_host) "/data/x" "/other/y" = false /\
  isSrcSubdir (Host := mem_host) "/other/y" "/data/x" = false /\
  onLink (Some (mkStats SymbolicLink 511 0 0)) "/l1" "/l2" defaults two_links =
  Ret tt [("/l1", link "/data/x"); ("/l2", link "/data/x")].
Proof.
  repeat (split; [reflexivity|]).
  assert (H1 : readlinkSync "/l1" two_links = inr "/data/x") by reflexivity.
  assert (H2 : readlinkSync "/l2" two_links = inr "/other/y") by reflexivity.
  destruct (existing_link_policy "/l1" "/l2" defaults
              (mkStats SymbolicLink 511 0 0) "/data/x" "/other/y" two_links
              H1 H2) as (_ & _ & Hc).
  rewrite (Hc eq_refl eq_refl). reflexivity.
Defined.

(** A witness for C8: the filter rejects
    [/a/sub] while [/a] is copied into [/b]. *)
Lemma filtered_entry_untouched_witness :
  filter (normalize (FilterFunction skip_sub)) = Some skip_sub /\
  skip_sub (path_join (Host := mem_host) "/a" "sub")
           (path_join (Host := mem_host) "/b" "sub") = false /\
  copyDirItem (getStats 5) "sub" "/a" "/b"
    (normalize (FilterFunction skip_sub)) tree = Ret tt tree.
Proof.
  split; [reflexivity|]. split; [reflexivity|].
  destruct (filtered_entry_untouched (H := mem_host) skip_sub) as [Hi _].
  apply Hi; reflexivity.
Defined.

(** With that filter nothing of [/a/sub] reaches [/b]. *)
Example filtered_copy :
  copySync 5 "/a" "/b" (FilterFunction skip_sub) tree =
  Ret tt (tree ++ [("/b/f1.txt", mkNode File 420 "one" "" 0 0)])%list.
Proof. reflexivity. Qed.

End CopySyncFacts.

(* ===================================================================== *)
(** * More on the retry queue: invariants of the reachable states *)
(* ===================================================================== *)

Module RetryQueueInvFacts.
Import Js RetryQueue RetryQueueInv.
Local Open Scope list_scope.
Local Open Scope nat_scope.

Lemma last_snoc {A : Type} (l : list A) (x d : A) : last (l ++ [x]) d = x.
Proof.
  induction l as [|y l IH]; [reflexivity|].
  cbn. destruct (l ++ [x]) eqn:E; [now destruct l|exact IH].
Qed.

Lemma Forall_remove_nth {A : Type} (P : A -> Prop) (l : list A) :
  forall i, Forall P l -> Forall P (remove_nth i l).
Proof.
  induction l as [|x l IH]; intros [|i] H; cbn; auto;
    inversion H; subst; auto.
Qed.

Lemma tokens_fields c w w' n1 n2 n3 :
  List.length (filter (fun e => Nat.eqb (fn e) c) (queue w')) =
    List.length (filter (fun e => Nat.eqb (fn e) c) (queue w)) + n1 ->
  List.length (filter (fun p => Nat.eqb (p_call p) c) (inflight w')) =
    List.length (filter (fun p => Nat.eqb (p_call p) c) (inflight w)) + n2 ->
  List.length (filter (fun o => Nat.eqb (o_call o) c) (outputs w')) =
    List.length (filter (fun o => Nat.eqb (o_call o) c) (outputs w)) + n3 ->
  tokens c w' = tokens c w + (n1 + n2 + n3).
Proof. unfold tokens, queued, flying, outputs_of. lia. Qed.

Lemma entry_ok_grow cls cl e : entry_ok cls e -> entry_ok (cls ++ [cl]) e.
Proof.
  intros (c & Hn & Ha & He). exists c. repeat split; auto.
  rewrite nth_error_app1; [exact Hn|]. apply nth_error_Some. congruence.
Qed.

Lemma pending_ok_grow cls cl p : pending_ok cls p -> pending_ok (cls ++ [cl]) p.
Proof. unfold pending_ok. rewrite length_app. cbn. lia. Qed.

Lemma output_ok_grow cls cl o : output_ok cls o -> output_ok (cls ++ [cl]) o.
Proof.
  unfold output_ok. intros H.
  destruct (nth_error cls (o_call o)) eqn:Hn; [|discriminate].
  rewrite nth_error_app1; [now rewrite Hn|]. apply nth_error_Some. congruence.
Qed.

Lemma abandon_output_ok cls e :
  entry_ok cls e -> Forall (output_ok cls) (abandon_output e).
Proof.
  intros (cl & Hn & Ha & _). unfold abandon_output.
  rewrite Ha, last_snoc. destruct (c_cb cl) eqn:Hc; constructor; auto.
  unfold output_ok. cbn. now rewrite Hn, <- Hc.
Qed.

Lemma abandon_output_count e c f cls :
  entry_ok cls e ->
  option_map c_cb (nth_error cls c) = Some (VFun f) ->
  List.length (filter (fun o => Nat.eqb (o_call o) c) (abandon_output e)) =
  if Nat.eqb (fn e) c then 1 else 0.
Proof.
  intros (cl & Hn & Ha & _) Hc. unfold abandon_output.
  rewrite Ha, last_snoc.
  destruct (Nat.eqb_spec (fn e) c) as [<-|Hne].
  - rewrite Hn in Hc. cbn in Hc. injection Hc as ->. cbn.
    now rewrite Nat.eqb_refl.
  - destruct (c_cb cl); cbn; auto.
    destruct (Nat.eqb_spec (fn e) c); [contradiction|reflexivity].
Qed.

Section Steps.
Variable clock : nat -> Z.
Variable StringToNumber : string -> number.

Lemma attempt_fields k l w :
  queue (attempt clock k l w) = queue w /\
  retryTimer (attempt clock k l w) = retryTimer w /\
  closures (attempt clock k l w) = closures w /\
  outputs (attempt clock k l w) = outputs w /\
  exists st, inflight (attempt clock k l w) = inflight w ++ [mkPending k st].
Proof.
  unfold attempt, default_now, Date_now.
  destruct (hd VUndef l); cbn; repeat split; eauto.
Qed.

Lemma body_cases e w :
  let w' := retryQueue_body clock StringToNumber e w in
  closures w' = closures w /\ retryTimer w' = retryTimer w /\
  ((queue w' = queue w /\ inflight w' = inflight w /\
    outputs w' = outputs w ++ abandon_output e) \/
   (exists st, queue w' = queue w /\
      inflight w' = inflight w ++ [mkPending (fn e) st] /\
      outputs w' = outputs w) \/
   (exists st lt,
      queue w' = queue w ++ [mkEntry (fn e) (args e) (err e) st lt] /\
      inflight w' = inflight w /\ outputs w' = outputs w)).
Proof.
  cbv zeta. unfold retryQueue_body.
  pose proof (RetryQueueFacts.default_now_ticks clock (startTime e) w) as H1.
  destruct (default_now clock (startTime e) w) as [st w1]. cbn in H1.
  pose proof (RetryQueueFacts.default_now_ticks clock (lastTime e) w1) as H2.
  destruct (default_now clock (lastTime e) w1) as [lt w2]. cbn in H2.
  destruct H1 as (a1 & b1 & c1 & d1 & e1). destruct H2 as (a2 & b2 & c2 & d2 & e2).
  unfold Date_now.
  set (w3 := set_ticks (S (ticks w2)) w2). set (now := clock (ticks w2)).
  assert (Hq : queue w3 = queue w) by (cbn; congruence).
  assert (Ht : retryTimer w3 = retryTimer w) by (cbn; congruence).
  assert (Hc : closures w3 = closures w) by (cbn; congruence).
  assert (Hi : inflight w3 = inflight w) by (cbn; congruence).
  assert (Ho : outputs w3 = outputs w) by (cbn; congruence).
  clearbody w3 now.
  destruct (timed_out StringToNumber now st).
  - unfold call_cb, abandon_output.
    destruct (last (args e) VUndef); cbn; rewrite ?app_nil_r;
      repeat split; auto; left; repeat split; auto; now rewrite Ho.
  - destruct (is_due StringToNumber now st lt).
    + destruct (attempt_fields (fn e) (args e ++ [st]) w3)
        as (q & t & c & o & s & i).
      repeat split; try congruence. right. left. exists s.
      repeat split; congruence.
    + cbn. repeat split; auto. right. right. exists st, (VNum now).
      repeat split; congruence.
Qed.


Lemma on_complete_fields p e r w cl :
  nth_error (closures w) (p_call p) = Some cl ->
  let w' := on_complete clock p e r w in
  closures w' = closures w /\ inflight w' = inflight w /\
  match e with
  | Some x =>
      if is_exhaustion x then
        outputs w' = outputs w /\ retryTimer w' = true /\
        exists t, queue w' =
          queue w ++ [mkEntry (p_call p) (c_args cl ++ [c_cb cl]) x
                              (p_startTime p) (VNum t)]
      else
        queue w' = queue w /\ retryTimer w' = retryTimer w /\
        outputs w' = outputs w ++
          match c_cb cl with
          | VFun f => [mkOutput (p_call p) f e r]
          | _ => []
          end
  | None =>
      queue w' = queue w /\ retryTimer w' = retryTimer w /\
      outputs w' = outputs w ++
        match c_cb cl with
        | VFun f => [mkOutput (p_call p) f e r]
        | _ => []
        end
  end.
Proof.
  intros Hc. cbv zeta. unfold on_complete. rewrite Hc.
  assert (Hcb : forall e0,
    closures (call_cb (p_call p) (c_cb cl) e0 r w) = closures w /\
    inflight (call_cb (p_call p) (c_cb cl) e0 r w) = inflight w /\
    queue (call_cb (p_call p) (c_cb cl) e0 r w) = queue w /\
    retryTimer (call_cb (p_call p) (c_cb cl) e0 r w) = retryTimer w /\
    outputs (call_cb (p_call p) (c_cb cl) e0 r w) = outputs w ++
      match c_cb cl with
      | VFun f => [mkOutput (p_call p) f e0 r]
      | _ => []
      end).
  { intros e0. unfold call_cb. destruct (c_cb cl); cbn;
      rewrite ?app_nil_r; repeat split; auto. }
  destruct e as [x|].
  - destruct (is_exhaustion x).
    + unfold Date_now, enqueue, scheduleRetry. cbn.
      destruct (retryTimer w) eqn:Et; cbn; rewrite ?Et; cbn;
        repeat split; eauto.
    + destruct (Hcb (Some x)) as (a & b & c & d & f). repeat split; auto.
  - destruct (Hcb None) as (a & b & c & d & f). repeat split; auto.
Qed.

Lemma wrapWithRetry_fields l w :
  queue (wrapWithRetry clock l w) = queue w /\
  retryTimer (wrapWithRetry clock l w) = retryTimer w /\
  outputs (wrapWithRetry clock l w) = outputs w /\
  (exists cl, closures (wrapWithRetry clock l w) = closures w ++ [cl] /\
     (is_function (c_cb cl) = false -> c_cb cl = VUndef)) /\
  exists st, inflight (wrapWithRetry clock l w) =
             inflight w ++ [mkPending (List.length (closures w)) st].
Proof.
  unfold wrapWithRetry, attempt, default_now, Date_now. cbn.
  repeat split; eauto. eexists. split; [reflexivity|]. cbn.
  destruct (is_function (last l VUndef)) eqn:E; [congruence|reflexivity].
Qed.

(** The invariant of the drain loop. *)
Lemma body_consistent e q w :
  queue w = e :: q -> consistent w ->
  consistent (retryQueue_body clock StringToNumber e (set_queue q w)).
Proof.
  intros Hq [Cq Ci Co]. rewrite Hq in Cq. inversion Cq as [|? ? He Hrest]; subst.
  destruct (body_cases e (set_queue q w)) as (Hc & _ & Hcase).
  cbn in Hc, Hcase.
  destruct Hcase as [(a & b & c) | [(st & a & b & c) | (st & lt & a & b & c)]];
    split; rewrite Hc, ?a, ?b, ?c; auto.
  - apply Forall_app. split; [exact Co|]. now apply abandon_output_ok.
  - apply Forall_app. split; [exact Ci|]. constructor; [|constructor].
    destruct He as (cl & Hn & _). unfold pending_ok. cbn.
    apply nth_error_Some. congruence.
  - apply Forall_app. split; [exact Hrest|]. constructor; [|constructor].
    destruct He as (cl & Hn & Ha & Hx). exists cl. cbn. auto.
Qed.

Lemma body_tokens e q w c f :
  queue w = e :: q -> consistent w ->
  callback_of c w = Some (VFun f) ->
  tokens c (retryQueue_body clock StringToNumber e (set_queue q w)) = tokens c w.
Proof.
  intros Hq [Cq _ _] Hcb. rewrite Hq in Cq. inversion Cq as [|? ? He _]; subst.
  destruct (body_cases e (set_queue q w)) as (_ & _ & Hcase).
  cbn in Hcase.
  assert (Hshift : tokens c w =
            tokens c (set_queue q w) + (if Nat.eqb (fn e) c then 1 else 0)).
  { unfold tokens, queued, flying, outputs_of. cbn. rewrite Hq. cbn.
    destruct (Nat.eqb (fn e) c); cbn; symmetry;
      [apply Nat.add_1_r|apply Nat.add_0_r]. }
  rewrite Hshift.
  destruct Hcase as [(a & b & d) | [(st & a & b & d) | (st & lt & a & b & d)]].
  - erewrite (tokens_fields c (set_queue q w) _ 0 0).
    + rewrite !Nat.add_0_l. reflexivity.
    + rewrite a. cbn. lia.
    + rewrite b. cbn. lia.
    + rewrite d, RetryQueueFacts.count_app. f_equal.
      eapply abandon_output_count; eauto.
  - erewrite (tokens_fields c (set_queue q w) _ 0 (if Nat.eqb (fn e) c then 1 else 0) 0).
    + rewrite Nat.add_0_l, Nat.add_0_r. reflexivity.
    + rewrite a. cbn. lia.
    + rewrite b, RetryQueueFacts.count_app, RetryQueueFacts.count_one. reflexivity.
    + rewrite d. cbn. lia.
  - erewrite (tokens_fields c (set_queue q w) _ (if Nat.eqb (fn e) c then 1 else 0) 0 0).
    + rewrite !Nat.add_0_r. reflexivity.
    + rewrite a, RetryQueueFacts.count_app, RetryQueueFacts.count_one. reflexivity.
    + rewrite b. cbn. lia.
    + rewrite d. cbn. lia.
Qed.

Lemma retryQueue_inv fuel : forall w w',
  retryQueue clock StringToNumber fuel w = Some w' ->
  consistent w -> none_lost w -> consistent w' /\ none_lost w'.
Proof.
  induction fuel as [|fuel IH]; intros w w' H Hc Hn; cbn in H;
    destruct (queue w) as [|e q] eqn:Hq; try discriminate;
    try (injection H as <-; now split).
  apply (IH _ _ H).
  - now apply body_consistent.
  - intros c f Hcb.
    destruct (body_cases e (set_queue q w)) as (Hcl & _ & _). cbn in Hcl.
    unfold callback_of in Hcb. rewrite Hcl in Hcb.
    rewrite (body_tokens e q w c f Hq Hc Hcb). exact (Hn c f Hcb).
Qed.


Lemma consistent_ext w w' :
  queue w' = queue w -> closures w' = closures w ->
  inflight w' = inflight w -> outputs w' = outputs w ->
  consistent w -> consistent w'.
Proof. intros a b c d [x y z]. split; rewrite ?a, ?b, ?c, ?d; auto. Qed.

Lemma none_lost_ext w w' :
  queue w' = queue w -> closures w' = closures w ->
  inflight w' = inflight w -> outputs w' = outputs w ->
  none_lost w -> none_lost w'.
Proof.
  intros a b c d H k f. unfold callback_of, tokens, queued, flying, outputs_of.
  rewrite a, b, c, d. apply H.
Qed.

Lemma scheduleRetry_fields w :
  queue (scheduleRetry w) = queue w /\ closures (scheduleRetry w) = closures w /\
  inflight (scheduleRetry w) = inflight w /\ outputs (scheduleRetry w) = outputs w /\
  retryTimer (scheduleRetry w) = true.
Proof.
  unfold scheduleRetry. destruct (retryTimer w) eqn:E; cbn; auto.
Qed.

Lemma timer_inv fuel w w' :
  timer clock StringToNumber fuel w = Some w' ->
  consistent w -> none_lost w ->
  consistent w' /\ none_lost w' /\ (queue w' <> [] -> retryTimer w' = true).
Proof.
  unfold timer. intros H Hc Hn.
  destruct (retryQueue _ _ _ _) as [w1|] eqn:Hr; [|discriminate].
  injection H as <-.
  assert (Hc0 : consistent (set_retryTimer false w))
    by (now apply (consistent_ext w)).
  assert (Hn0 : none_lost (set_retryTimer false w))
    by (now apply (none_lost_ext w)).
  destruct (retryQueue_inv _ _ _ Hr Hc0 Hn0) as [Hc1 Hn1].
  destruct (queue w1) eqn:Hq.
  - split; [exact Hc1|]. split; [exact Hn1|]. intros Hne. now elim Hne.
  - destruct (scheduleRetry_fields w1) as (a & b & c & d & t).
    split; [now apply (consistent_ext w1)|].
    split; [now apply (none_lost_ext w1)|]. intros _. exact t.
Qed.

Lemma complete_inv i p e r w :
  nth_error (inflight w) i = Some p ->
  consistent w -> none_lost w -> (queue w <> [] -> retryTimer w = true) ->
  let w' := on_complete clock p e r (set_inflight (remove_nth i (inflight w)) w) in
  consistent w' /\ none_lost w' /\ (queue w' <> [] -> retryTimer w' = true).
Proof.
  intros Hp [Cq Ci Co] Hn Ht. cbv zeta.
  assert (Hpo : pending_ok (closures w) p).
  { rewrite Forall_forall in Ci. apply Ci. eapply nth_error_In; eauto. }
  destruct (nth_error (closures w) (p_call p)) as [cl|] eqn:Hcl.
  2:{ apply nth_error_None in Hcl. unfold pending_ok in Hpo. lia. }
  set (w0 := set_inflight (remove_nth i (inflight w)) w).
  assert (Hcl0 : nth_error (closures w0) (p_call p) = Some cl) by exact Hcl.
  pose proof (on_complete_fields p e r w0 cl Hcl0) as Hf. cbv zeta in Hf.
  destruct Hf as (Fc & Fi & Frest).
  assert (Hrem : forall c,
    List.length (filter (fun p0 => Nat.eqb (p_call p0) c)
                   (remove_nth i (inflight w))) +
    (if Nat.eqb (p_call p) c then 1 else 0) =
    List.length (filter (fun p0 => Nat.eqb (p_call p0) c) (inflight w))).
  { intros c.
    exact (RetryQueueFacts.count_remove_nth
             (fun p0 => Nat.eqb (p_call p0) c) _ _ _ Hp). }
  assert (Hi' : Forall (pending_ok (closures w)) (remove_nth i (inflight w)))
    by (now apply Forall_remove_nth).
  assert (Hout : forall e0,
    (forall c f, callback_of c w = Some (VFun f) ->
       List.length (filter (fun o => Nat.eqb (o_call o) c)
         match c_cb cl with
         | VFun f0 => [mkOutput (p_call p) f0 e0 r]
         | _ => []
         end) = if Nat.eqb (p_call p) c then 1 else 0) /\
    Forall (output_ok (closures w))
      match c_cb cl with
      | VFun f0 => [mkOutput (p_call p) f0 e0 r]
      | _ => []
      end).
  { intros e0. split.
    - intros c f Hcb. unfold callback_of in Hcb.
      destruct (Nat.eqb_spec (p_call p) c) as [<-|Hne].
      + rewrite Hcl in Hcb. cbn in Hcb. injection Hcb as ->. cbn.
        now rewrite Nat.eqb_refl.
      + destruct (c_cb cl); cbn; auto.
        destruct (Nat.eqb_spec (p_call p) c); [contradiction|reflexivity].
    - destruct (c_cb cl) eqn:Ecb; constructor; auto.
      unfold output_ok. cbn. now rewrite Hcl, <- Ecb. }
  assert (Hplain : forall e0,
    queue (on_complete clock p e r w0) = queue w0 ->
    retryTimer (on_complete clock p e r w0) = retryTimer w0 ->
    outputs (on_complete clock p e r w0) = outputs w0 ++
      match c_cb cl with
      | VFun f0 => [mkOutput (p_call p) f0 e0 r]
      | _ => []
      end ->
    consistent (on_complete clock p e r w0) /\
    none_lost (on_complete clock p e r w0) /\
    (queue (on_complete clock p e r w0) <> [] ->
     retryTimer (on_complete clock p e r w0) = true)).
  { intros e0 Fq Ft Fo. destruct (Hout e0) as [Hcount Hok]. split; [|split].
    - split; rewrite Fc, ?Fq, ?Fi, ?Fo; cbn; auto.
      apply Forall_app. now split.
    - intros c f Hcb. unfold callback_of in Hcb. rewrite Fc in Hcb.
      cbn in Hcb. rewrite <- (Hn c f Hcb).
      unfold tokens, queued, flying, outputs_of. rewrite Fq, Fi, Fo. cbn.
      rewrite RetryQueueFacts.count_app, (Hcount c f Hcb).
      specialize (Hrem c). lia.
    - rewrite Fq, Ft. exact Ht. }
  destruct e as [x|].
  - destruct (is_exhaustion x) eqn:Ex.
    + destruct Frest as (Fo & Ft & t & Fq). split; [|split].
      * split; rewrite Fc, ?Fq, ?Fi, ?Fo; cbn; auto.
        apply Forall_app. split; [exact Cq|]. constructor; [|constructor].
        exists cl. cbn. auto.
      * intros c f Hcb. unfold callback_of in Hcb. rewrite Fc in Hcb.
        cbn in Hcb. rewrite <- (Hn c f Hcb).
        unfold tokens, queued, flying, outputs_of. rewrite Fq, Fi, Fo. cbn.
        rewrite RetryQueueFacts.count_app, RetryQueueFacts.count_one. cbn.
        specialize (Hrem c). lia.
      * intros _. exact Ft.
    + destruct Frest as (Fq & Ft & Fo). now apply (Hplain (Some x)).
  - destruct Frest as (Fq & Ft & Fo). now apply (Hplain None).
Qed.


Lemma call_inv l w :
  wf w -> consistent w -> none_lost w ->
  consistent (wrapWithRetry clock l w) /\ none_lost (wrapWithRetry clock l w).
Proof.
  intros [_ Hm] [Cq Ci Co] Hn.
  destruct (wrapWithRetry_fields l w) as (Fq & _ & Fo & (cl & Fc & _) & st & Fi).
  split.
  - split; rewrite Fc, ?Fq, ?Fi, ?Fo.
    + eapply Forall_impl; [|exact Cq]. intros e. apply entry_ok_grow.
    + apply Forall_app. split.
      * eapply Forall_impl; [|exact Ci]. intros p. apply pending_ok_grow.
      * constructor; [|constructor]. unfold pending_ok. cbn.
        rewrite length_app. cbn. lia.
    + eapply Forall_impl; [|exact Co]. intros o. apply output_ok_grow.
  - intros c f Hcb. unfold callback_of in Hcb. rewrite Fc in Hcb.
    unfold tokens, queued, flying, outputs_of. rewrite Fq, Fi, Fo.
    rewrite RetryQueueFacts.count_app, RetryQueueFacts.count_one. cbn.
    destruct (Nat.lt_trichotomy c (List.length (closures w))) as [Hlt|[->|Hgt]].
    + rewrite nth_error_app1 in Hcb by exact Hlt.
      specialize (Hn c f Hcb). unfold tokens, queued, flying, outputs_of in Hn.
      destruct (Nat.eqb_spec (List.length (closures w)) c); lia.
    + specialize (Hm _ (Nat.le_refl _)).
      unfold tokens, queued, flying, outputs_of in Hm.
      rewrite Nat.eqb_refl. lia.
    + assert (Hnone : nth_error (closures w ++ [cl]) c = None).
      { apply nth_error_None. rewrite length_app. cbn. lia. }
      rewrite Hnone in Hcb. discriminate.
Qed.

Lemma resetQueue_fields w :
  closures (resetQueue clock w) = closures w /\
  inflight (resetQueue clock w) = inflight w /\
  outputs (resetQueue clock w) = outputs w /\
  retryTimer (resetQueue clock w) = true /\
  queue (resetQueue clock w) =
    map (fun job => mkEntry (fn job) (args job) (err job)
                      (VNum (clock (ticks w))) (VNum (clock (ticks w))))
        (queue w).
Proof.
  unfold resetQueue, Date_now.
  match goal with |- context [scheduleRetry ?x] =>
    destruct (scheduleRetry_fields x) as (a & b & c & d & t) end.
  rewrite a, b, c, d, t. cbn. auto.
Qed.

Lemma reset_inv w :
  consistent w -> none_lost w ->
  consistent (resetQueue clock w) /\ none_lost (resetQueue clock w).
Proof.
  intros [Cq Ci Co] Hn.
  destruct (resetQueue_fields w) as (Fc & Fi & Fo & _ & Fq). split.
  - split; rewrite Fc, ?Fq, ?Fi, ?Fo; auto.
    apply Forall_map. eapply Forall_impl; [|exact Cq].
    intros e (cl & a & b & c). exists cl. cbn. auto.
  - intros c f Hcb. unfold callback_of in Hcb. rewrite Fc in Hcb.
    rewrite <- (Hn c f Hcb).
    unfold tokens, queued, flying, outputs_of. rewrite Fq, Fi, Fo.
    now rewrite RetryQueueFacts.count_map.
Qed.

Lemma step_inv ev w w' :
  step clock StringToNumber ev w = Some w' -> inv w -> inv w'.
Proof.
  intros H (Hw & Hc & Hn & Ht).
  split; [eapply RetryQueueFacts.step_wf; eauto|].
  destruct ev as [l|i e r|fuel|]; cbv beta iota delta [step] in H.
  - injection H as <-. destruct (call_inv l w Hw Hc Hn) as [a b].
    split; [exact a|]. split; [exact b|].
    destruct (wrapWithRetry_fields l w) as (Fq & Ft & _). now rewrite Fq, Ft.
  - destruct (nth_error (inflight w) i) as [p|] eqn:Hp; [|discriminate].
    injection H as <-. exact (complete_inv i p e r w Hp Hc Hn Ht).
  - destruct (retryTimer w); [|discriminate].
    exact (timer_inv fuel w w' H Hc Hn).
  - injection H as <-. destruct (reset_inv w Hc Hn) as [a b].
    split; [exact a|]. split; [exact b|]. intros _.
    now destruct (resetQueue_fields w) as (_ & _ & _ & t & _).
Qed.

Lemma init_inv : inv init.
Proof.
  split; [apply RetryQueueFacts.init_wf|]. split; [split; constructor|].
  split; [intros c f H; destruct c; discriminate|]. intros H. now elim H.
Qed.

Lemma run_inv evs : forall w w',
  run clock StringToNumber evs w = Some w' -> inv w -> inv w'.
Proof.
  induction evs as [|ev evs IH]; intros w w' H Hw; cbn in H.
  - now injection H as <-.
  - destruct (step _ _ ev w) as [w1|] eqn:Hs; [|discriminate].
    eapply IH; [exact H|]. eapply step_inv; eauto.
Qed.

(** X1. In every state that a run reaches, a wrapped call that was made with
    a callback is in exactly one place: one queue entry, or one attempt in
    flight, or one invocation of its callback.  No call is lost and no
    callback is invoked twice. *)
Theorem call_in_exactly_one_place evs w c f :
  run clock StringToNumber evs init = Some w ->
  callback_of c w = Some (VFun f) ->
  queued c w + flying c w + List.length (outputs_of c w) = 1.
Proof.
  intros H Hcb. destruct (run_inv evs _ _ H init_inv) as (_ & _ & Hn & _).
  exact (Hn c f Hcb).
Qed.

(** X2. In every state that a run reaches, each queued entry carries an
    EMFILE or ENFILE error and the arguments of its call followed by the
    callback of that call, each operation in flight belongs to a call
    that was made, and each callback invocation is one of the callback
    that the call was made with. *)
Theorem reachable_state_consistent evs w :
  run clock StringToNumber evs init = Some w ->
  Forall (fun e => exists cl,
            nth_error (closures w) (fn e) = Some cl /\
            args e = c_args cl ++ [c_cb cl] /\
            is_exhaustion (err e) = true) (queue w) /\
  Forall (fun p => p_call p < List.length (closures w)) (inflight w) /\
  Forall (fun o => callback_of (o_call o) w = Some (VFun (o_cb o))) (outputs w).
Proof.
  intros H. destruct (run_inv evs _ _ H init_inv) as (_ & [a b c] & _).
  repeat split; assumption.
Qed.

(** X3. In every state that a run reaches, the retry timer is pending
    whenever the queue holds an entry. *)
Theorem queued_entries_have_timer evs w :
  run clock StringToNumber evs init = Some w ->
  queue w <> [] -> retryTimer w = true.
Proof.
  intros H. now destruct (run_inv evs _ _ H init_inv) as (_ & _ & _ & Ht).
Qed.


(** X4. A completion with EMFILE or ENFILE is not reported: in a state that
    a run reaches, it invokes no callback, appends one entry for the call
    to the tail of the queue, with the captured arguments, the callback,
    the error, the start time of the attempt and the current time, and
    leaves the retry timer pending. *)
Theorem exhaustion_failure_is_queued evs w i p x r :
  run clock StringToNumber evs init = Some w ->
  nth_error (inflight w) i = Some p ->
  is_exhaustion x = true ->
  exists w' cl,
    step clock StringToNumber (Complete i (Some x) r) w = Some w' /\
    nth_error (closures w) (p_call p) = Some cl /\
    queue w' = queue w ++
      [mkEntry (p_call p) (c_args cl ++ [c_cb cl]) x (p_startTime p)
               (VNum (clock (ticks w)))] /\
    outputs w' = outputs w /\
    inflight w' = remove_nth i (inflight w) /\
    retryTimer w' = true.
Proof.
  intros H Hp Hx.
  destruct (run_inv evs _ _ H init_inv) as (_ & [_ Ci _] & _).
  assert (Hpo : pending_ok (closures w) p).
  { rewrite Forall_forall in Ci. apply Ci. eapply nth_error_In; eauto. }
  destruct (nth_error (closures w) (p_call p)) as [cl|] eqn:Hcl.
  2:{ apply nth_error_None in Hcl. unfold pending_ok in Hpo. lia. }
  eexists. exists cl. cbv beta iota delta [step]. rewrite Hp.
  split; [reflexivity|]. split; [reflexivity|].
  unfold on_complete. cbn [closures set_inflight]. rewrite Hcl, Hx.
  unfold Date_now, enqueue, scheduleRetry. cbn.
  destruct (retryTimer w) eqn:Et; cbn; rewrite ?Et; auto.
Qed.

(** X5. One step of the drain loop takes the head entry off the queue and
    either abandons it (its last argument, when it is a function, is
    called with the error of the entry), or starts one attempt of its
    call, or appends it to the queue with the same [fn], [args] and
    [err]; the other entries, the operations in flight and the earlier
    callback invocations are kept as they are, in their order. *)
Theorem drain_step_keeps_the_rest e q w :
  queue w = e :: q ->
  let w' := scan clock StringToNumber 1 w in
  closures w' = closures w /\ retryTimer w' = retryTimer w /\
  ((queue w' = q /\ inflight w' = inflight w /\
    outputs w' = outputs w ++ abandon_output e) \/
   (exists st, queue w' = q /\
      inflight w' = inflight w ++ [mkPending (fn e) st] /\
      outputs w' = outputs w) \/
   (exists st lt,
      queue w' = q ++ [mkEntry (fn e) (args e) (err e) st lt] /\
      inflight w' = inflight w /\ outputs w' = outputs w)).
Proof.
  intros Hq. cbv zeta. cbn [scan]. rewrite Hq.
  exact (body_cases e (set_queue q w)).
Qed.

Lemma body_timed_out e w st lt :
  startTime e = VNum st -> lastTime e = VNum lt ->
  timed_out StringToNumber (clock (ticks w)) (VNum st) = true ->
  let w' := retryQueue_body clock StringToNumber e w in
  queue w' = queue w /\ retryTimer w' = retryTimer w /\
  closures w' = closures w /\ inflight w' = inflight w /\
  outputs w' = outputs w ++ abandon_output e /\ ticks w' = S (ticks w).
Proof.
  intros Hs Hl Ht. cbv zeta. unfold retryQueue_body.
  rewrite Hs, Hl. cbn [default_now]. unfold Date_now. rewrite Ht.
  unfold call_cb, abandon_output.
  destruct (last (args e) VUndef); cbn; rewrite ?app_nil_r; auto 10.
Qed.

(** X6. A drain pass over a backlog whose entries are all past their
    deadline (at every reading of the clock from now on) completes after
    one step per entry: the queue is empty, each entry that has a
    callback had it called with its error, in queue order, and no
    attempt was started. *)
Theorem stale_backlog_is_abandoned q : forall w,
  queue w = q ->
  Forall (fun e => exists st lt,
            startTime e = VNum st /\ lastTime e = VNum lt /\
            forall k, ticks w <= k -> (clock k - st >= 60000)%Z) q ->
  exists w',
    retryQueue clock StringToNumber (List.length q) w = Some w' /\
    queue w' = [] /\ inflight w' = inflight w /\
    outputs w' = outputs w ++ flat_map abandon_output q /\
    ticks w' = ticks w + List.length q.
Proof.
  induction q as [|e q IH]; intros w Hq Hall.
  - exists w. cbn. rewrite Hq, app_nil_r, Nat.add_0_r. auto.
  - inversion Hall as [|? ? (st & lt & Hs & Hl & Hk) Hrest]; subst.
    cbn [List.length retryQueue]. rewrite Hq.
    set (w0 := set_queue q w).
    assert (Ht : timed_out StringToNumber (clock (ticks w0)) (VNum st) = true).
    { unfold timed_out, js_ge, js_sub, ToNumber, num. rewrite Qle_bool_iff.
      specialize (Hk (ticks w) (Nat.le_refl _)). cbn [ticks w0 set_queue].
      unfold Qle, Qminus, Qplus, Qopp, inject_Z.
      cbn -[Z.mul Z.add Z.sub Z.opp]. lia. }
    destruct (body_timed_out e w0 st lt Hs Hl Ht) as (a & b & c & d & o & t).
    cbv zeta in a, b, c, d, o, t.
    destruct (IH (retryQueue_body clock StringToNumber e w0)) as (w' & Hr & x1 & x2 & x3 & x4).
    + exact a.
    + eapply Forall_impl; [|exact Hrest].
      intros e' (st' & lt' & p1 & p2 & p3). exists st', lt'.
      repeat split; auto. intros k Hle. apply p3. rewrite t in Hle.
      cbn in Hle. lia.
    + exists w'. split; [exact Hr|]. rewrite x2, x3, x4, d, o, t. cbn.
      rewrite <- app_assoc. repeat split; auto; lia.
Qed.

(** X7. After [resetQueue] the queue holds the same entries in the same
    order, with the same [fn], [args] and [err], the retry timer is
    pending, and both time stamps of every entry are the time [t] of the
    reset.  So the next time such an entry is examined by the drain
    loop, at the clock reading [now], it is abandoned when
    [now - t >= 60000], otherwise retried when [now - t >= 2], and
    otherwise deferred with [now] as its last time. *)
Theorem reset_rewinds_every_entry w :
  let w' := resetQueue clock w in
  let t := clock (ticks w) in
  map fn (queue w') = map fn (queue w) /\
  map args (queue w') = map args (queue w) /\
  map err (queue w') = map err (queue w) /\
  retryTimer w' = true /\
  Forall (fun e =>
            startTime e = VNum t /\ lastTime e = VNum t /\
            forall w1 q, queue w1 = e :: q ->
              let now := clock (ticks w1) in
              let w3 := set_ticks (S (ticks w1)) (set_queue q w1) in
              scan clock StringToNumber 1 w1 =
              if (60000 <=? now - t)%Z then
                call_cb (fn e) (last (args e) VUndef) (Some (err e)) [] w3
              else if (2 <=? now - t)%Z then
                attempt clock (fn e) (args e ++ [VNum t]) w3
              else
                set_queue
                  (q ++ [mkEntry (fn e) (args e) (err e) (VNum t) (VNum now)])
                  w3) (queue w').
Proof.
  cbv zeta. destruct (resetQueue_fields w) as (_ & _ & _ & Ht & Hq).
  rewrite Hq, !map_map. cbn [fn args err].
  repeat split; auto.
  apply Forall_map. apply Forall_forall. intros e _. cbn [startTime lastTime].
  split; [reflexivity|]. split; [reflexivity|].
  intros w1 q Hq1. cbn [scan]. rewrite Hq1.
  rewrite (RetryQueueFacts.retryQueue_body_numeric clock StringToNumber
             (mkEntry (fn e) (args e) (err e) (VNum (clock (ticks w)))
                      (VNum (clock (ticks w)))) _
             (clock (ticks w)) (clock (ticks w)) eq_refl eq_refl).
  cbn [fn args err ticks set_queue queue].
  destruct (Z.leb_spec 60000 (clock (ticks w1) - clock (ticks w)));
    [reflexivity|].
  replace (clock (ticks w) - clock (ticks w))%Z with 0%Z by lia.
  change (Z.max 0 1) with 1%Z.
  destruct (Z.leb_spec 2 (clock (ticks w1) - clock (ticks w))) as [H2|H2].
  - destruct (Z.leb_spec (6 * 1) (5 * (clock (ticks w1) - clock (ticks w))));
      [reflexivity|lia].
  - destruct (Z.leb_spec (6 * 1) (5 * (clock (ticks w1) - clock (ticks w))));
      [lia|].
    destruct (Z.leb_spec 100 (clock (ticks w1) - clock (ticks w)));
      [lia|reflexivity].
Qed.

(** X8. One iteration of the drain loop on a head entry with numeric time
    stamps, at the clock reading [now], in whole milliseconds: the entry
    is abandoned when [now - startTime >= 60000]; otherwise it is
    retried when the time [d = now - lastTime] since its last attempt
    satisfies [5 d >= 6 max(lastTime - startTime, 1)] or [d >= 100]
    (1.2 times what it had waited at its last attempt, at most 100 ms);
    otherwise it goes to the tail of the queue with [now] as its last
    time. *)
Theorem due_in_whole_milliseconds e q w st lt :
  queue w = e :: q -> startTime e = VNum st -> lastTime e = VNum lt ->
  let now := clock (ticks w) in
  let w3 := set_ticks (S (ticks w)) (set_queue q w) in
  let w' := scan clock StringToNumber 1 w in
  ((now - st >= 60000)%Z ->
     w' = call_cb (fn e) (last (args e) VUndef) (Some (err e)) [] w3) /\
  ((now - st < 60000)%Z ->
   (5 * (now - lt) >= 6 * Z.max (lt - st) 1 \/ now - lt >= 100)%Z ->
     w' = attempt clock (fn e) (args e ++ [VNum st]) w3) /\
  ((now - st < 60000)%Z ->
   (5 * (now - lt) < 6 * Z.max (lt - st) 1)%Z -> (now - lt < 100)%Z ->
     w' = set_queue
            (q ++ [mkEntry (fn e) (args e) (err e) (VNum st) (VNum now)]) w3).
Proof.
  intros Hq Hs Hl. cbv zeta. cbn [scan]. rewrite Hq.
  rewrite (RetryQueueFacts.retryQueue_body_numeric clock StringToNumber e _
             st lt Hs Hl).
  cbn [ticks set_queue queue].
  destruct (Z.leb_spec 60000 (clock (ticks w) - st)) as [Hto|Hto];
    (split; [|split]); try (intros; lia); try reflexivity.
  - intros _ Hd.
    destruct (Z.leb_spec (6 * Z.max (lt - st) 1) (5 * (clock (ticks w) - lt)));
      [reflexivity|].
    destruct (Z.leb_spec 100 (clock (ticks w) - lt)); [reflexivity|lia].
  - intros _ Hd Hd'.
    destruct (Z.leb_spec (6 * Z.max (lt - st) 1) (5 * (clock (ticks w) - lt)));
      [lia|].
    destruct (Z.leb_spec 100 (clock (ticks w) - lt)); [lia|reflexivity].
Qed.

End Steps.

Local Open Scope Z_scope.

(** X9. The threshold of an entry with numeric time stamps lies between
    1.2 ms and 100 ms. *)
Theorem delay_between_bounds S st lt :
  exists d, delay_of S (VNum st) (VNum lt) = Some d /\
    (12 # 10 <= d)%Q /\ (d <= 100)%Q.
Proof.
  eexists. split; [reflexivity|]. split.
  - apply Q.min_glb; [|discriminate].
    destruct (Q.max_spec (inject_Z lt - inject_Z st) (inject_Z 1))
      as [[h1 h2]|[h1 h2]]; rewrite h2;
      unfold Qle, Qlt, Qminus, Qplus, Qopp, Qmult, inject_Z in *;
      cbn -[Z.mul Z.add Z.sub Z.opp Z.max] in *; lia.
  - apply Q.le_min_r.
Qed.


Local Close Scope Z_scope.

(** A witness for X1. *)
Lemma call_in_exactly_one_place_witness :
  run fd_clock (fun _ => NaN)
      (success_prefix ++ Complete 0 None [VNum 3] :: success_suffix) init =
    Some success_w2 /\
  callback_of 1 success_w2 = Some (VFun 8) /\
  queued 1 success_w2 + flying 1 success_w2 +
    List.length (outputs_of 1 success_w2) = 1.
Proof.
  split; [reflexivity|]. split; [reflexivity|].
  apply (call_in_exactly_one_place fd_clock (fun _ => NaN)
           (success_prefix ++ Complete 0 None [VNum 3] :: success_suffix)
           success_w2 1 8); reflexivity.
Defined.

(** A witness for X2. *)
Lemma reachable_state_consistent_witness :
  run two_step_clock (fun _ => NaN) not_due_events init = Some not_due_world /\
  Forall (fun e => exists cl,
            nth_error (closures not_due_world) (fn e) = Some cl /\
            args e = c_args cl ++ [c_cb cl] /\
            is_exhaustion (err e) = true) (queue not_due_world) /\
  Forall (fun p => p_call p < List.length (closures not_due_world))
         (inflight not_due_world) /\
  Forall (fun o => callback_of (o_call o) not_due_world = Some (VFun (o_cb o)))
         (outputs not_due_world).
Proof.
  split; [reflexivity|].
  apply (reachable_state_consistent two_step_clock (fun _ => NaN)
           not_due_events not_due_world). reflexivity.
Defined.

(** A witness for X3. *)
Lemma queued_entries_have_timer_witness :
  run two_step_clock (fun _ => NaN) not_due_events init = Some not_due_world /\
  queue not_due_world <> [] /\
  retryTimer not_due_world = true.
Proof.
  split; [reflexivity|]. split; [discriminate|].
  apply (queued_entries_have_timer two_step_clock (fun _ => NaN)
           not_due_events not_due_world); [reflexivity|discriminate].
Defined.

(** A witness for X4. *)
Lemma exhaustion_failure_is_queued_witness :
  run fd_clock (fun _ => NaN) eacces_prefix init = Some eacces_w1 /\
  nth_error (inflight eacces_w1) 0 = Some (mkPending 0 (VNum 1000000)) /\
  is_exhaustion (emfile 0) = true /\
  exists w' cl,
    step fd_clock (fun _ => NaN) (Complete 0 (Some (emfile 0)) []) eacces_w1 =
      Some w' /\
    nth_error (closures eacces_w1) 0 = Some cl /\
    queue w' = queue eacces_w1 ++
      [mkEntry 0 (c_args cl ++ [c_cb cl]) (emfile 0) (VNum 1000000)
               (VNum (fd_clock (ticks eacces_w1)))] /\
    outputs w' = outputs eacces_w1 /\
    inflight w' = remove_nth 0 (inflight eacces_w1) /\
    retryTimer w' = true.
Proof.
  repeat (split; [reflexivity|]).
  apply (exhaustion_failure_is_queued fd_clock (fun _ => NaN) eacces_prefix
           eacces_w1 0 (mkPending 0 (VNum 1000000)) (emfile 0) []);
    reflexivity.
Defined.

(** A witness for X5. *)
Lemma drain_step_keeps_the_rest_witness :
  queue not_due_world = [not_due_entry] /\
  let w' := scan two_step_clock (fun _ => NaN) 1 not_due_world in
  closures w' = closures not_due_world /\
  retryTimer w' = retryTimer not_due_world /\
  ((queue w' = [] /\ inflight w' = inflight not_due_world /\
    outputs w' = outputs not_due_world ++ abandon_output not_due_entry) \/
   (exists st, queue w' = [] /\
      inflight w' = inflight not_due_world ++ [mkPending (fn not_due_entry) st] /\
      outputs w' = outputs not_due_world) \/
   (exists st lt,
      queue w' = [] ++ [mkEntry (fn not_due_entry) (args not_due_entry)
                                (err not_due_entry) st lt] /\
      inflight w' = inflight not_due_world /\
      outputs w' = outputs not_due_world)).
Proof.
  split; [reflexivity|].
  apply (drain_step_keeps_the_rest two_step_clock (fun _ => NaN)
           not_due_entry [] not_due_world). reflexivity.
Defined.

(** A witness for X6. *)
Lemma stale_backlog_is_abandoned_witness :
  queue stale_world = queue stale_world /\
  exists w',
    retryQueue stale_clock (fun _ => NaN) 2 stale_world = Some w' /\
    queue w' = [] /\ inflight w' = inflight stale_world /\
    outputs w' = outputs stale_world ++
                 flat_map abandon_output (queue stale_world) /\
    ticks w' = ticks stale_world + 2.
Proof.
  split; [reflexivity|].
  apply (stale_backlog_is_abandoned stale_clock (fun _ => NaN)
           (queue stale_world) stale_world eq_refl).
  repeat constructor.
  - exists 0%Z, 10%Z. repeat split. intros k _. unfold stale_clock. lia.
  - exists 5%Z, 20%Z. repeat split. intros k _. unfold stale_clock. lia.
Defined.

(** A witness for X8. *)
Lemma due_in_whole_milliseconds_witness :
  scan two_step_clock (fun _ => NaN) 1 (set_retryTimer false not_due_world) =
  mkWorld
    [mkEntry 0 [VStr "/tmp/x"; VFun 7] (emfile 0) (VNum 1000000) (VNum 1000001)]
    false [mkClosure [VStr "/tmp/x"] (VFun 7)] [] [] 3.
Proof.
  destruct (due_in_whole_milliseconds two_step_clock (fun _ => NaN)
              not_due_entry [] (set_retryTimer false not_due_world)
              1000000%Z 1000000%Z eq_refl eq_refl eq_refl) as (_ & _ & Hd).
  rewrite Hd; [reflexivity| | |]; vm_compute; reflexivity.
Defined.

End RetryQueueInvFacts.

(* ===================================================================== *)
(** * Results on the retries of [read], [readSync] and [rename] *)
(* ===================================================================== *)

Module IoRetryFacts.
Import Js IoRetry.
Local Open Scope nat_scope.

Lemma retryingCb_stop origRead a :
  a <= 10 ->
  (is_eagain (fst (origRead a)) = true -> a = 10) ->
  let c := mkCompletion (fst (origRead a)) (snd (origRead a)) (S a) in
  a < c_calls c /\ c_calls c <= 11 /\
  (c_err c, c_res c) = origRead (c_calls c - 1) /\
  (forall j, a <= j -> j < c_calls c - 1 ->
     is_eagain (fst (origRead j)) = true) /\
  (is_eagain (c_err c) = true -> c_calls c = 11).
Proof.
  intros Ha He. cbn. rewrite Nat.sub_0_r.
  split; [lia|]. split; [lia|]. split; [now destruct (origRead a)|].
  split; [intros j H1 H2; lia|]. intros E. specialize (He E). lia.
Qed.

Lemma retryingCb_spec origRead fuel : forall a,
  a <= 10 -> 10 - a <= fuel ->
  exists c, retryingCb origRead fuel a a = Some c /\
    a < c_calls c /\ c_calls c <= 11 /\
    (c_err c, c_res c) = origRead (c_calls c - 1) /\
    (forall j, a <= j -> j < c_calls c - 1 ->
       is_eagain (fst (origRead j)) = true) /\
    (is_eagain (c_err c) = true -> c_calls c = 11).
Proof.
  induction fuel as [|fuel IH]; intros a Ha Hf; cbn [retryingCb];
    destruct (is_eagain (fst (origRead a))) eqn:E;
    try (eexists; split; [reflexivity|];
         apply (retryingCb_stop origRead a Ha); congruence).
  - assert (a = 10) by lia. subst a. cbn [Nat.ltb Nat.leb].
    eexists. split; [reflexivity|]. now apply (retryingCb_stop origRead 10).
  - destruct (Nat.ltb_spec a 10) as [Hlt|Hge].
    + destruct (IH (S a)) as (c & Hc & H1 & H2 & H3 & H4 & H5); try lia.
      exists c. split; [exact Hc|].
      split; [lia|]. split; [lia|]. split; [exact H3|]. split; [|exact H5].
      intros j Hj1 Hj2. destruct (Nat.eq_dec j a) as [->|Hne]; [exact E|].
      apply H4; lia.
    + eexists. split; [reflexivity|].
      apply (retryingCb_stop origRead a Ha). lia.
Qed.

(** X10. The patched [read] calls the underlying [read] at most 11 times: the
    caller's callback receives the first completion that is not EAGAIN,
    or the eleventh completion, whatever it is. *)
Theorem read_retries_at_most_ten_times origRead fuel :
  10 <= fuel ->
  exists c, read origRead fuel = Some c /\
    1 <= c_calls c /\ c_calls c <= 11 /\
    (c_err c, c_res c) = origRead (c_calls c - 1) /\
    (forall j, j < c_calls c - 1 -> is_eagain (fst (origRead j)) = true) /\
    (is_eagain (c_err c) = true -> c_calls c = 11).
Proof.
  intros Hf. destruct (retryingCb_spec origRead fuel 0) as
    (c & Hc & H1 & H2 & H3 & H4 & H5); try lia.
  exists c. split; [exact Hc|]. repeat split; auto; try lia.
  intros j Hj. apply H4; lia.
Qed.

Lemma readSync_stop origReadSync a :
  a <= 10 ->
  ((exists e, origReadSync a = inl e /\ code e = "EAGAIN"%string) -> a = 10) ->
  let s := mkSync (origReadSync a) (S a) in
  a < s_calls s /\ s_calls s <= 11 /\
  s_result s = origReadSync (s_calls s - 1) /\
  (forall j, a <= j -> j < s_calls s - 1 ->
     exists e, origReadSync j = inl e /\ code e = "EAGAIN"%string) /\
  ((exists e, s_result s = inl e /\ code e = "EAGAIN"%string) ->
   s_calls s = 11).
Proof.
  intros Ha He. cbn. rewrite Nat.sub_0_r.
  split; [lia|]. split; [lia|]. split; [reflexivity|].
  split; [intros j H1 H2; lia|]. intros E. specialize (He E). lia.
Qed.

Lemma readSync_loop_spec origReadSync fuel : forall a,
  a <= 10 -> 10 - a <= fuel ->
  exists s, readSync_loop origReadSync fuel a a = Some s /\
    a < s_calls s /\ s_calls s <= 11 /\
    s_result s = origReadSync (s_calls s - 1) /\
    (forall j, a <= j -> j < s_calls s - 1 ->
       exists e, origReadSync j = inl e /\ code e = "EAGAIN"%string) /\
    ((exists e, s_result s = inl e /\ code e = "EAGAIN"%string) ->
     s_calls s = 11).
Proof.
  induction fuel as [|fuel IH]; intros a Ha Hf; cbn [readSync_loop];
    pose proof (readSync_stop origReadSync a Ha) as Hstop; cbv zeta in Hstop;
    destruct (origReadSync a) as [err|v] eqn:E;
    try (eexists; split; [reflexivity|]; apply Hstop;
         intros (e & He & _); discriminate).
  - assert (a = 10) by lia. subst a. cbn [Nat.ltb Nat.leb].
    destruct (String.eqb (code err) "EAGAIN");
      (eexists; split; [reflexivity|]); now apply Hstop.
  - destruct (String.eqb_spec (code err) "EAGAIN") as [Hc|Hc].
    + destruct (Nat.ltb_spec a 10) as [Hlt|Hge].
      * destruct (IH (S a)) as (s & Hs & H1 & H2 & H3 & H4 & H5); try lia.
        exists s. split; [exact Hs|].
        split; [lia|]. split; [lia|]. split; [exact H3|]. split; [|exact H5].
        intros j Hj1 Hj2. destruct (Nat.eq_dec j a) as [->|Hne]; [eauto|].
        apply H4; lia.
      * eexists. split; [reflexivity|]. apply Hstop. lia.
    + eexists. split; [reflexivity|]. apply Hstop.
      intros (e & He & Hce). congruence.
Qed.

(** X11. The patched [readSync] returns: it calls the underlying [readSync]
    at most 11 times and gives the first result that is not an EAGAIN
    error (a value, or another error, which it throws), or the eleventh
    result, whatever it is. *)
Theorem readSync_retries_at_most_ten_times origReadSync fuel :
  10 <= fuel ->
  exists s, readSync origReadSync fuel = Some s /\
    1 <= s_calls s /\ s_calls s <= 11 /\
    s_result s = origReadSync (s_calls s - 1) /\
    (forall j, j < s_calls s - 1 ->
       exists e, origReadSync j = inl e /\ code e = "EAGAIN"%string) /\
    ((exists e, s_result s = inl e /\ code e = "EAGAIN"%string) ->
     s_calls s = 11).
Proof.
  intros Hf. destruct (readSync_loop_spec origReadSync fuel 0) as
    (s & Hs & H1 & H2 & H3 & H4 & H5); try lia.
  exists s. split; [exact Hs|]. repeat split; auto; try lia.
  intros j Hj. apply H4; lia.
Qed.


(** The delay of the [i]-th timer of the patched [rename]. *)
Lemma backoff_next k :
  Z.min (Z.min (10 * Z.of_nat k) 100 + 10) 100 = Z.min (10 * Z.of_nat (S k)) 100.
Proof. lia. Qed.

Lemma seq_snoc k : seq 0 (S k) = seq 0 k ++ [k].
Proof. rewrite seq_S. reflexivity. Qed.

Lemma retry_spec clock origRename stat_to fuel : forall k r,
  retry clock origRename stat_to fuel k (Z.min (10 * Z.of_nat k) 100)
        (map (fun i => Z.min (10 * Z.of_nat i) 100) (seq 0 k)) = Some r ->
  r_err r = origRename (r_renames r - 1) /\
  k < r_renames r /\ r_renames r <= S (k + fuel) /\
  r_delays r = map (fun i => Z.min (10 * Z.of_nat i) 100)
                   (seq 0 (List.length (r_delays r))) /\
  (List.length (r_delays r) = r_renames r - 1 \/
   List.length (r_delays r) = r_renames r) /\
  (forall j, k <= j -> j < r_renames r - 1 ->
     origRename j <> None /\ is_enoent (stat_to j) = true /\
     (clock (S j) - clock 0%nat < 60000)%Z).
Proof.
  induction fuel as [|fuel IH]; intros k r H; cbn [retry] in H;
    destruct (origRename k) as [err|] eqn:E;
    try (injection H as <-; cbn; rewrite Nat.sub_0_r, length_map, length_seq;
         repeat split; auto; try lia; intros j H1 H2; lia);
    (destruct (Z.geb_spec (clock (S k) - clock 0) 60000) as [Hd|Hd];
     [injection H as <-; cbn; rewrite Nat.sub_0_r, length_map, length_seq;
      repeat split; auto; try lia; intros j H1 H2; lia|]);
    (destruct (is_enoent (stat_to k)) eqn:Es;
     [|injection H as <-; cbn; rewrite Nat.sub_0_r, length_app, length_map, length_seq;
       cbn; rewrite Nat.add_1_r, seq_snoc, map_app;
       repeat split; auto; try lia; intros j H1 H2; lia]).
  - discriminate.
  - rewrite backoff_next in H.
    replace (map (fun i => Z.min (10 * Z.of_nat i) 100) (seq 0 k) ++
             [Z.min (10 * Z.of_nat k) 100])
      with (map (fun i => Z.min (10 * Z.of_nat i) 100) (seq 0 (S k))) in H
      by (now rewrite seq_snoc, map_app).
    destruct (IH _ _ H) as (H1 & H2 & H3 & H4 & H5 & H6).
    split; [exact H1|]. split; [lia|]. split; [lia|]. split; [exact H4|].
    split; [exact H5|]. intros j Hj1 Hj2.
    destruct (Nat.eq_dec j k) as [->|Hne].
    + rewrite E. repeat split; auto. discriminate.
    + apply H6; lia.
Qed.

(** X12. When the patched [rename] completes, its callback receives the
    outcome of the last call of the underlying [rename]; a further call
    was made only after a failure seen less than 60 s after the start
    and a [stat] of the destination that said ENOENT; and the timers were
    set with the delays 0, 10, 20, ... capped at 100 ms. *)
Theorem rename_backoff_schedule clock origRename stat_to fuel r :
  rename clock origRename stat_to fuel = Some r ->
  r_err r = origRename (r_renames r - 1) /\
  1 <= r_renames r /\ r_renames r <= S fuel /\
  r_delays r = map (fun i => Z.min (10 * Z.of_nat i) 100)
                   (seq 0 (List.length (r_delays r))) /\
  (List.length (r_delays r) = r_renames r - 1 \/
   List.length (r_delays r) = r_renames r) /\
  (forall j, j < r_renames r - 1 ->
     origRename j <> None /\ is_enoent (stat_to j) = true /\
     (clock (S j) - clock 0%nat < 60000)%Z).
Proof.
  intros H. destruct (retry_spec clock origRename stat_to fuel 0 r H)
    as (H1 & H2 & H3 & H4 & H5 & H6).
  repeat split; auto; try lia; apply H6; lia.
Qed.

Lemma retry_gives_up clock origRename stat_to fuel : forall k b ds,
  (clock (S (k + fuel)) - clock 0%nat >= 60000)%Z ->
  exists r, retry clock origRename stat_to fuel k b ds = Some r /\
            r_renames r <= S (k + fuel).
Proof.
  induction fuel as [|fuel IH]; intros k b ds Hd; cbn [retry];
    destruct (origRename k) as [err|];
    try (eexists; split; [reflexivity|]; cbn; lia);
    (destruct (Z.geb_spec (clock (S k) - clock 0) 60000) as [Hc|Hc];
     [eexists; split; [reflexivity|]; cbn; lia|]);
    (destruct (is_enoent (stat_to k));
     [|eexists; split; [reflexivity|]; cbn; lia]).
  - rewrite Nat.add_0_r in Hd. lia.
  - destruct (IH (S k) (Z.min (b + 10) 100) (ds ++ [b])) as (r & Hr & Hn).
    + now rewrite Nat.add_succ_l, <- Nat.add_succ_r.
    + exists r. split; [exact Hr|]. lia.
Qed.

(** X13. The patched [rename] gives up: if the clock reads 60 s or more past
    the start when the [n+1]-th failure arrives, the callback has been
    called after at most [n+1] calls of the underlying [rename]. *)
Theorem rename_gives_up_at_deadline clock origRename stat_to n :
  (clock (S n) - clock 0%nat >= 60000)%Z ->
  exists r, rename clock origRename stat_to n = Some r /\ r_renames r <= S n.
Proof.
  intros H. exact (retry_gives_up clock origRename stat_to n 0 0%Z [] H).
Qed.

(** A witness for X10. *)
Lemma read_retries_at_most_ten_times_witness :
  10 <= 10 /\
  exists c, read flaky_read 10 = Some c /\
    1 <= c_calls c /\ c_calls c <= 11 /\
    (c_err c, c_res c) = flaky_read (c_calls c - 1) /\
    (forall j, j < c_calls c - 1 -> is_eagain (fst (flaky_read j)) = true) /\
    (is_eagain (c_err c) = true -> c_calls c = 11).
Proof.
  split; [lia|]. apply (read_retries_at_most_ten_times flaky_read 10). lia.
Defined.

Example flaky_read_delivers :
  read flaky_read 10 = Some (mkCompletion None [VNum 42] 4).
Proof. reflexivity. Qed.

(** A witness for X11. *)
Lemma readSync_retries_at_most_ten_times_witness :
  10 <= 10 /\
  exists s, readSync flaky_readSync 10 = Some s /\
    1 <= s_calls s /\ s_calls s <= 11 /\
    s_result s = flaky_readSync (s_calls s - 1) /\
    (forall j, j < s_calls s - 1 ->
       exists e, flaky_readSync j = inl e /\ code e = "EAGAIN"%string) /\
    ((exists e, s_result s = inl e /\ code e = "EAGAIN"%string) ->
     s_calls s = 11).
Proof.
  split; [lia|].
  apply (readSync_retries_at_most_ten_times flaky_readSync 10). lia.
Defined.

(** A witness for X12. *)
Lemma rename_backoff_schedule_witness :
  rename slow_clock busy_rename absent_to 5 =
    Some (mkRename (Some ebusy) [0; 10]%Z 3) /\
  r_err (mkRename (Some ebusy) [0; 10]%Z 3) = busy_rename (3 - 1) /\
  1 <= 3 /\ 3 <= 6 /\
  [0; 10]%Z = map (fun i => Z.min (10 * Z.of_nat i) 100) (seq 0 2) /\
  (2 = 3 - 1 \/ 2 = 3) /\
  (forall j, j < 3 - 1 ->
     busy_rename j <> None /\ is_enoent (absent_to j) = true /\
     (slow_clock (S j) - slow_clock 0%nat < 60000)%Z).
Proof.
  split; [reflexivity|].
  apply (rename_backoff_schedule slow_clock busy_rename absent_to 5
           (mkRename (Some ebusy) [0; 10]%Z 3)). reflexivity.
Defined.

(** A witness for X13. *)
Lemma rename_gives_up_at_deadline_witness :
  (slow_clock 3%nat - slow_clock 0%nat >= 60000)%Z /\
  exists r, rename slow_clock busy_rename absent_to 2 = Some r /\
            r_renames r <= 3.
Proof.
  split; [vm_compute; discriminate|].
  apply (rename_gives_up_at_deadline slow_clock busy_rename absent_to 2).
  vm_compute. discriminate.
Defined.

End IoRetryFacts.

(* ===================================================================== *)
(** * Results on the adapters between the two conventions *)
(* ===================================================================== *)

Module AdapterFacts.
Import Js Adapter.

Lemma last_snoc_arg {R : Type} (args : list (arg R)) (x d : arg R) :
  last (args ++ [x]) d = x.
Proof.
  induction args as [|y l IH]; [reflexivity|].
  cbn. destruct (l ++ [x]) eqn:E; [now destruct l|exact IH].
Qed.

Lemma trailing_callback_snoc {R : Type} (args : list (arg R)) (k : node_callback R) :
  trailing_callback (args ++ [Fun k]) = Some k.
Proof. unfold trailing_callback. now rewrite last_snoc_arg. Qed.

Section Laws.
Variable R : Type.
Variable nothing : R.

(** X14. Called with a trailing callback, a function made by [fromCallback]
    runs the original function on the same arguments; called without, it
    gives a promise that is rejected with the error that the original
    function reports, and fulfilled with its result when it reports
    none. *)
Theorem fromCallback_settles (fn : list (arg R) -> R) args :
  (forall k, trailing_callback args = Some k ->
     fromCallback fn args = Returned (fn args)) /\
  (trailing_callback args = None ->
   forall err done,
     (forall k, fn (args ++ [Fun k]) = k err done) ->
     exists p, fromCallback fn args = Promised p /\
       forall settle,
         p settle = settle (match err with
                            | Some e => inl e
                            | None => inr done
                            end)).
Proof.
  unfold fromCallback. split.
  - intros k ->. reflexivity.
  - intros -> err done Hfn. eexists. split; [reflexivity|].
    intros settle. cbv beta. rewrite Hfn. now destruct err.
Qed.

(** X15. Round trip: the promise that [fromCallback(fn)] gives for a call
    without callback, returned by a function that [fromPromise] adapts
    and that is called with the callback [cb], makes [cb] receive what
    [fn] reports: its result, or its error alone. *)
Theorem callback_promise_callback (fn : list (arg R) -> R) args cb err done :
  trailing_callback args = None ->
  (forall k, fn (args ++ [Fun k]) = k err done) ->
  exists p, fromCallback fn args = Promised p /\
    fromPromise (fun _ => p) (args ++ [Fun cb]) =
    Returned (match err with
              | Some e => cb (Some e) VUndef
              | None => cb None done
              end).
Proof.
  intros Hn Hfn. unfold fromCallback, fromPromise. rewrite Hn.
  eexists. split; [reflexivity|].
  rewrite trailing_callback_snoc. cbv beta. rewrite Hfn. now destruct err.
Qed.

(** X16. Round trip the other way: a promise-returning function adapted by
    [fromPromise], adapted again by [fromCallback] and called without
    callback, gives a promise that settles as the promise of the original
    function for the same arguments does. *)
Theorem promise_callback_promise (fn : list (arg R) -> promise R) args o :
  trailing_callback args = None ->
  (forall settle, fn args settle = settle o) ->
  exists p,
    fromCallback (run_call nothing (fromPromise fn)) args = Promised p /\
    forall settle, p settle = settle o.
Proof.
  intros Hn Hfn. unfold fromCallback. rewrite Hn.
  eexists. split; [reflexivity|]. intros settle. cbv beta.
  unfold run_call, fromPromise. rewrite trailing_callback_snoc.
  rewrite removelast_last, Hfn. now destruct o.
Qed.

End Laws.

(** A witness for X14. *)
Lemma fromCallback_settles_witness :
  trailing_callback [Val (R := observed) (VNum 1); Val (VNum 2)] = None /\
  (forall k, count_args ([Val (VNum 1); Val (VNum 2)] ++ [Fun k]) =
             k None (VNum 2)) /\
  exists p, fromCallback count_args [Val (VNum 1); Val (VNum 2)] = Promised p /\
    forall settle, p settle = settle (inr (VNum 2)).
Proof.
  split; [reflexivity|]. split; [reflexivity|].
  destruct (fromCallback_settles observed count_args [Val (VNum 1); Val (VNum 2)])
    as [_ H].
  apply (H eq_refl None (VNum 2)). reflexivity.
Defined.

(** A witness for X15. *)
Lemma callback_promise_callback_witness :
  trailing_callback (R := observed) [] = None /\
  (forall k, count_args ([] ++ [Fun k]) = k (Some einval) VUndef) /\
  exists p, fromCallback count_args [] = Promised p /\
    fromPromise (fun _ => p) ([] ++ [Fun (fun e v => Some (e, v))]) =
    Returned (Some (Some einval, VUndef)).
Proof.
  split; [reflexivity|]. split; [reflexivity|].
  apply (callback_promise_callback observed count_args []
           (fun e v => Some (e, v)) (Some einval) VUndef); reflexivity.
Defined.

(** A witness for X16. *)
Lemma promise_callback_promise_witness :
  trailing_callback [Val (R := observed) (VNum 1)] = None /\
  (forall settle : error + value -> observed,
     (fun (_ : list (arg observed)) (k : error + value -> observed) => k (inr (VNum 9)))
       [Val (VNum 1)] settle = settle (inr (VNum 9))) /\
  exists p,
    fromCallback
      (run_call None
         (fromPromise (fun (_ : list (arg observed)) (k : error + value -> observed) =>
                         k (inr (VNum 9)))))
      [Val (VNum 1)] = Promised p /\
    forall settle, p settle = settle (inr (VNum 9)).
Proof.
  split; [reflexivity|]. split; [reflexivity|].
  apply (promise_callback_promise observed None
           (fun _ k => k (inr (VNum 9))) [Val (VNum 1)] (inr (VNum 9)));
    reflexivity.
Defined.

End AdapterFacts.

(* ===================================================================== *)
(** * More on the chown, chmod and stat fixes *)
(* ===================================================================== *)

Module MetadataFixMore.
Import Js MetadataFix Samples.
Local Open Scope Z_scope.

Lemma fix_ids_in_range s :
  (- (2 ^ 32)) <= uid s < 2 ^ 32 ->
  (- (2 ^ 32)) <= gid s < 2 ^ 32 ->
  exists s', fix_ids (Some s) = Some s' /\
    uid s' = uid s mod 2 ^ 32 /\ gid s' = gid s mod 2 ^ 32 /\
    others s' = others s /\
    fix_ids (Some s') = Some s'.
Proof.
  intros Hu Hg.
  destruct (MetadataFixFacts.fix_ids_fields s) as (s' & Hf & Eu & Eg & Eo).
  exists s'. split; [exact Hf|].
  change (2 ^ 32) with 4294967296 in *.
  assert (Hx : forall x, - 4294967296 <= x < 0 ->
                 js_add_int x 4294967296 = x + 4294967296).
  { intros x Hr. apply JsFacts.js_add_int_exact.
    change (2 ^ 53) with 9007199254740992. lia. }
  assert (Hu' : uid s' = uid s mod 4294967296).
  { rewrite Eu. destruct (Z.ltb_spec (uid s) 0).
    - rewrite Hx by lia. apply (Z.mod_unique_pos _ _ (-1)); lia.
    - symmetry. apply Z.mod_small. lia. }
  assert (Hg' : gid s' = gid s mod 4294967296).
  { rewrite Eg. destruct (Z.ltb_spec (gid s) 0).
    - rewrite Hx by lia. apply (Z.mod_unique_pos _ _ (-1)); lia.
    - symmetry. apply Z.mod_small. lia. }
  repeat split; auto.
  unfold fix_ids.
  assert (H1 : (uid s' <? 0) = false).
  { apply Z.ltb_ge. rewrite Hu'. apply Z.mod_pos_bound. lia. }
  assert (H2 : (gid s' <? 0) = false).
  { apply Z.ltb_ge. rewrite Hg'. apply Z.mod_pos_bound. lia. }
  now rewrite H1, H2.
Qed.

(** X17. On identifiers that fit in 33 signed bits the fix is the reading of
    the identifier as an unsigned 32-bit number: the result is the
    identifier modulo 2^32, and fixing it again changes nothing. *)
Theorem ids_read_as_unsigned s :
  (- (2 ^ 32)) <= uid s < 2 ^ 32 ->
  (- (2 ^ 32)) <= gid s < 2 ^ 32 ->
  exists s', fix_ids (Some s) = Some s' /\
    uid s' = uid s mod 2 ^ 32 /\ gid s' = gid s mod 2 ^ 32 /\
    others s' = others s /\
    fix_ids (Some s') = Some s'.
Proof. exact (fix_ids_in_range s). Qed.

Section Patched.
Variable R : Type.
Variable nothing : R.
Variable getuid : option Z.
Variable fs : fsmodule R.

(** X18. Where [chmod] exists and [lchmod] does not, [patchFs] installs an
    [lchmod] that calls its callback with no error and an [lchmodSync]
    that returns, neither of which calls any underlying operation (an
    [lchmodSync] that existed is replaced); the same holds for [lchown]
    and [lchownSync] where [chown] exists.  Where [chmod] is missing too,
    [lchmod] stays missing. *)
Theorem missing_link_operations_become_noops :
  (forall c, fs_chmod fs chmod = Some c -> fs_chmod fs lchmod = None ->
     exists p ps,
       fs_chmod (patchFs nothing getuid fs) lchmod = Some p /\
       fs_chmodSync (patchFs nothing getuid fs) lchmod = Some ps /\
       (forall target m k, p target m (Some k) = k None []) /\
       (forall target m, p target m None = nothing) /\
       (forall target m, ps target m = inr VUndef)) /\
  (forall c, fs_chown fs chown = Some c -> fs_chown fs lchown = None ->
     exists p ps,
       fs_chown (patchFs nothing getuid fs) lchown = Some p /\
       fs_chownSync (patchFs nothing getuid fs) lchown = Some ps /\
       (forall target u g k, p target u g (Some k) = k None []) /\
       (forall target u g, p target u g None = nothing) /\
       (forall target u g, ps target u g = inr VUndef)) /\
  (fs_chmod fs chmod = None -> fs_chmod fs lchmod = None ->
     fs_chmod (patchFs nothing getuid fs) lchmod = None) /\
  (fs_chown fs chown = None -> fs_chown fs lchown = None ->
     fs_chown (patchFs nothing getuid fs) lchown = None).
Proof.
  split; [|split; [|split]].
  - intros c Hc Hl. cbn. rewrite Hc, Hl. cbn.
    eexists. eexists. repeat split.
  - intros c Hc Hl. cbn. rewrite Hc, Hl. cbn.
    eexists. eexists. repeat split.
  - intros Hc Hl. cbn. now rewrite Hc, Hl.
  - intros Hc Hl. cbn. now rewrite Hc, Hl.
Qed.

(** X19. Applying [patchFs] twice is harmless for the Sync operations: a
    patched [chownSync], [chmodSync] or [statSync] (on identifiers that
    fit in 33 signed bits) of the twice patched object returns or throws
    what the one of the once patched object does. *)
Theorem patching_twice_changes_nothing :
  (forall n orig target u g,
     fs_chownSync fs n = Some orig ->
     (n = lchown -> fs_chown fs lchown <> None) ->
     exists p1 p2,
       fs_chownSync (patchFs nothing getuid fs) n = Some p1 /\
       fs_chownSync (patchFs nothing getuid (patchFs nothing getuid fs)) n = Some p2 /\
       p2 target u g = p1 target u g) /\
  (forall n orig target m,
     fs_chmodSync fs n = Some orig ->
     (n = lchmod -> fs_chmod fs lchmod <> None) ->
     exists p1 p2,
       fs_chmodSync (patchFs nothing getuid fs) n = Some p1 /\
       fs_chmodSync (patchFs nothing getuid (patchFs nothing getuid fs)) n = Some p2 /\
       p2 target m = p1 target m) /\
  (forall n orig target o,
     fs_statSync fs n = Some orig ->
     (forall s, orig target o = inr (Some s) ->
        (- (2 ^ 32)) <= uid s < 2 ^ 32 /\ (- (2 ^ 32)) <= gid s < 2 ^ 32) ->
     exists p1 p2,
       fs_statSync (patchFs nothing getuid fs) n = Some p1 /\
       fs_statSync (patchFs nothing getuid (patchFs nothing getuid fs)) n = Some p2 /\
       p2 target o = p1 target o).
Proof.
  split; [|split].
  - intros n orig target u g Ho Hl.
    pose proof (MetadataFixFacts.patched_chownSync R nothing getuid fs n orig Ho Hl) as H1.
    assert (Hl' : n = lchown -> fs_chown (patchFs nothing getuid fs) lchown <> None).
    { intros ->. specialize (Hl eq_refl).
      destruct (fs_chown fs lchown) as [c|] eqn:E; [|congruence].
      rewrite (MetadataFixFacts.patched_chown R nothing getuid fs lchown c E).
      discriminate. }
    cbn [chownFixSync] in H1.
    pose proof (MetadataFixFacts.patched_chownSync R nothing getuid
                  (patchFs nothing getuid fs) n _ H1 Hl') as H2.
    cbn [chownFixSync] in H2.
    eexists. eexists. split; [exact H1|]. split; [exact H2|]. cbv beta.
    destruct (orig target u g) as [e|v]; [|reflexivity].
    destruct (isIgnorableChownErr getuid (Some e)) eqn:E; [reflexivity|].
    now rewrite E.
  - intros n orig target m Ho Hl.
    pose proof (MetadataFixFacts.patched_chmodSync R nothing getuid fs n orig Ho Hl) as H1.
    assert (Hl' : n = lchmod -> fs_chmod (patchFs nothing getuid fs) lchmod <> None).
    { intros ->. specialize (Hl eq_refl).
      destruct (fs_chmod fs lchmod) as [c|] eqn:E; [|congruence].
      rewrite (MetadataFixFacts.patched_chmod R nothing getuid fs lchmod c E).
      discriminate. }
    cbn [chmodFixSync] in H1.
    pose proof (MetadataFixFacts.patched_chmodSync R nothing getuid
                  (patchFs nothing getuid fs) n _ H1 Hl') as H2.
    cbn [chmodFixSync] in H2.
    eexists. eexists. split; [exact H1|]. split; [exact H2|]. cbv beta.
    destruct (orig target m) as [e|v]; [|reflexivity].
    destruct (isIgnorableChownErr getuid (Some e)) eqn:E; [reflexivity|].
    now rewrite E.
  - intros n orig target o Ho Hr. cbn. rewrite Ho. cbn.
    eexists. eexists. split; [reflexivity|]. split; [reflexivity|]. cbv beta.
    destruct (orig target o) as [e|[s|]] eqn:E; try reflexivity.
    destruct (Hr s eq_refl) as [Hu Hg].
    destruct (fix_ids_in_range s Hu Hg) as (s' & Hf & _ & _ & _ & Hi).
    rewrite Hf. f_equal. exact Hi.
Qed.

End Patched.

(** A witness for X17. *)
Lemma ids_read_as_unsigned_witness :
  ((- (2 ^ 32)) <= uid raw_stats < 2 ^ 32) /\
  ((- (2 ^ 32)) <= gid raw_stats < 2 ^ 32) /\
  exists s', fix_ids (Some raw_stats) = Some s' /\
    uid s' = uid raw_stats mod 2 ^ 32 /\ gid s' = gid raw_stats mod 2 ^ 32 /\
    others s' = others raw_stats /\
    fix_ids (Some s') = Some s'.
Proof.
  split; [cbn; lia|]. split; [cbn; lia|].
  apply (ids_read_as_unsigned raw_stats); cbn; lia.
Defined.

(** A witness for X18. *)
Lemma missing_link_operations_become_noops_witness :
  fs_chmod no_lchmod_fs chmod = Some sample_chmod /\
  fs_chmod no_lchmod_fs lchmod = None /\
  exists p ps,
    fs_chmod (patchFs NoCall (Some 1000) no_lchmod_fs) lchmod = Some p /\
    fs_chmodSync (patchFs NoCall (Some 1000) no_lchmod_fs) lchmod = Some ps /\
    (forall target m k, p target m (Some k) = k None []) /\
    (forall target m, p target m None = NoCall) /\
    (forall target m, ps target m = inr VUndef).
Proof.
  split; [reflexivity|]. split; [reflexivity|].
  destruct (missing_link_operations_become_noops seen NoCall (Some 1000)
              no_lchmod_fs) as (H & _).
  apply (H sample_chmod); reflexivity.
Defined.

(** A witness for X19. *)
Lemma patching_twice_changes_nothing_witness :
  fs_statSync sample_fs lstat = Some sample_statSync /\
  (forall s, sample_statSync (VStr "/f") VUndef = inr (Some s) ->
     (- (2 ^ 32)) <= uid s < 2 ^ 32 /\ (- (2 ^ 32)) <= gid s < 2 ^ 32) /\
  exists p1 p2,
    fs_statSync (patchFs NoCall (Some 1000) sample_fs) lstat = Some p1 /\
    fs_statSync (patchFs NoCall (Some 1000)
                   (patchFs NoCall (Some 1000) sample_fs)) lstat = Some p2 /\
    p2 (VStr "/f") VUndef = p1 (VStr "/f") VUndef.
Proof.
  assert (Hr : forall s, sample_statSync (VStr "/f") VUndef = inr (Some s) ->
     (- (2 ^ 32)) <= uid s < 2 ^ 32 /\ (- (2 ^ 32)) <= gid s < 2 ^ 32).
  { intros s H. injection H as <-. cbn. lia. }
  split; [reflexivity|]. split; [exact Hr|].
  destruct (patching_twice_changes_nothing seen NoCall (Some 1000) sample_fs)
    as (_ & _ & H).
  apply (H lstat sample_statSync (VStr "/f") VUndef eq_refl Hr).
Defined.

End MetadataFixMore.

(* ===================================================================== *)
(** * More on the copy engine *)
(* ===================================================================== *)

Module CopySyncMore.
Import CopySync.
Local Open Scope string_scope.

Section AnyHost.
Context {FS : Type} {H : Host FS}.

(** X20. [getStats] refuses what it cannot copy before it writes anything: a
    socket, a named pipe, an entry of no known type, and a source that
    cannot be stat'ed all make it throw, with the file system as it was,
    whatever the destination and the options are. *)
Theorem unsupported_entry_throws fuel destStat src dest opts fs :
  (forall st,
     (if dereference opts then statSync else lstatSync) src fs = inr st ->
     (st_kind st = Socket ->
        getStats (S fuel) destStat src dest opts fs =
        Throw (CannotCopySocket src) fs) /\
     (st_kind st = FIFO ->
        getStats (S fuel) destStat src dest opts fs =
        Throw (CannotCopyFIFO src) fs) /\
     (st_kind st = Unknown ->
        getStats (S fuel) destStat src dest opts fs =
        Throw (UnknownFile src) fs)) /\
  (forall e,
     (if dereference opts then statSync else lstatSync) src fs = inl e ->
     getStats (S fuel) destStat src dest opts fs = Throw e fs).
Proof.
  split.
  - intros st Hs. cbn [getStats]. unfold getStats_body.
    rewrite (CopySyncFacts.bind_read _ _ _ _ Hs).
    unfold isDirectory, isFile, isCharacterDevice, isBlockDevice,
      isSymbolicLink, isSocket, isFIFO.
    repeat split; intros ->; reflexivity.
  - intros e Hs. cbn [getStats]. unfold getStats_body, bind, read.
    now rewrite Hs.
Qed.

(** X21. The loop of [copyDir] composes: copying the entries [l1 ++ l2] is
    copying [l1] and then, if that returned, [l2] from the state reached;
    if an entry of [l1] throws, the error comes out with the state
    reached and no entry of [l2] is looked at. *)
Theorem directory_copy_composes rec l1 l2 src dest opts fs :
  copyDirItems rec (l1 ++ l2) src dest opts fs =
  match copyDirItems rec l1 src dest opts fs with
  | Ret _ fs' => copyDirItems rec l2 src dest opts fs'
  | Throw e fs' => Throw e fs'
  | OutOfFuel => OutOfFuel
  end.
Proof.
  revert fs. induction l1 as [|item l1 IH]; intros fs; [reflexivity|].
  cbn [app copyDirItems]. unfold bind.
  destruct (copyDirItem rec item src dest opts fs) as [[] fs1|e fs1|];
    [apply IH|reflexivity|reflexivity].
Qed.

(** X22. A directory whose entries are all rejected by the filter is left
    alone: with a destination that exists, [getStats] on it returns with
    the file system as it was. *)
Theorem fully_filtered_directory_untouched fuel destStat src dest opts st items fs :
  (if dereference opts then statSync else lstatSync) src fs = inr st ->
  st_kind st = Directory ->
  opendirSync src fs = inr items ->
  (forall item, In item items ->
     filtered_out opts (path_join src item) (path_join dest item) = true) ->
  getStats (S fuel) (Some destStat) src dest opts fs = Ret tt fs.
Proof.
  intros Hs Hk Ho Hf. cbn [getStats]. unfold getStats_body.
  rewrite (CopySyncFacts.bind_read _ _ _ _ Hs).
  unfold isDirectory. rewrite Hk. cbn [onDir]. unfold copyDir.
  rewrite (CopySyncFacts.bind_read _ _ _ _ Ho).
  now apply CopySyncFacts.copyDirItems_all_filtered.
Qed.

(** X23. A link copied onto a destination that exists but is not a link
    ([readlinkSync] on it fails with EINVAL or UNKNOWN) is created with
    [symlinkSync] without the destination being removed; any other
    failure to read the destination is thrown on, with the file system
    as it was; and with no destination the link is created directly. *)
Theorem link_onto_something_else src dest opts destStat target fs :
  readlinkSync src fs = inr target ->
  let resolvedSrc :=
    if dereference opts then path_resolve cwd target else target in
  onLink None src dest opts fs = symlinkSync resolvedSrc dest fs /\
  (forall c,
     readlinkSync dest fs = inl (HostError c) ->
     onLink (Some destStat) src dest opts fs =
     if String.eqb c "EINVAL" || String.eqb c "UNKNOWN"
     then symlinkSync resolvedSrc dest fs
     else Throw (HostError c) fs).
Proof.
  intros Hs resolvedSrc. split.
  - unfold onLink. now rewrite (CopySyncFacts.bind_read _ _ _ _ Hs).
  - intros c Hd. unfold onLink.
    rewrite (CopySyncFacts.bind_read _ _ _ _ Hs). now rewrite Hd.
Qed.

End AnyHost.

(** X24. The options after the first lines of [copySync]: [clobber] and
    [overwrite] are booleans, [clobber] is true unless it was given,
    [overwrite] is what was given or else [clobber], the other options
    are kept, and an options object that went through [copySync] once
    comes out of a second call as it is. *)
Theorem options_normalized_once a :
  (exists c w, clobber (normalize a) = Some c /\
               overwrite (normalize a) = Some w) /\
  (forall o, a = OptionsObject o ->
     clobber (normalize a) = Some (match clobber o with
                                   | Some b => b
                                   | None => true
                                   end) /\
     overwrite (normalize a) =
       Some (match overwrite o, clobber o with
             | Some b, _ => b
             | None, Some c => c
             | None, None => true
             end) /\
     errorOnExist (normalize a) = errorOnExist o /\
     preserveTimestamps (normalize a) = preserveTimestamps o /\
     dereference (normalize a) = dereference o /\
     filter (normalize a) = filter o) /\
  (a = NoOptions -> truthy (overwrite (normalize a)) = true) /\
  normalize (OptionsObject (normalize a)) = normalize a.
Proof.
  split; [|split; [|split]].
  - unfold normalize. cbn. eauto.
  - intros o ->. unfold normalize. cbn.
    destruct (overwrite o), (clobber o); repeat split.
  - intros ->. reflexivity.
  - unfold normalize. cbn. reflexivity.
Qed.

Local Open Scope Z_scope.

(** A mode below 2^31 with the owner-write bit added stays below 2^31. *)
Lemma lor_128_range m : 0 <= m < 2 ^ 31 -> 0 <= Z.lor m 128 < 2 ^ 31.
Proof.
  intros [H0 H1].
  assert (Hn : 0 <= Z.lor m 128) by (apply Z.lor_nonneg; lia).
  split; [exact Hn|].
  assert (Hb : Z.testbit (Z.lor m 128) 7 = true)
    by (rewrite Z.lor_spec, JsFacts.testbit_128; apply orb_true_r).
  assert (Hp : 0 < Z.lor m 128).
  { destruct (Z.eq_dec (Z.lor m 128) 0) as [E|E]; [|lia].
    rewrite E, Z.bits_0 in Hb. discriminate. }
  apply Z.log2_lt_pow2; [exact Hp|].
  rewrite Z.log2_lor by lia. change (Z.log2 128) with 7.
  destruct (Z.eq_dec m 0) as [->|Hm]; [cbn; lia|].
  assert (Z.log2 m < 31) by (apply Z.log2_lt_pow2; lia).
  lia.
Qed.

Section WritableBit.
Context {FS : Type} {H : Host FS}.

(** X25. [makeFileWritable] is one [chmodSync] on the destination, with
    the signed 32-bit value of [srcMode | 0o200]: bit 7, the owner-write
    bit that [fileIsNotWritable] tests, is set, and the other 31 low
    bits are those of [srcMode].  The mode it sets is writable; for a
    [srcMode] from 0 to 2^31 - 1 it is [srcMode] with bit 7 added, hence
    [srcMode] itself when that was writable. *)
Theorem owner_write_bit dest srcMode fs :
  exists m,
    makeFileWritable dest srcMode fs = chmodSync dest m fs /\
    - 2 ^ 31 <= m < 2 ^ 31 /\
    (forall i, 0 <= i < 32 ->
       Z.testbit m i = if Z.eqb i 7 then true else Z.testbit srcMode i) /\
    fileIsNotWritable m = false /\
    fileIsNotWritable srcMode = negb (Z.testbit srcMode 7) /\
    (0 <= srcMode < 2 ^ 31 -> m = Z.lor srcMode 128) /\
    (0 <= srcMode < 2 ^ 31 -> fileIsNotWritable srcMode = false ->
     m = srcMode).
Proof.
  assert (Hbits : forall i, 0 <= i < 32 ->
            Z.testbit (Js.js_bitor srcMode 128) i =
            if Z.eqb i 7 then true else Z.testbit srcMode i).
  { intros i Hi. rewrite JsFacts.js_bitor_testbit, JsFacts.testbit_128 by exact Hi.
    destruct (Z.eqb i 7); [apply orb_true_r|apply orb_false_r]. }
  assert (Hsmall : 0 <= srcMode < 2 ^ 31 ->
            Js.js_bitor srcMode 128 = Z.lor srcMode 128).
  { intros Hr. unfold Js.js_bitor.
    rewrite (JsFacts.ToInt32_small srcMode) by lia.
    change (Js.ToInt32 128) with 128.
    pose proof (lor_128_range srcMode Hr).
    apply JsFacts.ToInt32_small. lia. }
  exists (Js.js_bitor srcMode 128).
  split; [reflexivity|].
  split; [apply JsFacts.ToInt32_range|].
  split; [exact Hbits|].
  unfold fileIsNotWritable. rewrite !JsFacts.js_bitand_128.
  split; [rewrite Hbits by lia; reflexivity|].
  split; [reflexivity|].
  split; [exact Hsmall|].
  intros Hr Hw. rewrite (Hsmall Hr). apply negb_false_iff in Hw.
  apply Z.bits_inj'. intros i Hi.
  rewrite Z.lor_spec, JsFacts.testbit_128.
  destruct (Z.eqb_spec i 7) as [->|]; [now rewrite Hw|apply orb_false_r].
Qed.

End WritableBit.

(** ** Witnesses *)

Import MemFs.

(** A witness for X20. *)
Lemma unsupported_entry_throws_witness :
  getStats 1 None "/sock" "/x" MemFs.defaults Samples.odd_entries =
  Throw (CannotCopySocket "/sock") Samples.odd_entries.
Proof.
  destruct (unsupported_entry_throws (H := MemFs.mem_host) 0 None
              "/sock" "/x" MemFs.defaults Samples.odd_entries) as [Hst _].
  destruct (Hst _ eq_refl) as [Hsock _].
  exact (Hsock eq_refl).
Defined.

(** A witness for X22. *)
Lemma fully_filtered_directory_untouched_witness :
  getStats 1 (Some (MemFs.stats_of MemFs.directory)) "/a" "/b"
    Samples.reject_all_options MemFs.tree = Ret tt MemFs.tree.
Proof.
  apply (fully_filtered_directory_untouched (H := MemFs.mem_host) 0
           (MemFs.stats_of MemFs.directory) "/a" "/b"
           Samples.reject_all_options (MemFs.stats_of MemFs.directory)
           ["f1.txt"; "sub"] MemFs.tree).
  - reflexivity.
  - reflexivity.
  - vm_compute. reflexivity.
  - intros item _. reflexivity.
Defined.

(** A witness for X23. *)
Lemma link_onto_something_else_witness :
  onLink (Some (MemFs.stats_of (MemFs.file 420 "text"))) "/l1" "/plain"
    MemFs.defaults Samples.odd_entries =
  symlinkSync "/data/x" "/plain" Samples.odd_entries.
Proof.
  destruct (link_onto_something_else (H := MemFs.mem_host) "/l1" "/plain"
              MemFs.defaults (MemFs.stats_of (MemFs.file 420 "text"))
              "/data/x" Samples.odd_entries eq_refl) as [_ Hd].
  exact (Hd "EINVAL" eq_refl).
Defined.

(** A witness for X24. *)
Lemma options_normalized_once_witness :
  truthy (overwrite (normalize NoOptions)) = true.
Proof.
  destruct (options_normalized_once NoOptions) as (_ & _ & Hn & _).
  exact (Hn eq_refl).
Defined.

(** A witness for X25. *)
Lemma owner_write_bit_witness :
  makeFileWritable "/dest.txt" 292 two_files =
  chmodSync "/dest.txt" 420 two_files.
Proof.
  destruct (owner_write_bit (H := mem_host) "/dest.txt" 292 two_files)
    as (m & Hm & _ & _ & _ & _ & Hl & _).
  rewrite Hm. f_equal. apply Hl. lia.
Defined.

End CopySyncMore.
